(** * OpenWorld server: chunk generation and per-player chunk streaming

    A shallow embedding of [ChunkGenerator.ts] and [GameWorld.ts], of the
    movement validation of [utils/validation.ts], and of the world registry
    and the connection handlers of [index.ts].

    Numbers.  A JavaScript number is an IEEE 754 binary64 value.  Numbers
    that the program keeps integral (chunk coordinates, seeds, generator
    states, entity positions and sizes, identifiers, counts) are modelled
    as [Z]; this is exact as long as every intermediate value stays within
    2^53 in magnitude.  Numbers that carry a fraction (the outputs of the
    seeded generator, products with them, player positions, colour
    components) are modelled as primitive binary64 floats, so that
    [Math.floor (random () * n)] is computed with the same roundings as the
    program.  [Math.sin] and [Math.cos] are left to the engine by the
    language standard; they are parameters of the generator.

    Out of that range the program goes on with rounded numbers.  The
    module [Binary64] has the generator, and the loops of
    [getChunksForPosition], with every number a double; it shows what the
    program does there.  The statements on what is generated and on the
    chunks near a position are made in the exact range ([exactSeed],
    [exactChunk], [withinReach]). *)

From Stdlib Require Import ZArith QArith Qreals Reals Lra Floats Uint63.
From Stdlib Require Import Ascii Decimal DecimalString DecimalZ DecimalPos List Lia.
From stdpp Require Import gmap strings list.

Set Warnings "-inexact-float,-abstract-large-number".
Local Open Scope Z_scope.

(** ** JavaScript numbers *)

Module Num.

(** The double holding the integer [z] (exact for |z| <= 2^53). *)
Definition num (z : Z) : float :=
if z <? 0 then (- PrimFloat.of_uint63 (Uint63.of_Z (- z)))%float
else PrimFloat.of_uint63 (Uint63.of_Z z).

(** [Math.floor] of a finite double, as an integer.  [Math.floor] gives
  back [NaN] and the infinities as they are; they have no integer, and 0
  stands for them here ([Binary64.Math_floor] keeps them).  What is said
  of a position asks for finite quotients ([withinReach]). *)
Definition Math_floor (f : float) : Z :=
match Prim2SF f with
| S754_finite s m e => Z.shiftl (if s then Z.neg m else Z.pos m) e
| _ => 0
end.

(** [a % b] on integral numbers: the result takes the sign of [a]. *)
Definition rem (a b : Z) : Z := Z.rem a b.

(** Exact rationals for the geometry: centres are integers or
  half-integers, so sums, differences and squares are exact in binary64
  as well. *)
Definition half (z : Z) : Q := z # 2.

Definition Qltb (a b : Q) : bool := negb (Qle_bool b a).

(** [Math.sqrt d < l], decided without taking the root.  Squared
  distances here are multiples of 1/4 and each limit is a multiple of
  1/2 below 2^53, so the correctly rounded root falls on the same side
  of the limit as the exact one. *)
Definition sqrt_lt (d l : Q) : bool := Qltb 0 l && Qltb d (l * l).

End Num.

Import Num.

(** ** types/Player.ts *)

Module Position.
Record t := mk { x : float; y : float }.
End Position.

(** The string [hsl(h, s%, l%)] built from three numbers. *)
Module Hsl.
Record t := mk { h : float; s : float; l : float }.
End Hsl.

Module Tree.
Record t := mk { id : Z; x : Z; y : Z; size : Z; color : Hsl.t; variant : Z }.
End Tree.

Module Bush.
Record t := mk { id : Z; x : Z; y : Z; size : Z; color : Hsl.t; variant : Z }.
End Bush.

(** [color] is [None] when the palette lookup is out of range
    ([undefined] in the program). *)
Module Flower.
Record t := mk { id : Z; x : Z; y : Z; color : option string }.
End Flower.

Module WorldChunk.
Record t := mk {
x : Z; y : Z;
trees : list Tree.t; bushes : list Bush.t; flowers : list Flower.t;
isLoaded : bool }.
End WorldChunk.

Module Direction.
Inductive t := up | down | left | right.
End Direction.

Module Player.
Record t := mk {
id : string; username : string; position : Position.t;
direction : Direction.t; isMoving : bool; lastUpdate : Z }.
End Player.

(** ** game/ChunkGenerator.ts *)

(** The argument type [{ x, y, size? }] of the collision checks. *)
Module Element.
Record t := mk { x : Z; y : Z; size : option Z }.
Definition ofTree (a : Tree.t) : t := mk (Tree.x a) (Tree.y a) (Some (Tree.size a)).
Definition ofBush (b : Bush.t) : t := mk (Bush.x b) (Bush.y b) (Some (Bush.size b)).
End Element.

Module ChunkGenerator.

Record t := mk {
worldWidth : Z; worldHeight : Z; chunkSize : Z;
nextTreeId : Z; nextBushId : Z; nextFlowerId : Z }.

Definition new (worldWidth worldHeight chunkSize : Z) : t :=
mk worldWidth worldHeight chunkSize 1000000 2000000 3000000.

(** [createSeededRandom]: the closure is its captured variable [state]. *)
Definition Random := Z.

Definition createSeededRandom (seed : Z) : Random := seed.

(** One call of the closure: the value returned and the new [state].
  The state is exact as long as [state * 9301 + 49297] is below 2^53 in
  magnitude, which it is after the first call; a larger seed is rounded
  ([Binary64.ChunkGenerator.random]). *)
Definition random (state : Random) : float * Random :=
let state' := rem (state * 9301 + 49297) 233280 in
((num state' / 233280)%float, state').

(** [element.size || 10] *)
Definition sizeOr10 (element : Element.t) : Z :=
match Element.size element with
| Some s => if s =? 0 then 10 else s
| None => 10
end.

(** The body of the loop of [checkCollisionWithExistingElements].  The
  centres are exact in a double below 2^52, and the comparison is that of
  the program as long as the squares are exact too;
  [Binary64.ChunkGenerator.collides] rounds as the engine does. *)
Definition collides (x y size : Z) (element : Element.t) : bool :=
let buffer := 10 in
let elementSize := sizeOr10 element in
let dx := (inject_Z x + half size - (inject_Z (Element.x element) + half elementSize))%Q in
let dy := (inject_Z y + half size - (inject_Z (Element.y element) + half elementSize))%Q in
sqrt_lt (dx * dx + dy * dy) (half size + half elementSize + inject_Z buffer).

Definition checkCollisionWithExistingElements
  (x y size : Z) (existingElements : list Element.t) : bool :=
existsb (collides x y size) existingElements.

(** The [while (!validPosition && attempts < 50)] loop of [generateTrees]
  and [generateBushes]; [left] is [50 - attempts].  It returns
  [validPosition], the last [x] and [y], and the generator state.  The
  positions [chunkX * chunkSize + offset] are exact below 2^53
  ([exactChunk]); [Binary64.ChunkGenerator.placement] rounds them. *)
Fixpoint placement (left : nat) (g : t) (chunkX chunkY size : Z)
  (existing : list Element.t) (x y : Z) (st : Random) : bool * Z * Z * Random :=
match left with
| O => (false, x, y, st)
| S left' =>
    let '(r1, st1) := random st in
    let x := chunkX * chunkSize g + Math_floor (r1 * num (chunkSize g - size)) in
    let '(r2, st2) := random st1 in
    let y := chunkY * chunkSize g + Math_floor (r2 * num (chunkSize g - size)) in
    if negb (checkCollisionWithExistingElements x y size existing)
    then (true, x, y, st2)
    else placement left' g chunkX chunkY size existing x y st2
end.

Section Trig.

Variables Math_sin Math_cos : float -> float.

(** The body of [for (let i = 0; i < count; i++)] in [generateTrees],
run [n] more times. *)
Fixpoint treesLoop (n : nat) (g : t) (chunkX chunkY : Z)
(st : Random) (trees : list Tree.t) : list Tree.t * t :=
match n with
| O => (trees, g)
| S n' =>
  let '(r, st) := random st in
  let size := 80 + Math_floor (r * 40) in
  let '(r, st) := random st in
  let variant := Math_floor (r * 3) in
  let '(validPosition, x, y, st) :=
    placement 50 g chunkX chunkY size (map Element.ofTree trees) 0 0 st in
  if validPosition then
    let id := nextTreeId g in
    let g := mk (worldWidth g) (worldHeight g) (chunkSize g)
                (id + 1) (nextBushId g) (nextFlowerId g) in
    let '(r1, st) := random st in
    let '(r2, st) := random st in
    let '(r3, st) := random st in
    let color := Hsl.mk (110 + r1 * 30) (70 + r2 * 10) (35 + r3 * 15) in
    treesLoop n' g chunkX chunkY st
      (trees ++ [Tree.mk id x y size color variant])
  else treesLoop n' g chunkX chunkY st trees
end.

Definition generateTrees (g : t) (chunkX chunkY seed : Z) : list Tree.t * t :=
let st := createSeededRandom seed in
let count := 5 + Math_floor ((Math_sin (num seed) + 1) * 5) in
treesLoop (Z.to_nat count) g chunkX chunkY st [].

Fixpoint bushesLoop (n : nat) (g : t) (chunkX chunkY : Z)
(existingElements : list Element.t)
(st : Random) (bushes : list Bush.t) : list Bush.t * t :=
match n with
| O => (bushes, g)
| S n' =>
  let '(r, st) := random st in
  let size := 40 + Math_floor (r * 20) in
  let '(r, st) := random st in
  let variant := Math_floor (r * 3) in
  let '(validPosition, x, y, st) :=
    placement 50 g chunkX chunkY size
      (existingElements ++ map Element.ofBush bushes) 0 0 st in
  if validPosition then
    let id := nextBushId g in
    let g := mk (worldWidth g) (worldHeight g) (chunkSize g)
                (nextTreeId g) (id + 1) (nextFlowerId g) in
    let '(r1, st) := random st in
    let '(r2, st) := random st in
    let '(r3, st) := random st in
    let color := Hsl.mk (100 + r1 * 50) (65 + r2 * 15) (30 + r3 * 15) in
    bushesLoop n' g chunkX chunkY existingElements st
      (bushes ++ [Bush.mk id x y size color variant])
  else bushesLoop n' g chunkX chunkY existingElements st bushes
end.

Definition generateBushes (g : t) (chunkX chunkY seed : Z)
(existingElements : list Element.t) : list Bush.t * t :=
let st := createSeededRandom (seed + 1) in
let count := 8 + Math_floor ((Math_cos (num seed) + 1) * 7) in
bushesLoop (Z.to_nat count) g chunkX chunkY existingElements st [].

Definition flowerColors : list string :=
["#FF5733"; "#DAF7A6"; "#FFC300"; "#C70039"; "#900C3F";
"#581845"; "#FFFFFF"; "#FFC0CB"; "#3D85C6"]%string.

(** [array[i]] for an integral index. *)
Definition index {A} (l : list A) (i : Z) : option A :=
if i <? 0 then None else l !! Z.to_nat i.

(** The inner loop of [generateFlowers] says whether some element is
closer than half its size.  As for [collides], the comparison is exact in
the range of [exactChunk]; so are the positions of [flowersLoop]. *)
Definition tooClose (x y : Z) (element : Element.t) : bool :=
let elementSize := sizeOr10 element in
let dx := (inject_Z x - (inject_Z (Element.x element) + half elementSize))%Q in
let dy := (inject_Z y - (inject_Z (Element.y element) + half elementSize))%Q in
sqrt_lt (dx * dx + dy * dy) (half elementSize).

Fixpoint flowersLoop (n : nat) (g : t) (chunkX chunkY : Z)
(existingElements : list Element.t)
(st : Random) (flowers : list Flower.t) : list Flower.t * t :=
match n with
| O => (flowers, g)
| S n' =>
  let '(r, st) := random st in
  let x := chunkX * chunkSize g + Math_floor (r * num (chunkSize g)) in
  let '(r, st) := random st in
  let y := chunkY * chunkSize g + Math_floor (r * num (chunkSize g)) in
  let '(r, st) := random st in
  let color :=
    index flowerColors (Math_floor (r * num (Z.of_nat (length flowerColors)))) in
  let validPosition := negb (existsb (tooClose x y) existingElements) in
  if validPosition then
    let id := nextFlowerId g in
    let g := mk (worldWidth g) (worldHeight g) (chunkSize g)
                (nextTreeId g) (nextBushId g) (id + 1) in
    flowersLoop n' g chunkX chunkY existingElements st
      (flowers ++ [Flower.mk id x y color])
  else flowersLoop n' g chunkX chunkY existingElements st flowers
end.

Definition generateFlowers (g : t) (chunkX chunkY seed : Z)
(existingElements : list Element.t) : list Flower.t * t :=
let st := createSeededRandom (seed + 2) in
let count := 15 + Math_floor ((Math_sin (num seed * 0.1) + 1) * 10) in
flowersLoop (Z.to_nat count) g chunkX chunkY existingElements st [].

Definition generateChunk (g : t) (chunkX chunkY : Z) : WorldChunk.t * t :=
let chunkSeed := chunkX * 10000 + chunkY in
let '(trees, g) := generateTrees g chunkX chunkY chunkSeed in
let '(bushes, g) :=
generateBushes g chunkX chunkY chunkSeed (map Element.ofTree trees) in
let '(flowers, g) :=
generateFlowers g chunkX chunkY chunkSeed
  (map Element.ofTree trees ++ map Element.ofBush bushes) in
(WorldChunk.mk chunkX chunkY trees bushes flowers true, g).

End Trig.

End ChunkGenerator.

(** ** game/GameWorld.ts

    The three [Map]s are finite maps and a visibility [Set] is a finite
    set.  [players] holds the records that were passed in (the program
    holds references to them); [getPlayers] and [getSpawnPosition] read
    the state without changing it and are left out. *)

Module GameWorld.

Record t := mk {
id : string;
players : gmap string Player.t;
maxPlayers : Z;
chunkGenerator : ChunkGenerator.t;
loadedChunks : gmap string WorldChunk.t;
playerChunks : gmap string (gset string);
worldWidth : Z; worldHeight : Z; chunkSize : Z }.

Definition new (id : string) (maxPlayers : Z) : t :=
mk id ∅ maxPlayers (ChunkGenerator.new 5000 5000 500) ∅ ∅ 5000 5000 500.

(** An integral number inside a template literal. *)
Definition toString (z : Z) : string := NilZero.string_of_int (Z.to_int z).

(** The template [`${x},${y}`]. *)
Definition key (x y : Z) : string := toString x +:+ "," +:+ toString y.

(** [s.split(',')] *)
Fixpoint split (s : string) : list string :=
match s with
| EmptyString => [EmptyString]
| String c s' =>
    if Ascii.eqb c ","%char then EmptyString :: split s'
    else match split s' with
         | piece :: pieces => String c piece :: pieces
         | [] => [String c EmptyString]
         end
end.

(** [parseInt] on a whole decimal numeral, which is what [toString]
  writes; [None] is [NaN]. *)
Definition parseInt (s : string) : option Z :=
Z.of_int <$> NilZero.int_of_string s.

Definition getChunkKey (w : t) (x y : float) : string :=
let chunkX := Math_floor (x / num (chunkSize w)) in
let chunkY := Math_floor (y / num (chunkSize w)) in
key chunkX chunkY.

(** The integers [lo, lo + 1, ..., hi] visited by
  [for (let i = lo; i <= hi; i++)]. *)
Definition fromTo (lo hi : Z) : list Z := seqZ lo (hi - lo + 1).

(** [distance] is an integer in every call (the default, 2).  The two
  loops run over the integers between their bounds, which is what the
  program does when the bounds are below 2^53 in magnitude
  ([withinReach]); beyond, [x++] changes nothing and the loop does not
  end, and on [NaN] no test of the loops holds ([Binary64.rowLoop]). *)
Definition getChunksForPosition (w : t) (position : Position.t) (distance : Z)
  : list string :=
let centerChunkX := Math_floor (Position.x position / num (chunkSize w)) in
let centerChunkY := Math_floor (Position.y position / num (chunkSize w)) in
flat_map (fun x =>
  flat_map (fun y =>
    if (x <? 0) || (y <? 0)
       || (x * chunkSize w >=? worldWidth w)
       || (y * chunkSize w >=? worldHeight w)
    then []
    else [key x y])
    (fromTo (centerChunkY - distance) (centerChunkY + distance)))
  (fromTo (centerChunkX - distance) (centerChunkX + distance)).

Definition getPlayerCount (w : t) : Z := Z.of_nat (size (players w)).

Definition isFull (w : t) : bool := Z.of_nat (size (players w)) >=? maxPlayers w.

Definition updatePlayer (w : t) (player : Player.t) : t :=
if decide (is_Some (players w !! Player.id player)) then
  mk (id w) (<[Player.id player := player]> (players w)) (maxPlayers w)
     (chunkGenerator w) (loadedChunks w) (playerChunks w)
     (worldWidth w) (worldHeight w) (chunkSize w)
else w.

Definition removePlayer (w : t) (playerId : string) : t :=
mk (id w) (delete playerId (players w)) (maxPlayers w)
   (chunkGenerator w) (loadedChunks w) (delete playerId (playerChunks w))
   (worldWidth w) (worldHeight w) (chunkSize w).

Section Trig.

Variables Math_sin Math_cos : float -> float.

(** A key that does not read as two integers gives [NaN] coordinates in
the program: every loop bound of the generator is then [NaN], no
entity is made and no identifier is used; the chunk cached there has
the coordinates [NaN], for which 0 stands here.  The method is private
and no key built by [key] is of that kind ([split_key],
[parseInt_toString]). *)
Definition getOrGenerateChunk (w : t) (chunkKey : string) : WorldChunk.t * t :=
match loadedChunks w !! chunkKey with
| Some chunk => (chunk, w)
| None =>
  let pieces := split chunkKey in
  let '(chunk, g) :=
    match pieces !! 0%nat ≫= parseInt, pieces !! 1%nat ≫= parseInt with
    | Some chunkX, Some chunkY =>
        ChunkGenerator.generateChunk Math_sin Math_cos
          (chunkGenerator w) chunkX chunkY
    | _, _ => (WorldChunk.mk 0 0 [] [] [] true, chunkGenerator w)
    end in
  (chunk,
   mk (id w) (players w) (maxPlayers w) g
      (<[chunkKey := chunk]> (loadedChunks w)) (playerChunks w)
      (worldWidth w) (worldHeight w) (chunkSize w))
end.

(** [keys.map(key => this.getOrGenerateChunk(key))] *)
Fixpoint getOrGenerateChunks (w : t) (keys : list string)
: list WorldChunk.t * t :=
match keys with
| [] => ([], w)
| k :: keys' =>
  let '(chunk, w) := getOrGenerateChunk w k in
  let '(chunks, w) := getOrGenerateChunks w keys' in
  (chunk :: chunks, w)
end.

Definition addPlayer (w : t) (player : Player.t) : t :=
if decide (is_Some (players w !! Player.id player)) then w
else
let chunkKeys := getChunksForPosition w (Player.position player) 2 in
let w :=
  mk (id w) (<[Player.id player := player]> (players w)) (maxPlayers w)
     (chunkGenerator w) (loadedChunks w)
     (<[Player.id player := list_to_set chunkKeys]> (playerChunks w))
     (worldWidth w) (worldHeight w) (chunkSize w) in
snd (getOrGenerateChunks w chunkKeys).

Definition getChunksNearPosition (w : t) (position : Position.t) (distance : Z)
: list WorldChunk.t * t :=
getOrGenerateChunks w (getChunksForPosition w position distance).

Definition getNewChunksForPlayer (w : t) (player : Player.t)
: list WorldChunk.t * t :=
let currentChunkKeys := getChunksForPosition w (Player.position player) 2 in
let prevChunkKeys : gset string :=
default ∅ (playerChunks w !! Player.id player) in
let newChunkKeys :=
List.filter (fun key => negb (bool_decide (key ∈ prevChunkKeys)))
  currentChunkKeys in
let w :=
mk (id w) (players w) (maxPlayers w) (chunkGenerator w) (loadedChunks w)
   (<[Player.id player := list_to_set currentChunkKeys]> (playerChunks w))
   (worldWidth w) (worldHeight w) (chunkSize w) in
getOrGenerateChunks w newChunkKeys.

Definition getChunkAtPosition (w : t) (position : Position.t)
: WorldChunk.t * t :=
getOrGenerateChunk w (getChunkKey w (Position.x position) (Position.y position)).

(** The states a world goes through: built by the constructor, then
changed by its public methods. *)
Inductive reachable : t -> Prop :=
| reach_new id maxPlayers : reachable (new id maxPlayers)
| reach_addPlayer w player :
reachable w -> reachable (addPlayer w player)
| reach_updatePlayer w player :
reachable w -> reachable (updatePlayer w player)
| reach_removePlayer w playerId :
reachable w -> reachable (removePlayer w playerId)
| reach_getChunksNearPosition w position distance :
reachable w -> reachable (snd (getChunksNearPosition w position distance))
| reach_getNewChunksForPlayer w player :
reachable w -> reachable (snd (getNewChunksForPlayer w player))
| reach_getChunkAtPosition w position :
reachable w -> reachable (snd (getChunkAtPosition w position)).

(** The states a world goes through when [addPlayer] is only called after
[isFull] returned false, which is what the join handler of index.ts
does, and the maximum is a natural number. *)
Inductive reachableGuarded : t -> Prop :=
| guarded_new id maxPlayers :
0 <= maxPlayers -> reachableGuarded (new id maxPlayers)
| guarded_addPlayer w player :
reachableGuarded w -> isFull w = false -> reachableGuarded (addPlayer w player)
| guarded_updatePlayer w player :
reachableGuarded w -> reachableGuarded (updatePlayer w player)
| guarded_removePlayer w playerId :
reachableGuarded w -> reachableGuarded (removePlayer w playerId)
| guarded_getChunksNearPosition w position distance :
reachableGuarded w ->
reachableGuarded (snd (getChunksNearPosition w position distance))
| guarded_getNewChunksForPlayer w player :
reachableGuarded w -> reachableGuarded (snd (getNewChunksForPlayer w player))
| guarded_getChunkAtPosition w position :
reachableGuarded w -> reachableGuarded (snd (getChunkAtPosition w position)).

End Trig.

End GameWorld.

(** ** The generator and the loops over chunks, on doubles

    [ChunkGenerator.ts] once more, and the loops of [getChunksForPosition]
    of [GameWorld.ts], with every number a binary64 value and every
    operation rounded as the engine rounds it.  [ChunkGenerator] and
    [GameWorld] above keep the integers of the program in [Z]; the two
    agree as long as those integers are computed exactly, and this module
    says what the program does when they are not.  Identifiers stay in
    [Z]: the counters start at 1000000 and go up by one.

    [Math.pow] is left to the engine by the language standard, like
    [Math.sin] and [Math.cos]; it is a parameter. *)

Module Binary64.

(** [a % b]: the remainder of the truncated division, exact, with the
  sign of [a]; [NaN] when [a] is not finite or [b] is zero. *)
Definition rem (a b : float) : float :=
match Prim2SF a, Prim2SF b with
| S754_nan, _ | _, S754_nan | S754_infinity _, _ | _, S754_zero _ => nan
| S754_zero _, _ | S754_finite _ _ _, S754_infinity _ => a
| S754_finite s m e, S754_finite _ m' e' =>
    let k := Z.min e e' in
    let r := Z.rem (Z.pos m * 2 ^ (e - k)) (Z.pos m' * 2 ^ (e' - k)) in
    SF2Prim (binary_normalize prec emax (if s then - r else r) k s)
end.

(** [Math.floor] *)
Definition Math_floor (f : float) : float :=
match Prim2SF f with
| S754_finite _ _ e => if 0 <=? e then f else num (Num.Math_floor f)
| _ => f
end.

Module ChunkGenerator.

Module Tree.
Record t := mk {
id : Z; x : float; y : float; size : float; color : Hsl.t; variant : float }.
End Tree.

Module Bush.
Record t := mk {
id : Z; x : float; y : float; size : float; color : Hsl.t; variant : float }.
End Bush.

Module Flower.
Record t := mk { id : Z; x : float; y : float; color : option string }.
End Flower.

Module WorldChunk.
Record t := mk {
x : float; y : float;
trees : list Tree.t; bushes : list Bush.t; flowers : list Flower.t;
isLoaded : bool }.
End WorldChunk.

Module Element.
Record t := mk { x : float; y : float; size : option float }.
Definition ofTree (a : Tree.t) : t := mk (Tree.x a) (Tree.y a) (Some (Tree.size a)).
Definition ofBush (b : Bush.t) : t := mk (Bush.x b) (Bush.y b) (Some (Bush.size b)).
End Element.

Record t := mk {
worldWidth : float; worldHeight : float; chunkSize : float;
nextTreeId : Z; nextBushId : Z; nextFlowerId : Z }.

Definition new (worldWidth worldHeight chunkSize : float) : t :=
mk worldWidth worldHeight chunkSize 1000000 2000000 3000000.

Definition Random := float.

Definition createSeededRandom (seed : float) : Random := seed.

Definition random (state : Random) : float * Random :=
let state' := rem (state * 9301 + 49297) 233280 in
((state' / 233280)%float, state').

(** [element.size || 10]: zero and [NaN] are falsy. *)
Definition sizeOr10 (element : Element.t) : float :=
match Element.size element with
| Some s => if (s =? 0)%float || negb (s =? s)%float then 10%float else s
| None => 10%float
end.

(** The number of rounds of [for (let i = 0; i < count; i++)]: none when
  [count] is [NaN].  (An infinite [count], which takes an infinite sine,
  is not modelled.) *)
Definition rounds (count : float) : nat :=
Z.to_nat (- Num.Math_floor (- count)).

(** [array[i]]: [undefined] unless [i] is an index of the array. *)
Definition index {A} (l : list A) (i : float) : option A :=
if (num (Num.Math_floor i) =? i)%float && (0 <=? i)%float
then l !! Z.to_nat (Num.Math_floor i)
else None.

Definition flowerColors : list string :=
["#FF5733"; "#DAF7A6"; "#FFC300"; "#C70039"; "#900C3F";
"#581845"; "#FFFFFF"; "#FFC0CB"; "#3D85C6"]%string.

Section Engine.

Variables Math_sin Math_cos : float -> float.
Variable Math_pow : float -> float -> float.

Definition collides (x y size : float) (element : Element.t) : bool :=
let buffer := 10%float in
let elementSize := sizeOr10 element in
let distance :=
  PrimFloat.sqrt
    (Math_pow (x + size / 2 - (Element.x element + elementSize / 2)) 2
     + Math_pow (y + size / 2 - (Element.y element + elementSize / 2)) 2) in
(distance <? size / 2 + elementSize / 2 + buffer)%float.

Definition checkCollisionWithExistingElements
(x y size : float) (existingElements : list Element.t) : bool :=
existsb (collides x y size) existingElements.

Fixpoint placement (left : nat) (g : t) (chunkX chunkY size : float)
(existing : list Element.t) (x y : float) (st : Random)
: bool * float * float * Random :=
match left with
| O => (false, x, y, st)
| S left' =>
  let '(r1, st1) := random st in
  let x := (chunkX * chunkSize g + Math_floor (r1 * (chunkSize g - size)))%float in
  let '(r2, st2) := random st1 in
  let y := (chunkY * chunkSize g + Math_floor (r2 * (chunkSize g - size)))%float in
  if negb (checkCollisionWithExistingElements x y size existing)
  then (true, x, y, st2)
  else placement left' g chunkX chunkY size existing x y st2
end.

Fixpoint treesLoop (n : nat) (g : t) (chunkX chunkY : float)
(st : Random) (trees : list Tree.t) : list Tree.t * t :=
match n with
| O => (trees, g)
| S n' =>
  let '(r, st) := random st in
  let size := (80 + Math_floor (r * 40))%float in
  let '(r, st) := random st in
  let variant := Math_floor (r * 3) in
  let '(validPosition, x, y, st) :=
    placement 50 g chunkX chunkY size (map Element.ofTree trees) 0 0 st in
  if validPosition then
    let id := nextTreeId g in
    let g := mk (worldWidth g) (worldHeight g) (chunkSize g)
                (id + 1) (nextBushId g) (nextFlowerId g) in
    let '(r1, st) := random st in
    let '(r2, st) := random st in
    let '(r3, st) := random st in
    let color := Hsl.mk (110 + r1 * 30) (70 + r2 * 10) (35 + r3 * 15) in
    treesLoop n' g chunkX chunkY st
      (trees ++ [Tree.mk id x y size color variant])
  else treesLoop n' g chunkX chunkY st trees
end.

Definition generateTrees (g : t) (chunkX chunkY seed : float) : list Tree.t * t :=
let st := createSeededRandom seed in
let count := (5 + Math_floor ((Math_sin seed + 1) * 5))%float in
treesLoop (rounds count) g chunkX chunkY st [].

Fixpoint bushesLoop (n : nat) (g : t) (chunkX chunkY : float)
(existingElements : list Element.t)
(st : Random) (bushes : list Bush.t) : list Bush.t * t :=
match n with
| O => (bushes, g)
| S n' =>
  let '(r, st) := random st in
  let size := (40 + Math_floor (r * 20))%float in
  let '(r, st) := random st in
  let variant := Math_floor (r * 3) in
  let '(validPosition, x, y, st) :=
    placement 50 g chunkX chunkY size
      (existingElements ++ map Element.ofBush bushes) 0 0 st in
  if validPosition then
    let id := nextBushId g in
    let g := mk (worldWidth g) (worldHeight g) (chunkSize g)
                (nextTreeId g) (id + 1) (nextFlowerId g) in
    let '(r1, st) := random st in
    let '(r2, st) := random st in
    let '(r3, st) := random st in
    let color := Hsl.mk (100 + r1 * 50) (65 + r2 * 15) (30 + r3 * 15) in
    bushesLoop n' g chunkX chunkY existingElements st
      (bushes ++ [Bush.mk id x y size color variant])
  else bushesLoop n' g chunkX chunkY existingElements st bushes
end.

Definition generateBushes (g : t) (chunkX chunkY seed : float)
(existingElements : list Element.t) : list Bush.t * t :=
let st := createSeededRandom (seed + 1) in
let count := (8 + Math_floor ((Math_cos seed + 1) * 7))%float in
bushesLoop (rounds count) g chunkX chunkY existingElements st [].

Definition tooClose (x y : float) (element : Element.t) : bool :=
let elementSize := sizeOr10 element in
let distance :=
  PrimFloat.sqrt
    (Math_pow (x - (Element.x element + elementSize / 2)) 2
     + Math_pow (y - (Element.y element + elementSize / 2)) 2) in
(distance <? elementSize / 2)%float.

Fixpoint flowersLoop (n : nat) (g : t) (chunkX chunkY : float)
(existingElements : list Element.t)
(st : Random) (flowers : list Flower.t) : list Flower.t * t :=
match n with
| O => (flowers, g)
| S n' =>
  let '(r, st) := random st in
  let x := (chunkX * chunkSize g + Math_floor (r * chunkSize g))%float in
  let '(r, st) := random st in
  let y := (chunkY * chunkSize g + Math_floor (r * chunkSize g))%float in
  let '(r, st) := random st in
  let color :=
    index flowerColors (Math_floor (r * num (Z.of_nat (length flowerColors)))) in
  let validPosition := negb (existsb (tooClose x y) existingElements) in
  if validPosition then
    let id := nextFlowerId g in
    let g := mk (worldWidth g) (worldHeight g) (chunkSize g)
                (nextTreeId g) (nextBushId g) (id + 1) in
    flowersLoop n' g chunkX chunkY existingElements st
      (flowers ++ [Flower.mk id x y color])
  else flowersLoop n' g chunkX chunkY existingElements st flowers
end.

Definition generateFlowers (g : t) (chunkX chunkY seed : float)
(existingElements : list Element.t) : list Flower.t * t :=
let st := createSeededRandom (seed + 2) in
let count := (15 + Math_floor ((Math_sin (seed * 0.1) + 1) * 10))%float in
flowersLoop (rounds count) g chunkX chunkY existingElements st [].

Definition generateChunk (g : t) (chunkX chunkY : float) : WorldChunk.t * t :=
let chunkSeed := (chunkX * 10000 + chunkY)%float in
let '(trees, g) := generateTrees g chunkX chunkY chunkSeed in
let '(bushes, g) :=
generateBushes g chunkX chunkY chunkSeed (map Element.ofTree trees) in
let '(flowers, g) :=
generateFlowers g chunkX chunkY chunkSeed
  (map Element.ofTree trees ++ map Element.ofBush bushes) in
(WorldChunk.mk chunkX chunkY trees bushes flowers true, g).

End Engine.

End ChunkGenerator.

(** The two loops of [getChunksForPosition] of GameWorld.ts with their
  counters in binary64: [x++] and [y++] add 1 and round.  A counter of
  2^53 or more, or an infinite one, is not changed by that, and a loop
  whose test it passes never ends.  [fuel] bounds the rounds of each
  loop; [None] says that a loop was not over when it ran out.  (A key is
  only pushed for coordinates that pass the test against the world:
  integers, which the template writes in decimal as long as they are
  below 10^21.) *)
Fixpoint columnLoop (fuel : nat) (w : GameWorld.t) (x y hi : float)
(chunkKeys : list string) : option (list string) :=
match fuel with
| O => None
| S fuel' =>
  if (y <=? hi)%float then
    if (x <? 0)%float || (y <? 0)%float
       || (num (GameWorld.worldWidth w) <=? x * num (GameWorld.chunkSize w))%float
       || (num (GameWorld.worldHeight w) <=? y * num (GameWorld.chunkSize w))%float
    then columnLoop fuel' w x (y + 1) hi chunkKeys
    else columnLoop fuel' w x (y + 1) hi
           (chunkKeys ++ [GameWorld.key (Num.Math_floor x) (Num.Math_floor y)])
  else Some chunkKeys
end.

Fixpoint rowLoop (fuel : nat) (w : GameWorld.t) (x hi lo' hi' : float)
(chunkKeys : list string) : option (list string) :=
match fuel with
| O => None
| S fuel' =>
  if (x <=? hi)%float then
    match columnLoop fuel' w x lo' hi' chunkKeys with
    | Some chunkKeys => rowLoop fuel' w (x + 1) hi lo' hi' chunkKeys
    | None => None
    end
  else Some chunkKeys
end.

Definition getChunksForPosition (fuel : nat) (w : GameWorld.t)
(position : Position.t) (distance : float) : option (list string) :=
let centerChunkX := Math_floor (Position.x position / num (GameWorld.chunkSize w)) in
let centerChunkY := Math_floor (Position.y position / num (GameWorld.chunkSize w)) in
rowLoop fuel w (centerChunkX - distance) (centerChunkX + distance)
  (centerChunkY - distance) (centerChunkY + distance) [].

(** [getNewChunksForPlayer] of GameWorld.ts on the keys that these loops
  give; the rest is as in [GameWorld.getNewChunksForPlayer]. *)
Definition getNewChunksForPlayer (Math_sin Math_cos : float -> float)
(fuel : nat) (w : GameWorld.t) (player : Player.t)
: option (list WorldChunk.t * GameWorld.t) :=
match getChunksForPosition fuel w (Player.position player) 2 with
| None => None
| Some currentChunkKeys =>
let prevChunkKeys : gset string :=
  default ∅ (GameWorld.playerChunks w !! Player.id player) in
let newChunkKeys :=
  List.filter (fun key => negb (bool_decide (key ∈ prevChunkKeys)))
    currentChunkKeys in
let w :=
  GameWorld.mk (GameWorld.id w) (GameWorld.players w) (GameWorld.maxPlayers w)
    (GameWorld.chunkGenerator w) (GameWorld.loadedChunks w)
    (<[Player.id player := list_to_set currentChunkKeys]> (GameWorld.playerChunks w))
    (GameWorld.worldWidth w) (GameWorld.worldHeight w) (GameWorld.chunkSize w) in
Some (GameWorld.getOrGenerateChunks Math_sin Math_cos w newChunkKeys)
end.

End Binary64.

(** ** utils/validation.ts

    [validatePlayerMovement] takes a payload of any shape.  A payload is
    a value of the kind JSON carries, or [undefined]; the own properties of
    an object are a finite map. *)

Module JS.

#[warnings="-register-all"]
Inductive value :=
| undefined
| null
| boolean (b : bool)
| number (n : float)
| str (s : string)
| object (properties : gmap string value)
| array (items : list value).

(** [typeof v] *)
Definition typeof (v : value) : string :=
match v with
| undefined => "undefined"
| null => "object"
| boolean _ => "boolean"
| number _ => "number"
| str _ => "string"
| object _ => "object"
| array _ => "object"
end.

(** [!v] is [negb (truthy v)]: the falsy values are [undefined], [null],
  [false], the two zeros, [NaN] and the empty string. *)
Definition truthy (v : value) : bool :=
match v with
| undefined => false
| null => false
| boolean b => b
| number n => negb (n =? 0)%float && (n =? n)%float
| str s => negb (String.eqb s EmptyString)
| object _ => true
| array _ => true
end.

(** The property names that the validation reads.  None of them is an
  index, [length] or the name of an inherited property, so only an
  object can have one. *)
Inductive property := position | x | y | direction | isMoving.

Definition name (p : property) : string :=
match p with
| position => "position"
| x => "x"
| y => "y"
| direction => "direction"
| isMoving => "isMoving"
end.

(** [v.p]; [None] is the TypeError raised on [undefined] and [null]. *)
Definition get (v : value) (p : property) : option value :=
match v with
| undefined => None
| null => None
| object properties => Some (default undefined (properties !! name p))
| _ => Some undefined
end.

(** [strings.includes(v)] for an array of strings. *)
Definition includes (strings : list string) (v : value) : bool :=
match v with
| str s => existsb (String.eqb s) strings
| _ => false
end.

End JS.

Module Validation.

Record MovementData := mk {
position : Position.t; direction : Direction.t; isMoving : bool }.

(** The result is [None] when the function throws. *)
Definition validatePlayerMovement (data : JS.value) : option bool :=
if negb (JS.truthy data) || negb (String.eqb (JS.typeof data) "object")
then Some false else
position ← JS.get data JS.position;
if negb (JS.truthy position) || negb (String.eqb (JS.typeof position) "object")
then Some false else
x ← JS.get position JS.x;
if negb (String.eqb (JS.typeof x) "number") then Some false else
y ← JS.get position JS.y;
if negb (String.eqb (JS.typeof y) "number") then Some false else
direction ← JS.get data JS.direction;
if negb (JS.includes ["up"; "down"; "left"; "right"]%string direction)
then Some false else
isMoving ← JS.get data JS.isMoving;
if negb (String.eqb (JS.typeof isMoving) "boolean") then Some false else
Some true.

End Validation.

(** ** index.ts: the world registry and the handlers of a connection

    What the handlers do to the registry of worlds and to the two
    variables of their connection, [currentPlayer] and [currentWorldId];
    what they log and emit is left out.  The world of a connection is an
    object that the registry holds too: a handler that changes it changes
    the entry of the registry.  [uuidv4 ()], [getSpawnPosition ()] and
    [Date.now ()] are inputs of the handler that calls them, and the timer
    that a disconnection may start is not part of that handler.  World
    identifiers and user names are strings, and [MAX_PLAYERS_PER_WORLD] is
    the integer that [parseInt] reads from the environment ([NaN], read
    from a text that is no number, is left out).

    [Math.pow] is a parameter: the language standard leaves its precision
    to the engine, and fixes that it returns [NaN] for a [NaN] base and a
    non-zero exponent, which is all that is used of it. *)

Module Index.

Record Connection := mkConnection {
currentPlayer : option Player.t; currentWorldId : option string }.

Section Engine.

Variables Math_sin Math_cos : float -> float.
Variable Math_pow : float -> float -> float.
Variable MAX_PLAYERS_PER_WORLD : Z.

Definition getOrCreateWorld (gameWorlds : gmap string GameWorld.t) (worldId : string)
: GameWorld.t * gmap string GameWorld.t :=
match gameWorlds !! worldId with
| None =>
  let newWorld := GameWorld.new worldId MAX_PLAYERS_PER_WORLD in
  (newWorld, <[worldId := newWorld]> gameWorlds)
| Some gameWorld => (gameWorld, gameWorlds)
end.

(** [username || `Player-${playerId.substring(0, 5)}`] *)
Definition usernameOr (username playerId : string) : string :=
if String.eqb username EmptyString
then "Player-" +:+ String.substring 0 5 playerId
else username.

(** The handler of [player:join]. *)
Definition playerJoin (gameWorlds : gmap string GameWorld.t) (c : Connection)
(username worldId playerId : string) (spawn : Position.t) (now : Z)
: gmap string GameWorld.t * Connection :=
let '(gameWorld, gameWorlds) := getOrCreateWorld gameWorlds worldId in
let c := mkConnection (currentPlayer c) (Some worldId) in
if GameWorld.isFull gameWorld then (gameWorlds, c) else
let player :=
  Player.mk playerId (usernameOr username playerId) spawn Direction.down false now in
let c := mkConnection (Some player) (currentWorldId c) in
let gameWorld := GameWorld.addPlayer Math_sin Math_cos gameWorld player in
let '(chunks, gameWorld) :=
  GameWorld.getChunksNearPosition Math_sin Math_cos gameWorld (Player.position player) 2 in
(<[worldId := gameWorld]> gameWorlds, c).

(** [!currentPlayer || !currentWorldId] is false: the player and the
  world of the connection. *)
Definition joined (c : Connection) : option (Player.t * string) :=
match currentPlayer c, currentWorldId c with
| Some player, Some worldId =>
  if String.eqb worldId EmptyString then None else Some (player, worldId)
| _, _ => None
end.

Definition MAX_MOVEMENT_PER_UPDATE : float := 20.

(** The operand of a subtraction.  Validation has let numbers through
  only; [None] stands for the other conversions, which are not modelled
  and not reached. *)
Definition operand (v : JS.value) : option float :=
match v with
| JS.number n => Some n
| _ => None
end.

Definition movementDistance (x y : float) (lastPosition : Position.t) : float :=
PrimFloat.sqrt (Math_pow (x - Position.x lastPosition) 2
                + Math_pow (y - Position.y lastPosition) 2).

(** Whether the handler of [player:move] goes on to apply the movement
  [data] to [currentPlayer]: [Some false] when it returns early, [None]
  when it throws. *)
Definition movementAccepted (currentPlayer : Player.t) (data : JS.value)
: option bool :=
valid ← Validation.validatePlayerMovement data;
if negb valid then Some false else
position ← JS.get data JS.position;
let lastPosition := Player.position currentPlayer in
x ← JS.get position JS.x ≫= operand;
y ← JS.get position JS.y ≫= operand;
if (MAX_MOVEMENT_PER_UPDATE <? movementDistance x y lastPosition)%float
then Some false
else Some true.

(** The handler of [disconnect], up to the start of the timer. *)
Definition disconnect (gameWorlds : gmap string GameWorld.t) (c : Connection)
: gmap string GameWorld.t :=
match joined c with
| None => gameWorlds
| Some (player, worldId) =>
  match gameWorlds !! worldId with
  | None => gameWorlds
  | Some gameWorld =>
    <[worldId := GameWorld.removePlayer gameWorld (Player.id player)]> gameWorlds
  end
end.

(** The registries that the handlers of any number of connections lead
  to, from the empty one.  A movement that the handler of [player:move]
  accepts changes the player of the connection, which is the record that
  a world holds under its id, and is then passed to [updatePlayer] and
  [getNewChunksForPlayer] of the world of the connection: here any record
  may be updated in any world, and any player passed to the two methods
  of any world.  The timer of a disconnection deletes a world; when it
  does so is not modelled, so any world may go at any time. *)
Inductive served : gmap string GameWorld.t -> Prop :=
| served_start : served ∅
| served_playerJoin gameWorlds c username worldId playerId spawn now :
served gameWorlds ->
served (fst (playerJoin gameWorlds c username worldId playerId spawn now))
| served_player gameWorlds worldId gameWorld player :
served gameWorlds -> gameWorlds !! worldId = Some gameWorld ->
served (<[worldId := GameWorld.updatePlayer gameWorld player]> gameWorlds)
| served_playerMove gameWorlds worldId gameWorld player :
served gameWorlds -> gameWorlds !! worldId = Some gameWorld ->
served (<[worldId :=
          snd (GameWorld.getNewChunksForPlayer Math_sin Math_cos
                 (GameWorld.updatePlayer gameWorld player) player)]> gameWorlds)
| served_disconnect gameWorlds c :
served gameWorlds -> served (disconnect gameWorlds c)
| served_timer gameWorlds worldId :
served gameWorlds -> served (delete worldId gameWorlds).

End Engine.

End Index.

(** ** Vocabulary of the properties *)

Module Props.

(** [p] holds on the [2 ^ depth] integers from [from] on. *)
Fixpoint forallZ (depth : nat) (from : Z) (p : Z -> bool) : bool :=
  match depth with
  | O => p from
  | S d => forallZ d from p && forallZ d (from + 2 ^ Z.of_nat d) p
  end.

(** The state of the seeded generator after [n] calls. *)
Fixpoint stateAfter (n : nat) (st : ChunkGenerator.Random) : ChunkGenerator.Random :=
  match n with
  | O => st
  | S n' => stateAfter n' (snd (ChunkGenerator.random st))
  end.

(** The value returned by call number [n] (from 0) of
    [createSeededRandom seed]. *)
Definition output (seed : Z) (n : nat) : float :=
  fst (ChunkGenerator.random (stateAfter n (ChunkGenerator.createSeededRandom seed))).

(** [0 <= v < 1] on doubles. *)
Definition inUnitInterval (v : float) : Prop :=
  (0 <=? v)%float = true /\ (v <? 1)%float = true.

(** A disc: the corner [(x, y)] and the size of a tree or bush. *)
Definition Disc : Type := Z * Z * Z.

Definition treeDisc (a : Tree.t) : Disc := (Tree.x a, Tree.y a, Tree.size a).
Definition bushDisc (b : Bush.t) : Disc := (Bush.x b, Bush.y b, Bush.size b).

(** The centre: the position offset by size/2 on each axis. *)
Definition centre (d : Disc) : R * R :=
  let '(x, y, size) := d in ((IZR x + IZR size / 2)%R, (IZR y + IZR size / 2)%R).

Definition point (x y : Z) : R * R := (IZR x, IZR y).

(** Euclidean distance. *)
Definition distance (p q : R * R) : R :=
  R_sqrt.sqrt ((fst p - fst q) * (fst p - fst q) + (snd p - snd q) * (snd p - snd q)).

Definition discSize (d : Disc) : Z := snd d.

(** Centre distance at least [(size1 + size2)/2 + 10]. *)
Definition apart (d1 d2 : Disc) : Prop :=
  ((IZR (discSize d1) + IZR (discSize d2)) / 2 + 10 <= distance (centre d1) (centre d2))%R.

(** A point at least [size/2] away from the centre of a disc. *)
Definition outside (x y : Z) (d : Disc) : Prop :=
  (IZR (discSize d) / 2 <= distance (point x y) (centre d))%R.

(** A translation of the chunk and a renumbering of the identifiers. *)
Definition shiftElement (dx dy : Z) (e : Element.t) : Element.t :=
  Element.mk (Element.x e + dx) (Element.y e + dy) (Element.size e).

Definition moveTree (did dx dy : Z) (a : Tree.t) : Tree.t :=
  Tree.mk (Tree.id a + did) (Tree.x a + dx) (Tree.y a + dy)
          (Tree.size a) (Tree.color a) (Tree.variant a).

Definition moveBush (did dx dy : Z) (b : Bush.t) : Bush.t :=
  Bush.mk (Bush.id b + did) (Bush.x b + dx) (Bush.y b + dy)
          (Bush.size b) (Bush.color b) (Bush.variant b).

Definition moveFlower (did dx dy : Z) (f : Flower.t) : Flower.t :=
  Flower.mk (Flower.id f + did) (Flower.x f + dx) (Flower.y f + dy) (Flower.color f).

(** What a chunk holds, identifiers left out; positions are taken
    relative to [(ox, oy)]. *)
Definition treeData (ox oy : Z) (a : Tree.t) :=
  (Tree.x a - ox, Tree.y a - oy, Tree.size a, Tree.color a, Tree.variant a).

Definition bushData (ox oy : Z) (b : Bush.t) :=
  (Bush.x b - ox, Bush.y b - oy, Bush.size b, Bush.color b, Bush.variant b).

Definition flowerData (ox oy : Z) (f : Flower.t) :=
  (Flower.x f - ox, Flower.y f - oy, Flower.color f).

Definition contentFrom (ox oy : Z) (c : WorldChunk.t) :=
  (map (treeData ox oy) (WorldChunk.trees c),
   map (bushData ox oy) (WorldChunk.bushes c),
   map (flowerData ox oy) (WorldChunk.flowers c)).

(** Positions as they are (world coordinates). *)
Definition content (c : WorldChunk.t) := contentFrom 0 0 c.


(** The candidates [(x, y, color)] drawn by the [n] rounds of the loop of
    [generateFlowers], three calls of the generator each. *)
Fixpoint flowerCandidates (n : nat) (chunkSize chunkX chunkY : Z)
    (st : ChunkGenerator.Random) : list (Z * Z * option string) :=
  match n with
  | O => []
  | S n' =>
      let '(r, st) := ChunkGenerator.random st in
      let x := chunkX * chunkSize + Math_floor (r * num chunkSize) in
      let '(r, st) := ChunkGenerator.random st in
      let y := chunkY * chunkSize + Math_floor (r * num chunkSize) in
      let '(r, st) := ChunkGenerator.random st in
      let color :=
        ChunkGenerator.index ChunkGenerator.flowerColors
          (Math_floor (r * num (Z.of_nat (length ChunkGenerator.flowerColors)))) in
      (x, y, color) :: flowerCandidates n' chunkSize chunkX chunkY st
  end.

(** The check of [generateFlowers] on a candidate. *)
Definition clearOf (existing : list Element.t) (candidate : Z * Z * option string) : bool :=
  let '(x, y, _) := candidate in
  negb (existsb (ChunkGenerator.tooClose x y) existing).

Section Parts.

Variables Math_sin Math_cos : float -> float.

(** The three lists of a generated chunk, each from its own loop. *)
Definition treesOf (g : ChunkGenerator.t) (cx cy : Z) : list Tree.t :=
  fst (ChunkGenerator.generateTrees Math_sin g cx cy (cx * 10000 + cy)).

Definition afterTrees (g : ChunkGenerator.t) (cx cy : Z) : ChunkGenerator.t :=
  snd (ChunkGenerator.generateTrees Math_sin g cx cy (cx * 10000 + cy)).

Definition bushesOf (g : ChunkGenerator.t) (cx cy : Z) : list Bush.t :=
  fst (ChunkGenerator.generateBushes Math_cos (afterTrees g cx cy) cx cy
         (cx * 10000 + cy) (map Element.ofTree (treesOf g cx cy))).

Definition afterBushes (g : ChunkGenerator.t) (cx cy : Z) : ChunkGenerator.t :=
  snd (ChunkGenerator.generateBushes Math_cos (afterTrees g cx cy) cx cy
         (cx * 10000 + cy) (map Element.ofTree (treesOf g cx cy))).

Definition obstaclesOf (g : ChunkGenerator.t) (cx cy : Z) : list Element.t :=
  map Element.ofTree (treesOf g cx cy) ++ map Element.ofBush (bushesOf g cx cy).

Definition flowersOf (g : ChunkGenerator.t) (cx cy : Z) : list Flower.t :=
  fst (ChunkGenerator.generateFlowers Math_sin (afterBushes g cx cy) cx cy
         (cx * 10000 + cy) (obstaclesOf g cx cy)).

End Parts.

(** In the list built by [generateTrees] every size is positive and
    every tree is apart from the trees pushed before it; likewise for the
    bushes, which are also apart from every tree. *)
Definition treesSeparated (trees : list Tree.t) : Prop :=
  Forall (fun a => 0 < Tree.size a) trees /\
  forall i j a1 a2, (i < j)%nat -> trees !! i = Some a1 -> trees !! j = Some a2 ->
    apart (treeDisc a2) (treeDisc a1).

Definition bushesSeparated (trees : list Tree.t) (bushes : list Bush.t) : Prop :=
  Forall (fun b => 0 < Bush.size b) bushes /\
  (forall b a, In b bushes -> In a trees -> apart (bushDisc b) (treeDisc a)) /\
  forall i j b1 b2, (i < j)%nat -> bushes !! i = Some b1 -> bushes !! j = Some b2 ->
    apart (bushDisc b2) (bushDisc b1).

Definition flowerSpot (f : Flower.t) : Z * Z * option string :=
  (Flower.x f, Flower.y f, Flower.color f).

(** The key under which a chunk belongs in the cache. *)
Definition chunkKey (c : WorldChunk.t) : string :=
  GameWorld.key (WorldChunk.x c) (WorldChunk.y c).

(** Every cached chunk sits under the key of its own coordinates. *)
Definition cacheKeyed (w : GameWorld.t) : Prop :=
  forall k c, GameWorld.loadedChunks w !! k = Some c -> chunkKey c = k.

(** Loading chunks changes the cache and the generator, nothing else. *)
Definition sameButChunks (w w' : GameWorld.t) : Prop :=
  GameWorld.id w' = GameWorld.id w /\
  GameWorld.players w' = GameWorld.players w /\
  GameWorld.maxPlayers w' = GameWorld.maxPlayers w /\
  GameWorld.playerChunks w' = GameWorld.playerChunks w /\
  GameWorld.worldWidth w' = GameWorld.worldWidth w /\
  GameWorld.worldHeight w' = GameWorld.worldHeight w /\
  GameWorld.chunkSize w' = GameWorld.chunkSize w.

(** A key made by the template. *)
Definition builtKey (k : string) : Prop := exists x y, k = GameWorld.key x y.

(** No comma in a string. *)
Fixpoint commaFree (s : string) : bool :=
  match s with
  | EmptyString => true
  | String c s' => negb (Ascii.eqb c ","%char) && commaFree s'
  end.

(** Stand-ins for the engine's sine and cosine in the examples: their
    values at the arguments that the seeds 3 (chunk (0, 3)), 30004
    (chunk (3, 4)) and 10000 (chunks (0, 10000) and (1, 0)) lead to. *)
Definition tabulated (table : list (float * float)) (v : float) : float :=
  match List.find (fun entry => (fst entry =? v)%float) table with
  | Some entry => snd entry
  | None => 0%float
  end.

Definition sineTable : float -> float :=
  tabulated [(3, 0.1411200080598672); (0.30000000000000004, 0.2955202066613396);
             (30004, 0.9760365049929488); (3000.4, -0.1780612093112566);
             (10000, -0.30561438888825215); (1000, 0.8268795405320025)]%float.

Definition cosineTable : float -> float :=
  tabulated [(3, -0.9899924966004454); (30004, -0.21760684943528208);
             (10000, -0.9521553682590148)]%float.

(** Two players for the examples. *)
Definition alice : Player.t :=
  Player.mk "a" "alice" (Position.mk 2500 2500) Direction.down false 0.

Definition bob : Player.t :=
  Player.mk "b" "bob" (Position.mk 2600 2400) Direction.left true 0.

(** *** Vocabulary of the further properties *)

(** The numbers that an output of the seeded generator is multiplied by
    before [Math.floor]: 3 variants, 9 colours, the size ranges 20 and 40,
    the chunk size 500, and 500 minus the size of a tree or of a bush. *)
Definition factors : list Z := [3; 9; 20; 40; 500] ++ seqZ 381 40 ++ seqZ 441 20.

(** The double [num n] is the integer [n], held with a full mantissa. *)
Definition exactFactor (n : Z) : bool :=
  match Prim2SF (num n) with
  | S754_finite false m e =>
      (e <=? 0) && (Z.pos m =? n * 2 ^ (- e)) && (2 ^ 52 <=? Z.pos m)
  | _ => false
  end.

(** [lo <= v < hi] on doubles. *)
Definition inRange (lo hi v : float) : bool := ((lo <=? v) && (v <? hi))%float.

(** The products of the output at state [s] with each factor, and the
    colour components made from it, stay in their ranges. *)
Definition productsInRange (cs : list float) (s : Z) : bool :=
  (233280 <=? s)
  || let r := (num s / 233280)%float in
     forallb (fun c => inRange 0 c (r * c)) cs
     && inRange 110 140 (110 + r * 30) && inRange 70 80 (70 + r * 10)
     && inRange 35 50 (35 + r * 15)
     && inRange 100 150 (100 + r * 50) && inRange 65 80 (65 + r * 15)
     && inRange 30 45 (30 + r * 15).

(** The ranges of the three components of a colour. *)
Definition hslIn (h0 h1 s0 s1 l0 l1 : float) (c : Hsl.t) : Prop :=
  inRange h0 h1 (Hsl.h c) = true /\ inRange s0 s1 (Hsl.s c) = true /\
  inRange l0 l1 (Hsl.l c) = true.

Definition treeShaped (a : Tree.t) : Prop :=
  80 <= Tree.size a < 120 /\ 0 <= Tree.variant a < 3 /\
  hslIn 110 140 70 80 35 50 (Tree.color a).

Definition bushShaped (b : Bush.t) : Prop :=
  40 <= Bush.size b < 60 /\ 0 <= Bush.variant b < 3 /\
  hslIn 100 150 65 80 30 45 (Bush.color b).

Definition flowerColoured (f : Flower.t) : Prop :=
  exists c, Flower.color f = Some c /\ In c ChunkGenerator.flowerColors.

(** The square of side [size] with corner [(x, y)] lies in the chunk
    [(cx, cy)] of side [cs]. *)
Definition boxInside (cs cx cy x y size : Z) : Prop :=
  cx * cs <= x /\ x + size <= (cx + 1) * cs /\
  cy * cs <= y /\ y + size <= (cy + 1) * cs.

Definition treeInside (cs cx cy : Z) (a : Tree.t) : Prop :=
  boxInside cs cx cy (Tree.x a) (Tree.y a) (Tree.size a).

Definition bushInside (cs cx cy : Z) (b : Bush.t) : Prop :=
  boxInside cs cx cy (Bush.x b) (Bush.y b) (Bush.size b).

(** A flower is a point. *)
Definition flowerInside (cs cx cy : Z) (f : Flower.t) : Prop :=
  cx * cs <= Flower.x f < (cx + 1) * cs /\ cy * cs <= Flower.y f < (cy + 1) * cs.

Section Steps.

Variables Math_sin Math_cos : float -> float.

(** One call of a public method of [GameWorld]. *)
Inductive step (w : GameWorld.t) : GameWorld.t -> Prop :=
  | step_addPlayer player :
      step w (GameWorld.addPlayer Math_sin Math_cos w player)
  | step_updatePlayer player :
      step w (GameWorld.updatePlayer w player)
  | step_removePlayer playerId :
      step w (GameWorld.removePlayer w playerId)
  | step_getChunksNearPosition position distance :
      step w (snd (GameWorld.getChunksNearPosition Math_sin Math_cos w position distance))
  | step_getNewChunksForPlayer player :
      step w (snd (GameWorld.getNewChunksForPlayer Math_sin Math_cos w player))
  | step_getChunkAtPosition position :
      step w (snd (GameWorld.getChunkAtPosition Math_sin Math_cos w position)).

End Steps.

(** The identifiers [ids c] of the cached chunks [c] lie in [lo, next) and
    none occurs twice, in one chunk or in two. *)
Definition idsFresh (ids : WorldChunk.t -> list Z) (lo next : Z)
    (cache : gmap string WorldChunk.t) : Prop :=
  lo <= next /\
  (forall k c i, cache !! k = Some c -> In i (ids c) -> lo <= i < next) /\
  (forall k c, cache !! k = Some c -> NoDup (ids c)) /\
  (forall k1 k2 c1 c2 i, cache !! k1 = Some c1 -> cache !! k2 = Some c2 ->
     In i (ids c1) -> In i (ids c2) -> k1 = k2).

Definition treeIds (c : WorldChunk.t) : list Z := map Tree.id (WorldChunk.trees c).
Definition bushIds (c : WorldChunk.t) : list Z := map Bush.id (WorldChunk.bushes c).
Definition flowerIds (c : WorldChunk.t) : list Z := map Flower.id (WorldChunk.flowers c).

(** No identifier [id a] is borne by two of the entities [items c] of the
    cached chunks. *)
Definition idsUnique {A} (items : WorldChunk.t -> list A) (id : A -> Z)
    (cache : gmap string WorldChunk.t) : Prop :=
  forall k1 k2 c1 c2 i1 i2 a1 a2,
    cache !! k1 = Some c1 -> cache !! k2 = Some c2 ->
    items c1 !! i1 = Some a1 -> items c2 !! i2 = Some a2 ->
    id a1 = id a2 -> k1 = k2 /\ i1 = i2.

(** The identifiers of the entities [items c] of the cached chunks lie in
    [lo, next). *)
Definition idsWithin {A} (items : WorldChunk.t -> list A) (id : A -> Z)
    (lo next : Z) (cache : gmap string WorldChunk.t) : Prop :=
  forall k c a, cache !! k = Some c -> In a (items c) -> lo <= id a < next.

(** A key of one of the 10 x 10 chunks of the world. *)
Definition worldKey (k : string) : Prop :=
  exists x y, k = GameWorld.key x y /\ 0 <= x < 10 /\ 0 <= y < 10.

(** Every key of every visibility set is a key of the world and is
    cached. *)
Definition visible (playerChunks : gmap string (gset string))
    (cache : gmap string WorldChunk.t) : Prop :=
  forall id (seen : gset string) k,
    playerChunks !! id = Some seen -> k ∈ seen -> worldKey k /\ is_Some (cache !! k).

(** Every player is registered under its own id and has a visibility
    set. *)
Definition registered (players : gmap string Player.t)
    (playerChunks : gmap string (gset string)) : Prop :=
  forall id p, players !! id = Some p -> Player.id p = id /\ is_Some (playerChunks !! id).

(** The dimensions set by the constructor. *)
Definition dimensioned (w : GameWorld.t) : Prop :=
  GameWorld.worldWidth w = 5000 /\ GameWorld.worldHeight w = 5000 /\
  GameWorld.chunkSize w = 500 /\
  ChunkGenerator.chunkSize (GameWorld.chunkGenerator w) = 500.

(** The string that stands for a direction. *)
Definition directionName (d : Direction.t) : string :=
  match d with
  | Direction.up => "up"
  | Direction.down => "down"
  | Direction.left => "left"
  | Direction.right => "right"
  end.

(** The payload [data] is an object that carries the movement [m]: its
    [position] is an object with the numbers [x] and [y], its [direction]
    is the name of the direction and its [isMoving] is the boolean. *)
Definition carries (data : JS.value) (m : Validation.MovementData) : Prop :=
  exists properties coordinates,
    data = JS.object properties /\
    properties !! "position"%string = Some (JS.object coordinates) /\
    coordinates !! "x"%string
      = Some (JS.number (Position.x (Validation.position m))) /\
    coordinates !! "y"%string
      = Some (JS.number (Position.y (Validation.position m))) /\
    properties !! "direction"%string
      = Some (JS.str (directionName (Validation.direction m))) /\
    properties !! "isMoving"%string = Some (JS.boolean (Validation.isMoving m)).

(** The object [{ position: { x, y }, direction, isMoving }]. *)
Definition encode (m : Validation.MovementData) : JS.value :=
  JS.object
    (<["position"%string :=
         JS.object
           (<["x"%string := JS.number (Position.x (Validation.position m))]>
              {["y"%string := JS.number (Position.y (Validation.position m))]})]>
       (<["direction"%string := JS.str (directionName (Validation.direction m))]>
          {["isMoving"%string := JS.boolean (Validation.isMoving m)]})).

(** The square of side [size] with corner [(x, y)] lies in the world,
    [0, 5000] x [0, 5000]. *)
Definition inWorld (x y size : Z) : Prop :=
  0 <= x /\ x + size <= 5000 /\ 0 <= y /\ y + size <= 5000.

Section Registry.

Variables Math_sin Math_cos : float -> float.
Variable MAX_PLAYERS_PER_WORLD : Z.

(** Every world of the registry is held under its own id, has the maximum
    of the server, and has only been joined when it was not full. *)
Definition registryKept (gameWorlds : gmap string GameWorld.t) : Prop :=
  forall worldId w, gameWorlds !! worldId = Some w ->
    GameWorld.reachableGuarded Math_sin Math_cos w /\
    GameWorld.id w = worldId /\
    GameWorld.maxPlayers w = MAX_PLAYERS_PER_WORLD.

End Registry.

(** *** Where the integers of the program are exact

    [ChunkGenerator] and [GameWorld] keep integers in [Z]; a double holds
    an integer exactly up to 2^53.  The properties of what is generated
    and of what is near a position are stated in the range where every
    integer that the program computes on the way is exact; [Binary64]
    says what happens outside. *)

(** The seed [cx * 10000 + cy] of a chunk, the seeds of the three
    generators ([+ 0], [+ 1], [+ 2]) and the first step [state * 9301 +
    49297] of each are computed without rounding. *)
Definition exactSeed (cx cy : Z) : Prop :=
  (Z.abs cx * 10000 + Z.abs cy + 2) * 9301 + 49297 < 2 ^ 53.

(** Besides, the positions [chunkX * chunkSize + offset] of the entities
    of the chunk and their centres (half-integers) are exact, and so are
    the differences of two centres of the chunk and their squares. *)
Definition exactChunk (chunkSize cx cy : Z) : Prop :=
  exactSeed cx cy /\
  (Z.abs cx + 1) * Z.abs chunkSize + 240 < 2 ^ 52 /\
  (Z.abs cy + 1) * Z.abs chunkSize + 240 < 2 ^ 52 /\
  Z.abs chunkSize + 240 < 2 ^ 22.

(** The quotients of the position by the chunk size are finite numbers,
    and the bounds of the two loops of [getChunksForPosition] are below
    2^53 in magnitude, so that [x++] and [y++] are exact and the loops
    end. *)
Definition withinReach (chunkSize : Z) (position : Position.t) (distance : Z) : Prop :=
  let quotientX := (Position.x position / num chunkSize)%float in
  let quotientY := (Position.y position / num chunkSize)%float in
  PrimFloat.is_finite quotientX = true /\
  PrimFloat.is_finite quotientY = true /\
  Z.abs (Math_floor quotientX) + Z.abs distance < 2 ^ 53 /\
  Z.abs (Math_floor quotientY) + Z.abs distance < 2 ^ 53.

(** An integer small enough for the sums, differences and squares of the
    collision check to be exact. *)
Definition small (z : Z) : Prop := Z.abs z < 2 ^ 22.

Definition smallElement (e : Element.t) : Prop :=
  small (Element.x e) /\ small (Element.y e) /\ small (ChunkGenerator.sizeOr10 e).

(** The position that attempt number [k] (from 1) of the retry loop of
    [generateTrees] and [generateBushes] draws: [x] from call 2k - 1 of the
    generator and [y] from call 2k. *)
Definition attempt (g : ChunkGenerator.t) (chunkX chunkY size : Z)
    (st : ChunkGenerator.Random) (k : nat) : Z * Z :=
  let '(r1, st1) := ChunkGenerator.random (stateAfter (2 * (k - 1)) st) in
  let '(r2, _) := ChunkGenerator.random st1 in
  (chunkX * ChunkGenerator.chunkSize g
     + Math_floor (r1 * num (ChunkGenerator.chunkSize g - size)),
   chunkY * ChunkGenerator.chunkSize g
     + Math_floor (r2 * num (ChunkGenerator.chunkSize g - size))).

(** *** Examples out of that range *)

(** [Math.pow (base, 2)] where the square of [base] is a double: the
    square. *)
Definition square (base exponent : float) : float := (base * base)%float.

(** The engine's sine and cosine at the arguments that the seeds of the
    chunks (600000000000023, 0) and (400000000000003, 0) lead to. *)
Definition sineFar : float -> float :=
  tabulated [(6.00000000000023e18, -0.5241532353428887);
             (6.00000000000023e17, 0.6315033693143733);
             (4.00000000000003e18, -0.8821256292323534);
             (4.000000000000031e17, 0.9932800187565227)]%float.

Definition cosineFar : float -> float :=
  tabulated [(6.00000000000023e18, 0.8516239697657543);
             (4.00000000000003e18, 0.4710141975051544)]%float.

(** The disc of a tree of [Binary64]: its fields are integers. *)
Definition treeDisc64 (a : Binary64.ChunkGenerator.Tree.t) : Disc :=
  (Math_floor (Binary64.ChunkGenerator.Tree.x a),
   Math_floor (Binary64.ChunkGenerator.Tree.y a),
   Math_floor (Binary64.ChunkGenerator.Tree.size a)).

(** A player far from the world. *)
Definition farAway : Player.t :=
  Player.mk "a" "alice" (Position.mk 1e19 2500) Direction.down false 0.

(** The fields of a tree of [Binary64] are whole numbers. *)
Definition wholeTree64 (a : Binary64.ChunkGenerator.Tree.t) : Prop :=
  Binary64.ChunkGenerator.Tree.x a = num (Math_floor (Binary64.ChunkGenerator.Tree.x a)) /\
  Binary64.ChunkGenerator.Tree.y a = num (Math_floor (Binary64.ChunkGenerator.Tree.y a)) /\
  Binary64.ChunkGenerator.Tree.size a
    = num (Math_floor (Binary64.ChunkGenerator.Tree.size a)).

(** The position of a flower of [Binary64], whole numbers as well. *)
Definition flowerSpot64 (f : Binary64.ChunkGenerator.Flower.t) : Z * Z :=
  (Math_floor (Binary64.ChunkGenerator.Flower.x f),
   Math_floor (Binary64.ChunkGenerator.Flower.y f)).

Definition wholeFlower64 (f : Binary64.ChunkGenerator.Flower.t) : Prop :=
  Binary64.ChunkGenerator.Flower.x f
    = num (Math_floor (Binary64.ChunkGenerator.Flower.x f)) /\
  Binary64.ChunkGenerator.Flower.y f
    = num (Math_floor (Binary64.ChunkGenerator.Flower.y f)).

(** A chunk of [ChunkGenerator] as a chunk of [Binary64]. *)
Definition asDoubles (c : WorldChunk.t) : Binary64.ChunkGenerator.WorldChunk.t :=
  Binary64.ChunkGenerator.WorldChunk.mk (num (WorldChunk.x c)) (num (WorldChunk.y c))
    (map (fun a => Binary64.ChunkGenerator.Tree.mk (Tree.id a) (num (Tree.x a))
                     (num (Tree.y a)) (num (Tree.size a)) (Tree.color a)
                     (num (Tree.variant a)))
         (WorldChunk.trees c))
    (map (fun b => Binary64.ChunkGenerator.Bush.mk (Bush.id b) (num (Bush.x b))
                     (num (Bush.y b)) (num (Bush.size b)) (Bush.color b)
                     (num (Bush.variant b)))
         (WorldChunk.bushes c))
    (map (fun f => Binary64.ChunkGenerator.Flower.mk (Flower.id f) (num (Flower.x f))
                     (num (Flower.y f)) (Flower.color f))
         (WorldChunk.flowers c))
    (WorldChunk.isLoaded c).

(** Whether the position of attempt number [k] collides with an existing
    element. *)
Definition attemptCollides (g : ChunkGenerator.t) (chunkX chunkY size : Z)
    (existing : list Element.t) (st : ChunkGenerator.Random) (k : nat) : bool :=
  ChunkGenerator.checkCollisionWithExistingElements
    (fst (attempt g chunkX chunkY size st k)) (snd (attempt g chunkX chunkY size st k))
    size existing.

(** The keys that [GameWorld.getChunksForPosition] gives for the chunk
    [(cX, cY)] of a position. *)
Definition keysAround (w : GameWorld.t) (cX cY distance : Z) : list string :=
  flat_map (fun x =>
    flat_map (fun y =>
      if (x <? 0) || (y <? 0)
         || (x * GameWorld.chunkSize w >=? GameWorld.worldWidth w)
         || (y * GameWorld.chunkSize w >=? GameWorld.worldHeight w)
      then []
      else [GameWorld.key x y])
      (GameWorld.fromTo (cY - distance) (cY + distance)))
    (GameWorld.fromTo (cX - distance) (cX + distance)).

(** The loops on doubles, given 12 rounds, end with these keys. *)
Definition loopsAgree (w : GameWorld.t) (cX cY : Z) : bool :=
  match Binary64.rowLoop 12 w (num cX - 2) (num cX + 2) (num cY - 2) (num cY + 2) [] with
  | Some keys => bool_decide (keys = keysAround w cX cY 2)
  | None => false
  end.

End Props.

Import Props.

(** ** Doubles *)

Lemma forallZ_spec depth : forall from p, forallZ depth from p = true ->
  forall z, from <= z < from + 2 ^ Z.of_nat depth -> p z = true.
Proof.
  induction depth as [|d IH]; intros from p H z Hz.
  - cbn in *. replace z with from by lia. exact H.
  - cbn [forallZ] in H. apply andb_prop in H as [H0 H1].
    rewrite Nat2Z.inj_succ, Z.pow_succ_r in Hz by lia.
    destruct (Z_lt_le_dec z (from + 2 ^ Z.of_nat d)) as [Hlt|Hge].
    + apply (IH _ _ H0). lia.
    + apply (IH _ _ H1). lia.
Qed.

Lemma digits2_pos_bound m : Z.pos m < 2 ^ Z.pos (digits2_pos m).
Proof.
  induction m as [m IH|m IH|]; cbn [digits2_pos].
  - rewrite Pos2Z.inj_succ, Z.pow_succ_r by lia. lia.
  - rewrite Pos2Z.inj_succ, Z.pow_succ_r by lia. lia.
  - reflexivity.
Qed.

Lemma valid_mantissa s m e :
  valid_binary (S754_finite s m e) = true -> Z.pos m < 2 ^ 53.
Proof.
  cbn [SpecFloat.valid_binary]. unfold bounded, canonical_mantissa, fexp.
  intros H. apply andb_prop in H as [H _]. apply Z.eqb_eq in H.
  pose proof (digits2_pos_bound m) as Hm.
  assert (Z.pos (digits2_pos m) <= 53) by (unfold prec in H; lia).
  eapply Z.lt_le_trans; [exact Hm|]. apply Z.pow_le_mono_r; lia.
Qed.

Lemma shiftl_neg_lower (m : positive) (e B : Z) :
  e <= 0 -> Z.pos m <= B * 2 ^ (- e) -> - B <= Z.shiftl (Z.neg m) e.
Proof.
  intros He Hm.
  replace (Z.shiftl (Z.neg m) e) with (Z.shiftr (Z.neg m) (- e))
    by (rewrite <- Z.shiftl_opp_r; f_equal; lia).
  rewrite Z.shiftr_div_pow2 by lia.
  apply Z.div_le_lower_bound; [apply Z.pow_pos_nonneg; lia | lia].
Qed.

(** [Math_floor f] is at least the integer [-B] when [f] is at least the
    double [-B], given by its mantissa [m0] and exponent [e0]. *)
Lemma Math_floor_lower (B : Z) (m0 : positive) (e0 : Z) (f : float) :
  e0 <= 0 -> Z.pos m0 <= B * 2 ^ (- e0) -> 2 ^ 53 <= B * 2 ^ (1 - e0) -> 0 <= B ->
  SFleb (S754_finite true m0 e0) (Prim2SF f) = true ->
  - B <= Math_floor f.
Proof.
  intros He0 Hm0 HB HB0. unfold Math_floor.
  pose proof (Prim2SF_valid f) as Hv.
  destruct (Prim2SF f) as [| | |s m e]; try lia.
  destruct s.
  2:{ intros _. assert (0 <= Z.shiftl (Z.pos m) e) by (apply Z.shiftl_nonneg; lia). lia. }
  apply valid_mantissa in Hv.
  unfold SFleb, SFcompare.
  destruct (Z.compare_spec e0 e) as [Heq|Hlt|Hgt]; cbn; try discriminate.
  - subst e. rewrite Pos.compare_cont_spec. cbn [Pos.switch_Eq].
    destruct (Pos.compare_spec m0 m) as [Hm|Hm|Hm]; cbn; try discriminate; intros _;
      apply shiftl_neg_lower; try lia.
  - intros _. apply shiftl_neg_lower; [lia|].
    assert (2 ^ (1 - e0) <= 2 ^ (- e)) by (apply Z.pow_le_mono_r; lia).
    nia.
Qed.

Lemma Math_floor_ge_m79 f : (-79 <=? f)%float = true -> -79 <= Math_floor f.
Proof.
  rewrite FloatAxioms.leb_spec. intros H.
  apply (Math_floor_lower 79 5559130790035456 (-46));
    [lia | now vm_compute | now vm_compute | lia | exact H].
Qed.

Lemma Math_floor_ge_m39 f : (-39 <=? f)%float = true -> -39 <= Math_floor f.
Proof.
  rewrite FloatAxioms.leb_spec. intros H.
  apply (Math_floor_lower 39 5488762045857792 (-47));
    [lia | now vm_compute | now vm_compute | lia | exact H].
Qed.

(** ** The seeded generator *)

Lemma random_state st :
  snd (ChunkGenerator.random st) = Z.rem (st * 9301 + 49297) 233280.
Proof. reflexivity. Qed.

Lemma random_value st :
  fst (ChunkGenerator.random st) = (num (snd (ChunkGenerator.random st)) / 233280)%float.
Proof. reflexivity. Qed.

Lemma random_state_bound st : -233280 < snd (ChunkGenerator.random st) < 233280.
Proof.
  rewrite random_state.
  pose proof (Z.rem_bound_abs (st * 9301 + 49297) 233280 ltac:(lia)). lia.
Qed.

Lemma random_state_nonneg st :
  0 <= st -> 0 <= snd (ChunkGenerator.random st) < 233280.
Proof. intros H. rewrite random_state. apply Z.rem_bound_pos; lia. Qed.

Lemma stateAfter_nonneg n : forall st, 0 <= st -> 0 <= stateAfter n st.
Proof.
  induction n as [|n IH]; intros st H; cbn [stateAfter]; [exact H|].
  apply IH. apply random_state_nonneg, H.
Qed.

(** Every state in [0, 233280) divided by 233280 is a double in [0, 1):
    checked on each of them. *)
Lemma unit_interval_states :
  forallZ 18 0
    (fun s => (233280 <=? s)
              || (0 <=? num s / 233280)%float && (num s / 233280 <? 1)%float) = true.
Proof. vm_compute. reflexivity. Qed.

(** The products that give the sizes stay above -79 and -39: checked on
    each state a call can leave. *)
Lemma size_products_states :
  forallZ 19 (-233280)
    (fun s => (-79 <=? num s / 233280 * 40)%float
              && (-39 <=? num s / 233280 * 20)%float) = true.
Proof. vm_compute. reflexivity. Qed.

Lemma tree_size_pos st :
  0 < 80 + Math_floor (fst (ChunkGenerator.random st) * 40).
Proof.
  rewrite random_value.
  pose proof (random_state_bound st) as Hb.
  pose proof (forallZ_spec _ _ _ size_products_states
                (snd (ChunkGenerator.random st)) ltac:(change (2 ^ Z.of_nat 19) with 524288; lia)) as H.
  cbv beta in H. apply andb_prop in H as [H _].
  apply Math_floor_ge_m79 in H. lia.
Qed.

Lemma bush_size_pos st :
  0 < 40 + Math_floor (fst (ChunkGenerator.random st) * 20).
Proof.
  rewrite random_value.
  pose proof (random_state_bound st) as Hb.
  pose proof (forallZ_spec _ _ _ size_products_states
                (snd (ChunkGenerator.random st)) ltac:(change (2 ^ Z.of_nat 19) with 524288; lia)) as H.
  cbv beta in H. apply andb_prop in H as [_ H].
  apply Math_floor_ge_m39 in H. lia.
Qed.

(** C8, as the claim states it, fails at a negative seed: the first value
    drawn from seed -6 is -6509/233280, below 0. *)
Lemma random_negative_seed : ~ inUnitInterval (output (-6) 0).
Proof. unfold inUnitInterval. vm_compute. intros [H _]. discriminate. Qed.

(** It also fails at a seed that is too large: beyond 1.93e304 the first
    step of the generator overflows, [state * 9301] is infinite, the
    remainder is [NaN], and so is every value of the generator from then
    on. *)
Lemma random_overflowing_seed :
  let first :=
    Binary64.ChunkGenerator.random (Binary64.ChunkGenerator.createSeededRandom 1e305) in
  fst first = nan /\ snd first = nan /\
  fst (Binary64.ChunkGenerator.random (snd first)) = nan /\
  ~ inUnitInterval (fst first).
Proof.
  intros first. unfold inUnitInterval. vm_compute.
  repeat split. intros [H _]. discriminate H.
Qed.

(** C8 (amended): for every integer seed that is not negative and small
    enough for the first step [seed * 9301 + 49297] to be exact in a
    double (below 2^53), every value produced by the seeded generator
    [state <- (state * 9301 + 49297) mod 233280],
    [output = state / 233280], lies in the interval [0, 1). *)
Theorem random_in_unit_interval (seed : Z) (n : nat) :
  0 <= seed -> seed * 9301 + 49297 < 2 ^ 53 -> inUnitInterval (output seed n).
Proof.
  intros Hseed _. unfold output, inUnitInterval. rewrite random_value.
  pose proof (random_state_nonneg
                (stateAfter n (ChunkGenerator.createSeededRandom seed))
                (stateAfter_nonneg n _ Hseed)) as Hb.
  pose proof (forallZ_spec _ _ _ unit_interval_states
                (snd (ChunkGenerator.random
                        (stateAfter n (ChunkGenerator.createSeededRandom seed))))
                ltac:(change (2 ^ Z.of_nat 18) with 262144; lia)) as H.
  cbv beta in H. apply orb_prop in H as [H|H]; [lia|].
  apply andb_prop in H. exact H.
Qed.

Lemma random_in_unit_interval_witness :
  0 <= 30004 /\ 30004 * 9301 + 49297 < 2 ^ 53 /\ inUnitInterval (output 30004 7).
Proof.
  assert (30004 * 9301 + 49297 < 2 ^ 53) as H by (vm_compute; reflexivity).
  split; [lia|]. split; [exact H|].
  apply (random_in_unit_interval 30004 7); [lia | exact H].
Defined.

(** ** Geometry *)

Lemma Qltb_lt a b : Qltb a b = true <-> (a < b)%Q.
Proof.
  unfold Qltb. rewrite negb_true_iff, <- not_true_iff_false, Qle_bool_iff.
  split; [apply Qnot_le_lt | apply Qlt_not_le].
Qed.

Lemma sqrt_lt_spec d l : sqrt_lt d l = true <-> (0 < l /\ d < l * l)%Q.
Proof. unfold sqrt_lt. rewrite andb_true_iff, !Qltb_lt. reflexivity. Qed.

Lemma sqrt_lt_ext d d' l l' : (d == d')%Q -> (l == l')%Q -> sqrt_lt d l = sqrt_lt d' l'.
Proof.
  intros Hd Hl. apply eq_true_iff_eq. rewrite !sqrt_lt_spec, Hd, Hl. reflexivity.
Qed.

(** [sqrt_lt] decides the comparison of the real square root with the limit. *)
Lemma sqrt_lt_real d l :
  (0 <= d)%Q -> sqrt_lt d l = true <-> (R_sqrt.sqrt (Q2R d) < Q2R l)%R.
Proof.
  intros Hd. rewrite sqrt_lt_spec.
  assert (0 <= Q2R d)%R as Hd' by (replace 0%R with (Q2R 0) by lra; now apply Qle_Rle).
  split.
  - intros [Hl Hdl]. apply Qlt_Rlt in Hl, Hdl. rewrite Q2R_mult in Hdl.
    replace (Q2R 0) with 0%R in Hl by lra.
    rewrite <- (sqrt_square (Q2R l)) by lra.
    apply sqrt_lt_1_alt. lra.
  - intros H. pose proof (sqrt_pos (Q2R d)) as Hp.
    assert (0 < Q2R l)%R as Hl by lra.
    split.
    + apply Rlt_Qlt. lra.
    + apply Rlt_Qlt. rewrite Q2R_mult. rewrite <- (sqrt_sqrt (Q2R d)) at 1 by exact Hd'.
      apply Rmult_le_0_lt_compat; lra.
Qed.

Lemma sqrt_lt_false d l : sqrt_lt d l = false -> (Q2R l <= R_sqrt.sqrt (Q2R d))%R.
Proof.
  intros H. destruct (Qlt_le_dec d 0) as [Hneg|Hd].
  - destruct (Qlt_le_dec 0 l) as [Hl|Hl].
    + exfalso. apply not_true_iff_false in H. apply H, sqrt_lt_spec. split; [exact Hl|].
      apply Rlt_Qlt. rewrite Q2R_mult. apply Qlt_Rlt in Hneg, Hl.
      replace (Q2R 0) with 0%R in Hneg, Hl by lra. nra.
    + apply Qle_Rle in Hl. replace (Q2R 0) with 0%R in Hl by lra.
      pose proof (sqrt_pos (Q2R d)). lra.
  - apply Rnot_lt_le. intros Hlt. apply (sqrt_lt_real d l Hd) in Hlt. congruence.
Qed.

Lemma Q2R_inject_Z z : Q2R (inject_Z z) = IZR z.
Proof. unfold Q2R, inject_Z. cbn. field. Qed.

Lemma Q2R_half z : Q2R (half z) = (IZR z / 2)%R.
Proof. unfold Q2R, half. cbn. reflexivity. Qed.

Lemma sizeOr10_Some x y s :
  s <> 0 -> ChunkGenerator.sizeOr10 (Element.mk x y (Some s)) = s.
Proof.
  intros H. unfold ChunkGenerator.sizeOr10. cbn.
  destruct (Z.eqb_spec s 0); [contradiction | reflexivity].
Qed.

Lemma collides_false_apart x y size ex ey es :
  es <> 0 ->
  ChunkGenerator.collides x y size (Element.mk ex ey (Some es)) = false ->
  apart (x, y, size) (ex, ey, es).
Proof.
  intros Hes H. unfold ChunkGenerator.collides in H.
  rewrite sizeOr10_Some in H by exact Hes. cbn [Element.x Element.y] in H.
  apply sqrt_lt_false in H.
  rewrite !Q2R_plus, !Q2R_mult, !Q2R_minus, !Q2R_plus, !Q2R_half, !Q2R_inject_Z in H.
  unfold apart, distance, centre, discSize. cbn [fst snd].
  replace ((IZR size + IZR es) / 2 + 10)%R with (IZR size / 2 + IZR es / 2 + 10)%R by lra.
  exact H.
Qed.

Lemma apart_sym d1 d2 : apart d1 d2 -> apart d2 d1.
Proof.
  destruct d1 as [[x1 y1] s1], d2 as [[x2 y2] s2].
  unfold apart, distance, centre, discSize. cbn [fst snd]. intros H.
  replace ((IZR s2 + IZR s1) / 2 + 10)%R with ((IZR s1 + IZR s2) / 2 + 10)%R by lra.
  match goal with |- (_ <= R_sqrt.sqrt ?a)%R =>
    match type of H with (_ <= R_sqrt.sqrt ?b)%R => replace a with b by ring end end.
  exact H.
Qed.

Lemma tooClose_false_outside x y ex ey es :
  es <> 0 ->
  ChunkGenerator.tooClose x y (Element.mk ex ey (Some es)) = false ->
  outside x y (ex, ey, es).
Proof.
  intros Hes H. unfold ChunkGenerator.tooClose in H.
  rewrite sizeOr10_Some in H by exact Hes. cbn [Element.x Element.y] in H.
  apply sqrt_lt_false in H.
  rewrite !Q2R_plus, !Q2R_mult, !Q2R_minus, !Q2R_plus, !Q2R_half, !Q2R_inject_Z in H.
  unfold outside, distance, centre, point, discSize. cbn [fst snd].
  exact H.
Qed.

Lemma Qsquares_nonneg (a b : Q) : (0 <= a * a + b * b)%Q.
Proof.
  apply Rle_Qle. rewrite Q2R_plus, !Q2R_mult. replace (Q2R 0) with 0%R by lra. nra.
Qed.

Lemma collides_close x y size ex ey es :
  es <> 0 ->
  ChunkGenerator.collides x y size (Element.mk ex ey (Some es)) = true ->
  ~ apart (x, y, size) (ex, ey, es).
Proof.
  intros Hes H Hapart. unfold ChunkGenerator.collides in H.
  rewrite sizeOr10_Some in H by exact Hes. cbn [Element.x Element.y] in H.
  apply sqrt_lt_real in H; [|apply Qsquares_nonneg].
  rewrite !Q2R_plus, !Q2R_mult, !Q2R_minus, !Q2R_plus, !Q2R_half, !Q2R_inject_Z in H.
  unfold apart, distance, centre, discSize in Hapart. cbn [fst snd] in Hapart.
  replace ((IZR size + IZR es) / 2 + 10)%R with (IZR size / 2 + IZR es / 2 + 10)%R
    in Hapart by lra.
  lra.
Qed.

Lemma tooClose_inside x y ex ey es :
  es <> 0 ->
  ChunkGenerator.tooClose x y (Element.mk ex ey (Some es)) = true ->
  ~ outside x y (ex, ey, es).
Proof.
  intros Hes H Hout. unfold ChunkGenerator.tooClose in H.
  rewrite sizeOr10_Some in H by exact Hes. cbn [Element.x Element.y] in H.
  apply sqrt_lt_real in H; [|apply Qsquares_nonneg].
  rewrite !Q2R_plus, !Q2R_mult, !Q2R_minus, !Q2R_plus, !Q2R_half, !Q2R_inject_Z in H.
  unfold outside, distance, centre, point, discSize in Hout. cbn [fst snd] in Hout.
  lra.
Qed.

(** Both checks only see differences of positions. *)
Lemma collides_shift dx dy x y size e :
  ChunkGenerator.collides (x + dx) (y + dy) size (shiftElement dx dy e) =
  ChunkGenerator.collides x y size e.
Proof.
  unfold ChunkGenerator.collides, shiftElement.
  change (ChunkGenerator.sizeOr10 (Element.mk _ _ (Element.size e)))
    with (ChunkGenerator.sizeOr10 e).
  cbn [Element.x Element.y].
  apply sqrt_lt_ext; [|reflexivity].
  rewrite !inject_Z_plus. ring.
Qed.

Lemma tooClose_shift dx dy x y e :
  ChunkGenerator.tooClose (x + dx) (y + dy) (shiftElement dx dy e) =
  ChunkGenerator.tooClose x y e.
Proof.
  unfold ChunkGenerator.tooClose, shiftElement.
  change (ChunkGenerator.sizeOr10 (Element.mk _ _ (Element.size e)))
    with (ChunkGenerator.sizeOr10 e).
  cbn [Element.x Element.y].
  apply sqrt_lt_ext; [|reflexivity].
  rewrite !inject_Z_plus. ring.
Qed.

Lemma checkCollision_shift dx dy x y size existing :
  ChunkGenerator.checkCollisionWithExistingElements (x + dx) (y + dy) size
    (map (shiftElement dx dy) existing) =
  ChunkGenerator.checkCollisionWithExistingElements x y size existing.
Proof.
  unfold ChunkGenerator.checkCollisionWithExistingElements.
  induction existing as [|e l IH]; cbn [map existsb]; [reflexivity|].
  rewrite collides_shift, IH. reflexivity.
Qed.

Lemma tooClose_any_shift dx dy x y existing :
  existsb (ChunkGenerator.tooClose (x + dx) (y + dy)) (map (shiftElement dx dy) existing) =
  existsb (ChunkGenerator.tooClose x y) existing.
Proof.
  induction existing as [|e l IH]; cbn [map existsb]; [reflexivity|].
  rewrite tooClose_shift, IH. reflexivity.
Qed.

(** ** The placement loop *)

Lemma placement_valid k g cx cy size existing :
  forall x0 y0 st x y st',
  ChunkGenerator.placement k g cx cy size existing x0 y0 st = (true, x, y, st') ->
  ChunkGenerator.checkCollisionWithExistingElements x y size existing = false.
Proof.
  induction k as [|k IH]; intros x0 y0 st x y st' H; cbn [ChunkGenerator.placement] in H.
  - discriminate.
  - destruct (ChunkGenerator.random st) as [r1 st1].
    destruct (ChunkGenerator.random st1) as [r2 st2].
    destruct (ChunkGenerator.checkCollisionWithExistingElements _ _ size existing) eqn:Hc;
      cbn [negb] in H.
    + eapply IH, H.
    + injection H as <- <- <-. exact Hc.
Qed.

Lemma placement_shift k g g' cx cy cx' cy' size existing :
  ChunkGenerator.chunkSize g' = ChunkGenerator.chunkSize g ->
  forall x0 y0 x0' y0' st,
  ChunkGenerator.placement (S k) g' cx' cy' size
    (map (shiftElement ((cx' - cx) * ChunkGenerator.chunkSize g)
                       ((cy' - cy) * ChunkGenerator.chunkSize g)) existing) x0' y0' st =
  let '(valid, x, y, st') := ChunkGenerator.placement (S k) g cx cy size existing x0 y0 st in
  (valid, x + (cx' - cx) * ChunkGenerator.chunkSize g,
          y + (cy' - cy) * ChunkGenerator.chunkSize g, st').
Proof.
  intros Hcs. induction k as [|k IH]; intros x0 y0 x0' y0' st.
  - cbn [ChunkGenerator.placement]. rewrite Hcs.
    destruct (ChunkGenerator.random st) as [r1 st1].
    destruct (ChunkGenerator.random st1) as [r2 st2].
    set (fx := Math_floor _). set (fy := Math_floor _).
    replace (cx' * ChunkGenerator.chunkSize g + fx)
      with (cx * ChunkGenerator.chunkSize g + fx + (cx' - cx) * ChunkGenerator.chunkSize g)
      by ring.
    replace (cy' * ChunkGenerator.chunkSize g + fy)
      with (cy * ChunkGenerator.chunkSize g + fy + (cy' - cy) * ChunkGenerator.chunkSize g)
      by ring.
    rewrite checkCollision_shift.
    destruct (negb _); reflexivity.
  - change (ChunkGenerator.placement (S (S k)) g' cx' cy' size ?e x0' y0' st)
      with (let '(r1, st1) := ChunkGenerator.random st in
            let x := cx' * ChunkGenerator.chunkSize g'
                     + Math_floor (r1 * num (ChunkGenerator.chunkSize g' - size)) in
            let '(r2, st2) := ChunkGenerator.random st1 in
            let y := cy' * ChunkGenerator.chunkSize g'
                     + Math_floor (r2 * num (ChunkGenerator.chunkSize g' - size)) in
            if negb (ChunkGenerator.checkCollisionWithExistingElements x y size e)
            then (true, x, y, st2)
            else ChunkGenerator.placement (S k) g' cx' cy' size e x y st2).
    change (ChunkGenerator.placement (S (S k)) g cx cy size existing x0 y0 st)
      with (let '(r1, st1) := ChunkGenerator.random st in
            let x := cx * ChunkGenerator.chunkSize g
                     + Math_floor (r1 * num (ChunkGenerator.chunkSize g - size)) in
            let '(r2, st2) := ChunkGenerator.random st1 in
            let y := cy * ChunkGenerator.chunkSize g
                     + Math_floor (r2 * num (ChunkGenerator.chunkSize g - size)) in
            if negb (ChunkGenerator.checkCollisionWithExistingElements x y size existing)
            then (true, x, y, st2)
            else ChunkGenerator.placement (S k) g cx cy size existing x y st2).
    rewrite Hcs.
    destruct (ChunkGenerator.random st) as [r1 st1].
    destruct (ChunkGenerator.random st1) as [r2 st2].
    cbv zeta.
    set (fx := Math_floor _). set (fy := Math_floor _).
    replace (cx' * ChunkGenerator.chunkSize g + fx)
      with (cx * ChunkGenerator.chunkSize g + fx + (cx' - cx) * ChunkGenerator.chunkSize g)
      by ring.
    replace (cy' * ChunkGenerator.chunkSize g + fy)
      with (cy * ChunkGenerator.chunkSize g + fy + (cy' - cy) * ChunkGenerator.chunkSize g)
      by ring.
    rewrite checkCollision_shift.
    destruct (negb _); [reflexivity|].
    apply IH.
Qed.

(** ** The three generation loops *)

(** What holds of a tree when it is pushed: the collision check against the
    trees so far failed, and its size is positive. *)
Lemma treesLoop_ind (P : list Tree.t -> Prop) cx cy :
  (forall trees a, P trees ->
     ChunkGenerator.checkCollisionWithExistingElements
       (Tree.x a) (Tree.y a) (Tree.size a) (map Element.ofTree trees) = false ->
     0 < Tree.size a ->
     P (trees ++ [a])) ->
  forall n g st trees, P trees ->
  P (fst (ChunkGenerator.treesLoop n g cx cy st trees)).
Proof.
  intros Hstep. induction n as [|n IH]; intros g st trees HP;
    cbn [ChunkGenerator.treesLoop]; [exact HP|].
  pose proof (tree_size_pos st) as Hsize.
  destruct (ChunkGenerator.random st) as [r st1]. cbn [fst] in Hsize.
  destruct (ChunkGenerator.random st1) as [r' st2].
  destruct (ChunkGenerator.placement _ _ _ _ _ _ _ _ _) as [[[valid x] y] st3] eqn:Hp.
  destruct valid.
  - destruct (ChunkGenerator.random st3) as [r1 st4].
    destruct (ChunkGenerator.random st4) as [r2 st5].
    destruct (ChunkGenerator.random st5) as [r3 st6].
    apply IH, Hstep; [exact HP | | exact Hsize].
    apply placement_valid in Hp. exact Hp.
  - apply IH, HP.
Qed.

Lemma bushesLoop_ind (P : list Bush.t -> Prop) cx cy existing :
  (forall bushes b, P bushes ->
     ChunkGenerator.checkCollisionWithExistingElements
       (Bush.x b) (Bush.y b) (Bush.size b)
       (existing ++ map Element.ofBush bushes) = false ->
     0 < Bush.size b ->
     P (bushes ++ [b])) ->
  forall n g st bushes, P bushes ->
  P (fst (ChunkGenerator.bushesLoop n g cx cy existing st bushes)).
Proof.
  intros Hstep. induction n as [|n IH]; intros g st bushes HP;
    cbn [ChunkGenerator.bushesLoop]; [exact HP|].
  pose proof (bush_size_pos st) as Hsize.
  destruct (ChunkGenerator.random st) as [r st1]. cbn [fst] in Hsize.
  destruct (ChunkGenerator.random st1) as [r' st2].
  destruct (ChunkGenerator.placement _ _ _ _ _ _ _ _ _) as [[[valid x] y] st3] eqn:Hp.
  destruct valid.
  - destruct (ChunkGenerator.random st3) as [r1 st4].
    destruct (ChunkGenerator.random st4) as [r2 st5].
    destruct (ChunkGenerator.random st5) as [r3 st6].
    apply IH, Hstep; [exact HP | | exact Hsize].
    apply placement_valid in Hp. exact Hp.
  - apply IH, HP.
Qed.

Lemma flowersLoop_ind (P : list Flower.t -> Prop) cx cy existing :
  (forall flowers f, P flowers ->
     existsb (ChunkGenerator.tooClose (Flower.x f) (Flower.y f)) existing = false ->
     P (flowers ++ [f])) ->
  forall n g st flowers, P flowers ->
  P (fst (ChunkGenerator.flowersLoop n g cx cy existing st flowers)).
Proof.
  intros Hstep. induction n as [|n IH]; intros g st flowers HP;
    cbn [ChunkGenerator.flowersLoop]; [exact HP|].
  destruct (ChunkGenerator.random st) as [r1 st1].
  destruct (ChunkGenerator.random st1) as [r2 st2].
  destruct (ChunkGenerator.random st2) as [r3 st3].
  destruct (existsb _ existing) eqn:Hc; cbn [negb].
  - apply IH, HP.
  - apply IH, Hstep; [exact HP | exact Hc].
Qed.

(** The loops leave the chunk size and the other two counters alone. *)
Lemma treesLoop_frame n cx cy : forall g st trees,
  let g' := snd (ChunkGenerator.treesLoop n g cx cy st trees) in
  ChunkGenerator.chunkSize g' = ChunkGenerator.chunkSize g /\
  ChunkGenerator.nextBushId g' = ChunkGenerator.nextBushId g /\
  ChunkGenerator.nextFlowerId g' = ChunkGenerator.nextFlowerId g.
Proof.
  induction n as [|n IH]; intros g st trees; cbn [ChunkGenerator.treesLoop];
    [cbn; auto|].
  destruct (ChunkGenerator.random st) as [r st1].
  destruct (ChunkGenerator.random st1) as [r' st2].
  destruct (ChunkGenerator.placement _ _ _ _ _ _ _ _ _) as [[[valid x] y] st3].
  destruct valid; [|apply IH].
  destruct (ChunkGenerator.random st3) as [r1 st4].
  destruct (ChunkGenerator.random st4) as [r2 st5].
  destruct (ChunkGenerator.random st5) as [r3 st6].
  match goal with |- context [ChunkGenerator.treesLoop n ?g0 cx cy ?s ?l] =>
    specialize (IH g0 s l) end.
  cbn in IH. exact IH.
Qed.

Lemma bushesLoop_frame n cx cy existing : forall g st bushes,
  let g' := snd (ChunkGenerator.bushesLoop n g cx cy existing st bushes) in
  ChunkGenerator.chunkSize g' = ChunkGenerator.chunkSize g /\
  ChunkGenerator.nextTreeId g' = ChunkGenerator.nextTreeId g /\
  ChunkGenerator.nextFlowerId g' = ChunkGenerator.nextFlowerId g.
Proof.
  induction n as [|n IH]; intros g st bushes; cbn [ChunkGenerator.bushesLoop];
    [cbn; auto|].
  destruct (ChunkGenerator.random st) as [r st1].
  destruct (ChunkGenerator.random st1) as [r' st2].
  destruct (ChunkGenerator.placement _ _ _ _ _ _ _ _ _) as [[[valid x] y] st3].
  destruct valid; [|apply IH].
  destruct (ChunkGenerator.random st3) as [r1 st4].
  destruct (ChunkGenerator.random st4) as [r2 st5].
  destruct (ChunkGenerator.random st5) as [r3 st6].
  match goal with |- context [ChunkGenerator.bushesLoop n ?g0 cx cy existing ?s ?l] =>
    specialize (IH g0 s l) end.
  cbn in IH. exact IH.
Qed.

Lemma flowersLoop_frame n cx cy existing : forall g st flowers,
  let g' := snd (ChunkGenerator.flowersLoop n g cx cy existing st flowers) in
  ChunkGenerator.chunkSize g' = ChunkGenerator.chunkSize g /\
  ChunkGenerator.nextTreeId g' = ChunkGenerator.nextTreeId g /\
  ChunkGenerator.nextBushId g' = ChunkGenerator.nextBushId g.
Proof.
  induction n as [|n IH]; intros g st flowers; cbn [ChunkGenerator.flowersLoop];
    [cbn; auto|].
  destruct (ChunkGenerator.random st) as [r1 st1].
  destruct (ChunkGenerator.random st1) as [r2 st2].
  destruct (ChunkGenerator.random st2) as [r3 st3].
  destruct (negb _); [|apply IH].
  match goal with |- context [ChunkGenerator.flowersLoop n ?g0 cx cy existing ?s ?l] =>
    specialize (IH g0 s l) end.
  cbn in IH. exact IH.
Qed.

(** ** Translating the chunk and renumbering the identifiers *)

Lemma ofTree_move did dx dy trees :
  map Element.ofTree (map (moveTree did dx dy) trees) =
  map (shiftElement dx dy) (map Element.ofTree trees).
Proof. rewrite !map_map. reflexivity. Qed.

Lemma ofBush_move did dx dy bushes :
  map Element.ofBush (map (moveBush did dx dy) bushes) =
  map (shiftElement dx dy) (map Element.ofBush bushes).
Proof. rewrite !map_map. reflexivity. Qed.

Section Move.

Variables (cs cx cy cx' cy' : Z).

Let dx := (cx' - cx) * cs.
Let dy := (cy' - cy) * cs.

Lemma placement_move g g' size existing x0 y0 x0' y0' st :
  ChunkGenerator.chunkSize g = cs -> ChunkGenerator.chunkSize g' = cs ->
  ChunkGenerator.placement 50 g' cx' cy' size (map (shiftElement dx dy) existing) x0' y0' st =
  let '(valid, x, y, st') := ChunkGenerator.placement 50 g cx cy size existing x0 y0 st in
  (valid, x + dx, y + dy, st').
Proof.
  intros Hg Hg'. subst dx dy. rewrite <- Hg.
  apply placement_shift. congruence.
Qed.

Lemma treesLoop_move did n : forall g g' st trees,
  ChunkGenerator.chunkSize g = cs -> ChunkGenerator.chunkSize g' = cs ->
  ChunkGenerator.nextTreeId g' = ChunkGenerator.nextTreeId g + did ->
  fst (ChunkGenerator.treesLoop n g' cx' cy' st (map (moveTree did dx dy) trees)) =
  map (moveTree did dx dy) (fst (ChunkGenerator.treesLoop n g cx cy st trees)).
Proof.
  induction n as [|n IH]; intros g g' st trees Hg Hg' Hid;
    cbn [ChunkGenerator.treesLoop]; [reflexivity|].
  destruct (ChunkGenerator.random st) as [r st1].
  destruct (ChunkGenerator.random st1) as [r' st2].
  rewrite ofTree_move, (placement_move g g' _ _ 0 0) by assumption.
  destruct (ChunkGenerator.placement 50 g _ _ _ _ _ _ _) as [[[valid x] y] st3].
  destruct valid; [|apply IH; assumption].
  destruct (ChunkGenerator.random st3) as [r1 st4].
  destruct (ChunkGenerator.random st4) as [r2 st5].
  destruct (ChunkGenerator.random st5) as [r3 st6].
  match goal with
  | |- fst (ChunkGenerator.treesLoop n _ _ _ _ (?l ++ [?a'])) =
       map _ (fst (ChunkGenerator.treesLoop n _ _ _ _ (_ ++ [?a]))) =>
      replace (l ++ [a']) with (map (moveTree did dx dy) (trees ++ [a]))
        by (rewrite map_app; cbn [map]; unfold moveTree at 2; cbn; rewrite Hid;
            reflexivity)
  end.
  apply IH; cbn; try assumption; lia.
Qed.

Lemma bushesLoop_move did n existing : forall g g' st bushes,
  ChunkGenerator.chunkSize g = cs -> ChunkGenerator.chunkSize g' = cs ->
  ChunkGenerator.nextBushId g' = ChunkGenerator.nextBushId g + did ->
  fst (ChunkGenerator.bushesLoop n g' cx' cy' (map (shiftElement dx dy) existing) st
         (map (moveBush did dx dy) bushes)) =
  map (moveBush did dx dy)
      (fst (ChunkGenerator.bushesLoop n g cx cy existing st bushes)).
Proof.
  induction n as [|n IH]; intros g g' st bushes Hg Hg' Hid;
    cbn [ChunkGenerator.bushesLoop]; [reflexivity|].
  destruct (ChunkGenerator.random st) as [r st1].
  destruct (ChunkGenerator.random st1) as [r' st2].
  rewrite ofBush_move, <- map_app, (placement_move g g' _ _ 0 0) by assumption.
  destruct (ChunkGenerator.placement 50 g _ _ _ _ _ _ _) as [[[valid x] y] st3].
  destruct valid; [|apply IH; assumption].
  destruct (ChunkGenerator.random st3) as [r1 st4].
  destruct (ChunkGenerator.random st4) as [r2 st5].
  destruct (ChunkGenerator.random st5) as [r3 st6].
  match goal with
  | |- fst (ChunkGenerator.bushesLoop n _ _ _ _ _ (?l ++ [?b'])) =
       map _ (fst (ChunkGenerator.bushesLoop n _ _ _ _ _ (_ ++ [?b]))) =>
      replace (l ++ [b']) with (map (moveBush did dx dy) (bushes ++ [b]))
        by (rewrite map_app; cbn [map]; unfold moveBush at 2; cbn; rewrite Hid;
            reflexivity)
  end.
  apply IH; cbn; try assumption; lia.
Qed.

Lemma flowersLoop_move did n existing : forall g g' st flowers,
  ChunkGenerator.chunkSize g = cs -> ChunkGenerator.chunkSize g' = cs ->
  ChunkGenerator.nextFlowerId g' = ChunkGenerator.nextFlowerId g + did ->
  fst (ChunkGenerator.flowersLoop n g' cx' cy' (map (shiftElement dx dy) existing) st
         (map (moveFlower did dx dy) flowers)) =
  map (moveFlower did dx dy)
      (fst (ChunkGenerator.flowersLoop n g cx cy existing st flowers)).
Proof.
  induction n as [|n IH]; intros g g' st flowers Hg Hg' Hid;
    cbn [ChunkGenerator.flowersLoop]; [reflexivity|].
  rewrite Hg, Hg'.
  destruct (ChunkGenerator.random st) as [r1 st1].
  destruct (ChunkGenerator.random st1) as [r2 st2].
  destruct (ChunkGenerator.random st2) as [r3 st3].
  set (fx := Math_floor (r1 * _)). set (fy := Math_floor (r2 * _)).
  replace (cx' * cs + fx) with (cx * cs + fx + dx) by (subst dx; ring).
  replace (cy' * cs + fy) with (cy * cs + fy + dy) by (subst dy; ring).
  rewrite tooClose_any_shift.
  destruct (negb _); [|apply IH; assumption].
  match goal with
  | |- fst (ChunkGenerator.flowersLoop n _ _ _ _ _ (?l ++ [?f'])) =
       map _ (fst (ChunkGenerator.flowersLoop n _ _ _ _ _ (_ ++ [?f]))) =>
      replace (l ++ [f']) with (map (moveFlower did dx dy) (flowers ++ [f]))
        by (rewrite map_app; cbn [map]; unfold moveFlower at 2; cbn; rewrite Hid;
            reflexivity)
  end.
  apply IH; cbn; try assumption; lia.
Qed.

End Move.

(** ** generateChunk *)

Section Chunk.

Variables Math_sin Math_cos : float -> float.

Local Abbreviation generateChunk := (ChunkGenerator.generateChunk Math_sin Math_cos).
Local Abbreviation treesOf := (treesOf Math_sin).
Local Abbreviation afterTrees := (afterTrees Math_sin).
Local Abbreviation bushesOf := (bushesOf Math_sin Math_cos).
Local Abbreviation afterBushes := (afterBushes Math_sin Math_cos).
Local Abbreviation obstaclesOf := (obstaclesOf Math_sin Math_cos).
Local Abbreviation flowersOf := (flowersOf Math_sin Math_cos).

Lemma generateChunk_fst g cx cy :
  fst (generateChunk g cx cy) =
  WorldChunk.mk cx cy (treesOf g cx cy) (bushesOf g cx cy) (flowersOf g cx cy) true.
Proof.
  unfold ChunkGenerator.generateChunk, Props.flowersOf, Props.obstaclesOf,
    Props.afterBushes, Props.bushesOf, Props.afterTrees, Props.treesOf.
  destruct (ChunkGenerator.generateTrees _ _ _ _ _) as [trees g1]. cbn [fst snd].
  destruct (ChunkGenerator.generateBushes _ _ _ _ _ _) as [bushes g2]. cbn [fst snd].
  destruct (ChunkGenerator.generateFlowers _ _ _ _ _ _) as [flowers g3]. reflexivity.
Qed.

Lemma generateChunk_snd g cx cy :
  snd (generateChunk g cx cy) =
  snd (ChunkGenerator.generateFlowers Math_sin (afterBushes g cx cy) cx cy
         (cx * 10000 + cy) (obstaclesOf g cx cy)).
Proof.
  unfold ChunkGenerator.generateChunk, Props.flowersOf, Props.obstaclesOf,
    Props.afterBushes, Props.bushesOf, Props.afterTrees, Props.treesOf.
  destruct (ChunkGenerator.generateTrees _ _ _ _ _) as [trees g1]. cbn [fst snd].
  destruct (ChunkGenerator.generateBushes _ _ _ _ _ _) as [bushes g2]. cbn [fst snd].
  destruct (ChunkGenerator.generateFlowers _ _ _ _ _ _) as [flowers g3]. reflexivity.
Qed.

Lemma afterTrees_frame g cx cy :
  ChunkGenerator.chunkSize (afterTrees g cx cy) = ChunkGenerator.chunkSize g /\
  ChunkGenerator.nextBushId (afterTrees g cx cy) = ChunkGenerator.nextBushId g /\
  ChunkGenerator.nextFlowerId (afterTrees g cx cy) = ChunkGenerator.nextFlowerId g.
Proof. apply treesLoop_frame. Qed.

Lemma afterBushes_frame g cx cy :
  ChunkGenerator.chunkSize (afterBushes g cx cy) = ChunkGenerator.chunkSize g /\
  ChunkGenerator.nextFlowerId (afterBushes g cx cy) = ChunkGenerator.nextFlowerId g.
Proof.
  destruct (afterTrees_frame g cx cy) as (H1 & _ & H3).
  unfold Props.afterBushes, ChunkGenerator.generateBushes.
  match goal with |- context [ChunkGenerator.bushesLoop ?n ?g0 cx cy ?e ?s ?l] =>
    destruct (bushesLoop_frame n cx cy e g0 s l) as (F1 & _ & F3) end.
  split; congruence.
Qed.

Lemma generateChunk_chunkSize g cx cy :
  ChunkGenerator.chunkSize (snd (generateChunk g cx cy)) = ChunkGenerator.chunkSize g.
Proof.
  rewrite generateChunk_snd. unfold ChunkGenerator.generateFlowers.
  match goal with |- context [ChunkGenerator.flowersLoop ?n ?g0 cx cy ?e ?s ?l] =>
    destruct (flowersLoop_frame n cx cy e g0 s l) as (F1 & _ & _) end.
  rewrite F1. apply afterBushes_frame.
Qed.

(** Two runs on the same seed: the second chunk is the first one moved
    by the difference of the chunk origins, with other identifiers. *)
Lemma generateChunk_move g g' cx cy cx' cy' :
  ChunkGenerator.chunkSize g' = ChunkGenerator.chunkSize g ->
  cx * 10000 + cy = cx' * 10000 + cy' ->
  let dx := (cx' - cx) * ChunkGenerator.chunkSize g in
  let dy := (cy' - cy) * ChunkGenerator.chunkSize g in
  treesOf g' cx' cy' =
    map (moveTree (ChunkGenerator.nextTreeId g' - ChunkGenerator.nextTreeId g) dx dy)
        (treesOf g cx cy) /\
  bushesOf g' cx' cy' =
    map (moveBush (ChunkGenerator.nextBushId g' - ChunkGenerator.nextBushId g) dx dy)
        (bushesOf g cx cy) /\
  flowersOf g' cx' cy' =
    map (moveFlower (ChunkGenerator.nextFlowerId g' - ChunkGenerator.nextFlowerId g) dx dy)
        (flowersOf g cx cy).
Proof.
  intros Hcs Hseed dx dy.
  assert (treesOf g' cx' cy' =
    map (moveTree (ChunkGenerator.nextTreeId g' - ChunkGenerator.nextTreeId g) dx dy)
        (treesOf g cx cy)) as Ht.
  { unfold Props.treesOf, ChunkGenerator.generateTrees. rewrite <- Hseed.
    apply (treesLoop_move (ChunkGenerator.chunkSize g) cx cy cx' cy' _ _ g g' _ []);
      [reflexivity | exact Hcs | lia]. }
  destruct (afterTrees_frame g cx cy) as (A1 & A2 & A3).
  destruct (afterTrees_frame g' cx' cy') as (A1' & A2' & A3').
  assert (bushesOf g' cx' cy' =
    map (moveBush (ChunkGenerator.nextBushId g' - ChunkGenerator.nextBushId g) dx dy)
        (bushesOf g cx cy)) as Hb.
  { unfold Props.bushesOf, ChunkGenerator.generateBushes. rewrite Ht, ofTree_move, <- Hseed.
    apply (bushesLoop_move (ChunkGenerator.chunkSize g) cx cy cx' cy' _ _ _
             (afterTrees g cx cy) (afterTrees g' cx' cy') _ []);
      [congruence | congruence | lia]. }
  split; [exact Ht|]. split; [exact Hb|].
  destruct (afterBushes_frame g cx cy) as (B1 & B2).
  destruct (afterBushes_frame g' cx' cy') as (B1' & B2').
  unfold Props.flowersOf, Props.obstaclesOf, ChunkGenerator.generateFlowers.
  rewrite Ht, Hb, ofTree_move, ofBush_move, <- map_app, <- Hseed.
  apply (flowersLoop_move (ChunkGenerator.chunkSize g) cx cy cx' cy' _ _ _
           (afterBushes g cx cy) (afterBushes g' cx' cy') _ []);
    [congruence | congruence | lia].
Qed.

Lemma contentFrom_move did1 did2 did3 dx dy ox oy cx cy cx' cy' trees bushes flowers l :
  contentFrom (ox + dx) (oy + dy)
    (WorldChunk.mk cx' cy' (map (moveTree did1 dx dy) trees)
       (map (moveBush did2 dx dy) bushes) (map (moveFlower did3 dx dy) flowers) l) =
  contentFrom ox oy (WorldChunk.mk cx cy trees bushes flowers l).
Proof.
  unfold contentFrom. cbn [WorldChunk.trees WorldChunk.bushes WorldChunk.flowers].
  rewrite !map_map. f_equal; [f_equal|]; apply map_ext; intros e;
    unfold treeData, bushData, flowerData, moveTree, moveBush, moveFlower; cbn;
    repeat match goal with |- (_, _) = (_, _) => f_equal end; lia.
Qed.

Lemma generateChunk_content g g' cx cy :
  ChunkGenerator.chunkSize g' = ChunkGenerator.chunkSize g ->
  content (fst (generateChunk g' cx cy)) = content (fst (generateChunk g cx cy)).
Proof.
  intros Hcs. rewrite !generateChunk_fst.
  destruct (generateChunk_move g g' cx cy cx cy Hcs eq_refl) as (-> & -> & ->).
  unfold content. rewrite !Z.sub_diag, !Z.mul_0_l.
  apply (contentFrom_move _ _ _ 0 0 0 0).
Qed.

(** C1: for any fixed chunk coordinate (cx, cy), two independent calls
    to [generateChunk cx cy] -- whatever the three identifier counters are
    at each call, and in particular two calls in a row on one generator --
    yield chunks with identical entity positions, sizes, colours and
    variants for every tree, bush and flower, the identifier fields left
    out. *)
Theorem generateChunk_deterministic
    (worldWidth worldHeight chunkSize : Z) (t1 b1 f1 t2 b2 f2 : Z) (cx cy : Z) :
  let g1 := ChunkGenerator.mk worldWidth worldHeight chunkSize t1 b1 f1 in
  let g2 := ChunkGenerator.mk worldWidth worldHeight chunkSize t2 b2 f2 in
  content (fst (generateChunk g1 cx cy)) = content (fst (generateChunk g2 cx cy)) /\
  content (fst (generateChunk g1 cx cy)) =
    content (fst (generateChunk (snd (generateChunk g1 cx cy)) cx cy)).
Proof.
  intros g1 g2. split.
  - apply generateChunk_content. reflexivity.
  - symmetry. apply generateChunk_content, generateChunk_chunkSize.
Qed.

End Chunk.

Section Alias.

Variables Math_sin Math_cos : float -> float.

Local Abbreviation generateChunk := (ChunkGenerator.generateChunk Math_sin Math_cos).


End Alias.



(** ** The collision invariant *)

Lemma existsb_false_In {A} (f : A -> bool) l x :
  existsb f l = false -> In x l -> f x = false.
Proof.
  intros H Hx. destruct (f x) eqn:Hf; [|reflexivity].
  rewrite <- H. symmetry. apply existsb_exists. exists x. split; assumption.
Qed.

Lemma lookup_snoc_Some {A} (l : list A) (a x : A) (i : nat) :
  (l ++ [a]) !! i = Some x -> l !! i = Some x \/ (i = length l /\ x = a).
Proof.
  intros H. apply lookup_app_Some in H as [H|[Hi H]]; [left; exact H|right].
  destruct (i - length l)%nat as [|k] eqn:Hk; cbn in H; [|discriminate].
  injection H as <-. split; [lia|reflexivity].
Qed.

Lemma lookup_In {A} (l : list A) (i : nat) (x : A) : l !! i = Some x -> In x l.
Proof. intros H. apply list_elem_of_In, list_elem_of_lookup. eauto. Qed.

Lemma Forall_In {A} (P : A -> Prop) (l : list A) (x : A) : Forall P l -> In x l -> P x.
Proof. intros H Hx. rewrite List.Forall_forall in H. apply H, Hx. Qed.

(** Trees and bushes as they are handed to the collision check. *)
Lemma collides_false_tree x y size a :
  0 < Tree.size a ->
  ChunkGenerator.collides x y size (Element.ofTree a) = false ->
  apart (x, y, size) (treeDisc a).
Proof. intros Hs H. apply collides_false_apart; [lia | exact H]. Qed.

Lemma collides_false_bush x y size b :
  0 < Bush.size b ->
  ChunkGenerator.collides x y size (Element.ofBush b) = false ->
  apart (x, y, size) (bushDisc b).
Proof. intros Hs H. apply collides_false_apart; [lia | exact H]. Qed.

Lemma treesLoop_separated n g cx cy st :
  treesSeparated (fst (ChunkGenerator.treesLoop n g cx cy st [])).
Proof.
  apply treesLoop_ind.
  - intros trees a [Hpos Hpairs] Hcheck Hsize. split.
    + apply Forall_app. split; [exact Hpos | repeat constructor; exact Hsize].
    + intros i j a1 a2 Hij H1 H2.
      apply lookup_snoc_Some in H2 as [H2|[Hj ->]].
      * apply lookup_snoc_Some in H1 as [H1|[Hi _]].
        -- eapply Hpairs; eassumption.
        -- apply lookup_lt_Some in H2. lia.
      * apply lookup_snoc_Some in H1 as [H1|[Hi _]]; [|lia].
        apply collides_false_tree.
        -- eapply (Forall_In _ _ _ Hpos), lookup_In, H1.
        -- eapply existsb_false_In; [exact Hcheck|].
           eapply in_map, lookup_In, H1.
  - split; [constructor|]. intros i j a1 a2 _ H. rewrite lookup_nil in H. discriminate.
Qed.

Lemma bushesLoop_separated trees n g cx cy st :
  Forall (fun a => 0 < Tree.size a) trees ->
  bushesSeparated trees
    (fst (ChunkGenerator.bushesLoop n g cx cy (map Element.ofTree trees) st [])).
Proof.
  intros Htrees. apply bushesLoop_ind.
  - intros bushes b (Hpos & Htb & Hpairs) Hcheck Hsize.
    unfold ChunkGenerator.checkCollisionWithExistingElements in Hcheck.
    rewrite existsb_app in Hcheck. apply orb_false_elim in Hcheck as [Hct Hcb].
    split; [|split].
    + apply Forall_app. split; [exact Hpos | repeat constructor; exact Hsize].
    + intros b' a Hb' Ha. apply in_app_or in Hb' as [Hb'|[<-|[]]].
      * apply Htb; assumption.
      * apply collides_false_tree.
        -- apply (Forall_In _ _ _ Htrees), Ha.
        -- eapply existsb_false_In; [exact Hct|]. apply in_map, Ha.
    + intros i j b1 b2 Hij H1 H2.
      apply lookup_snoc_Some in H2 as [H2|[Hj ->]].
      * apply lookup_snoc_Some in H1 as [H1|[Hi _]].
        -- eapply Hpairs; eassumption.
        -- apply lookup_lt_Some in H2. lia.
      * apply lookup_snoc_Some in H1 as [H1|[Hi _]]; [|lia].
        apply collides_false_bush.
        -- eapply (Forall_In _ _ _ Hpos), lookup_In, H1.
        -- eapply existsb_false_In; [exact Hcb|].
           eapply in_map, lookup_In, H1.
  - split; [constructor|]. split; [intros b a []|].
    intros i j b1 b2 _ H. rewrite lookup_nil in H. discriminate.
Qed.

Section Collision.

Variables Math_sin Math_cos : float -> float.

Local Abbreviation generateChunk := (ChunkGenerator.generateChunk Math_sin Math_cos).

Lemma treesOf_separated g cx cy : treesSeparated (treesOf Math_sin g cx cy).
Proof. apply treesLoop_separated. Qed.

Lemma bushesOf_separated g cx cy :
  bushesSeparated (treesOf Math_sin g cx cy) (bushesOf Math_sin Math_cos g cx cy).
Proof. apply bushesLoop_separated, treesOf_separated. Qed.

(** C2 (amended): for every chunk returned by [generateChunk] whose
    coordinates are in the range where the integers of the program are
    exact ([exactChunk], which every chunk of the world is in), every pair
    of distinct trees, every pair of a bush and a tree, and every pair of
    distinct bushes of the chunk have their centres (position offset by
    size/2 on each axis) at Euclidean distance at least
    (size1 + size2)/2 + 10. *)
Theorem generateChunk_collision_invariant (g : ChunkGenerator.t) (cx cy : Z) :
  exactChunk (ChunkGenerator.chunkSize g) cx cy ->
  let chunk := fst (generateChunk g cx cy) in
  (forall (i j : nat) (a1 a2 : Tree.t),
      i <> j ->
      WorldChunk.trees chunk !! i = Some a1 ->
      WorldChunk.trees chunk !! j = Some a2 ->
      apart (treeDisc a1) (treeDisc a2)) /\
  (forall (b : Bush.t) (a : Tree.t),
      In b (WorldChunk.bushes chunk) -> In a (WorldChunk.trees chunk) ->
      apart (bushDisc b) (treeDisc a)) /\
  (forall (i j : nat) (b1 b2 : Bush.t),
      i <> j ->
      WorldChunk.bushes chunk !! i = Some b1 ->
      WorldChunk.bushes chunk !! j = Some b2 ->
      apart (bushDisc b1) (bushDisc b2)).
Proof.
  intros _ chunk. subst chunk. rewrite generateChunk_fst.
  cbn [WorldChunk.trees WorldChunk.bushes].
  destruct (treesOf_separated g cx cy) as [_ Ht].
  destruct (bushesOf_separated g cx cy) as (_ & Htb & Hb).
  split; [|split].
  - intros i j a1 a2 Hij H1 H2.
    destruct (Nat.lt_total i j) as [Hlt|[Heq|Hgt]]; [|contradiction|].
    + apply apart_sym. eapply Ht; eassumption.
    + eapply Ht; eassumption.
  - exact Htb.
  - intros i j b1 b2 Hij H1 H2.
    destruct (Nat.lt_total i j) as [Hlt|[Heq|Hgt]]; [|contradiction|].
    + apply apart_sym. eapply Hb; eassumption.
    + eapply Hb; eassumption.
Qed.

End Collision.


Lemma generateChunk_collision_invariant_witness :
  let chunk :=
    fst (ChunkGenerator.generateChunk sineTable cosineTable
           (ChunkGenerator.new 5000 5000 500) 3 4) in
  exactChunk (ChunkGenerator.chunkSize (ChunkGenerator.new 5000 5000 500)) 3 4 /\
  exists a1 a2 b,
    0%nat <> 1%nat /\
    WorldChunk.trees chunk !! 0%nat = Some a1 /\
    WorldChunk.trees chunk !! 1%nat = Some a2 /\
    In b (WorldChunk.bushes chunk) /\ In a1 (WorldChunk.trees chunk) /\
    apart (treeDisc a1) (treeDisc a2) /\ apart (bushDisc b) (treeDisc a1).
Proof.
  intros chunk.
  assert (exactChunk (ChunkGenerator.chunkSize (ChunkGenerator.new 5000 5000 500)) 3 4)
    as Hexact by (repeat split; vm_compute; reflexivity).
  split; [exact Hexact|].
  pose proof (generateChunk_collision_invariant sineTable cosineTable
                (ChunkGenerator.new 5000 5000 500) 3 4 Hexact) as (Ht & Htb & _).
  fold chunk in Ht, Htb.
  assert (exists a1, WorldChunk.trees chunk !! 0%nat = Some a1) as [a1 H1]
    by (vm_compute; eexists; reflexivity).
  assert (exists a2, WorldChunk.trees chunk !! 1%nat = Some a2) as [a2 H2]
    by (vm_compute; eexists; reflexivity).
  assert (exists b, WorldChunk.bushes chunk !! 0%nat = Some b) as [b H3]
    by (vm_compute; eexists; reflexivity).
  clearbody chunk.
  exists a1, a2, b.
  split; [discriminate|]. split; [exact H1|]. split; [exact H2|].
  split; [exact (lookup_In _ _ _ H3)|]. split; [exact (lookup_In _ _ _ H1)|].
  split.
  - apply (Ht 0%nat 1%nat); [discriminate | exact H1 | exact H2].
  - apply Htb; [exact (lookup_In _ _ _ H3) | exact (lookup_In _ _ _ H1)].
Defined.

(** C2, as the claim states it, fails where the positions are not exact.
    In chunk (600000000000023, 0), with chunk size 500, the origin
    300000000000011500 is beyond 2^53 and every x is rounded to a multiple
    of 64.  The trees number 3 and 4 are at (300000000000011776, 347) with
    size 119 and at (300000000000011840, 271) with size 82: the check of
    tree 4 against tree 3 rounds both centres, finds them 114.13 apart and
    lets it pass, while their centres are 104.88 apart, less than
    (119 + 82) / 2 + 10 = 110.5. *)
Lemma generateChunk_collision_beyond_exact :
  let chunk :=
    fst (Binary64.ChunkGenerator.generateChunk sineFar cosineFar square
           (Binary64.ChunkGenerator.new 5000 5000 500) 600000000000023 0) in
  exists a1 a2,
    Binary64.ChunkGenerator.WorldChunk.trees chunk !! 3%nat = Some a1 /\
    Binary64.ChunkGenerator.WorldChunk.trees chunk !! 4%nat = Some a2 /\
    wholeTree64 a1 /\ wholeTree64 a2 /\
    treeDisc64 a1 = (300000000000011776, 347, 119) /\
    treeDisc64 a2 = (300000000000011840, 271, 82) /\
    Binary64.ChunkGenerator.collides square
      (Binary64.ChunkGenerator.Tree.x a2) (Binary64.ChunkGenerator.Tree.y a2)
      (Binary64.ChunkGenerator.Tree.size a2) (Binary64.ChunkGenerator.Element.ofTree a1)
      = false /\
    ~ apart (treeDisc64 a2) (treeDisc64 a1).
Proof.
  intros chunk.
  assert (from_option
            (fun a1 => from_option
               (fun a2 =>
                  wholeTree64 a1 /\ wholeTree64 a2 /\
                  treeDisc64 a1 = (300000000000011776, 347, 119) /\
                  treeDisc64 a2 = (300000000000011840, 271, 82) /\
                  Binary64.ChunkGenerator.collides square
                    (Binary64.ChunkGenerator.Tree.x a2) (Binary64.ChunkGenerator.Tree.y a2)
                    (Binary64.ChunkGenerator.Tree.size a2)
                    (Binary64.ChunkGenerator.Element.ofTree a1) = false)
               False (Binary64.ChunkGenerator.WorldChunk.trees chunk !! 4%nat))
            False (Binary64.ChunkGenerator.WorldChunk.trees chunk !! 3%nat)) as H
    by (vm_compute; repeat split).
  destruct (Binary64.ChunkGenerator.WorldChunk.trees chunk !! 3%nat) as [a1|];
    [|destruct H].
  destruct (Binary64.ChunkGenerator.WorldChunk.trees chunk !! 4%nat) as [a2|];
    [|destruct H].
  cbn [from_option] in H. destruct H as (W1 & W2 & D1 & D2 & Hc).
  exists a1, a2. repeat (split; [first [reflexivity | assumption]|]).
  rewrite D1, D2.
  apply collides_close; [discriminate | vm_compute; reflexivity].
Qed.

(** ** Flowers *)

Lemma tooClose_false_tree x y a :
  0 < Tree.size a ->
  ChunkGenerator.tooClose x y (Element.ofTree a) = false ->
  outside x y (treeDisc a).
Proof. intros Hs H. apply tooClose_false_outside; [lia | exact H]. Qed.

Lemma tooClose_false_bush x y b :
  0 < Bush.size b ->
  ChunkGenerator.tooClose x y (Element.ofBush b) = false ->
  outside x y (bushDisc b).
Proof. intros Hs H. apply tooClose_false_outside; [lia | exact H]. Qed.

Lemma flowersLoop_clear existing n g cx cy st :
  Forall (fun f => existsb (ChunkGenerator.tooClose (Flower.x f) (Flower.y f)) existing = false)
         (fst (ChunkGenerator.flowersLoop n g cx cy existing st [])).
Proof.
  apply flowersLoop_ind.
  - intros flowers f HP Hc. apply Forall_app. split; [exact HP | repeat constructor; exact Hc].
  - constructor.
Qed.

(** The flowers are the candidates that pass the check against
    [existing], in the order drawn. *)
Lemma flowersLoop_spots existing cs cx cy n : forall g st flowers,
  ChunkGenerator.chunkSize g = cs ->
  map flowerSpot (fst (ChunkGenerator.flowersLoop n g cx cy existing st flowers)) =
  map flowerSpot flowers ++ List.filter (clearOf existing) (flowerCandidates n cs cx cy st).
Proof.
  induction n as [|n IH]; intros g st flowers Hg;
    cbn [ChunkGenerator.flowersLoop flowerCandidates].
  - cbn. rewrite app_nil_r. reflexivity.
  - rewrite Hg.
    destruct (ChunkGenerator.random st) as [r1 st1].
    destruct (ChunkGenerator.random st1) as [r2 st2].
    destruct (ChunkGenerator.random st2) as [r3 st3].
    cbn [List.filter clearOf].
    destruct (negb _).
    + rewrite IH by reflexivity. rewrite map_app, <- app_assoc. reflexivity.
    + rewrite IH by exact Hg. reflexivity.
Qed.

Section Flowers.

Variables Math_sin Math_cos : float -> float.

Local Abbreviation generateChunk := (ChunkGenerator.generateChunk Math_sin Math_cos).

(** C4 (amended): for every chunk returned by [generateChunk] whose
    coordinates are in the range where the integers of the program are
    exact ([exactChunk], which every chunk of the world is in), every
    flower's point position (x, y) is at Euclidean distance at least size/2
    from the centre of every tree and of every bush of that chunk (the
    centre being the position offset by size/2); and no constraint between
    flowers is enforced: the flowers are exactly the candidates drawn from
    the generator that pass this check against the trees and bushes,
    whatever flowers were placed before. *)
Theorem generateChunk_flowers (g : ChunkGenerator.t) (cx cy : Z) :
  exactChunk (ChunkGenerator.chunkSize g) cx cy ->
  let chunk := fst (generateChunk g cx cy) in
  let obstacles :=
    map Element.ofTree (WorldChunk.trees chunk)
    ++ map Element.ofBush (WorldChunk.bushes chunk) in
  let count :=
    15 + Math_floor ((Math_sin (num (cx * 10000 + cy) * 0.1) + 1) * 10) in
  (forall (f : Flower.t) (a : Tree.t),
      In f (WorldChunk.flowers chunk) -> In a (WorldChunk.trees chunk) ->
      outside (Flower.x f) (Flower.y f) (treeDisc a)) /\
  (forall (f : Flower.t) (b : Bush.t),
      In f (WorldChunk.flowers chunk) -> In b (WorldChunk.bushes chunk) ->
      outside (Flower.x f) (Flower.y f) (bushDisc b)) /\
  map flowerSpot (WorldChunk.flowers chunk) =
    List.filter (clearOf obstacles)
      (flowerCandidates (Z.to_nat count) (ChunkGenerator.chunkSize g) cx cy
         (ChunkGenerator.createSeededRandom (cx * 10000 + cy + 2))).
Proof.
  intros _ chunk obstacles count. subst obstacles count chunk.
  rewrite generateChunk_fst.
  cbn [WorldChunk.trees WorldChunk.bushes WorldChunk.flowers].
  change (map Element.ofTree (treesOf Math_sin g cx cy)
          ++ map Element.ofBush (bushesOf Math_sin Math_cos g cx cy))
    with (obstaclesOf Math_sin Math_cos g cx cy).
  destruct (treesOf_separated Math_sin g cx cy) as [Htpos _].
  destruct (bushesOf_separated Math_sin Math_cos g cx cy) as (Hbpos & _ & _).
  assert (Forall (fun f => existsb (ChunkGenerator.tooClose (Flower.x f) (Flower.y f))
                             (obstaclesOf Math_sin Math_cos g cx cy) = false)
                 (flowersOf Math_sin Math_cos g cx cy)) as Hclear
    by apply flowersLoop_clear.
  split; [|split].
  - intros f a Hf Ha.
    apply tooClose_false_tree.
    + exact (Forall_In _ _ _ Htpos Ha).
    + eapply existsb_false_In; [exact (Forall_In _ _ _ Hclear Hf)|].
      apply in_or_app. left. apply in_map, Ha.
  - intros f b Hf Hb.
    apply tooClose_false_bush.
    + exact (Forall_In _ _ _ Hbpos Hb).
    + eapply existsb_false_In; [exact (Forall_In _ _ _ Hclear Hf)|].
      apply in_or_app. right. apply in_map, Hb.
  - unfold Props.flowersOf, ChunkGenerator.generateFlowers.
    rewrite (flowersLoop_spots _ (ChunkGenerator.chunkSize g)).
    + reflexivity.
    + apply afterBushes_frame.
Qed.

End Flowers.


(** In chunk (0, 3) the first flower keeps its distance from the first tree,
    while the flowers number 0 and 10, at (406, 1775) and (408, 1776), are
    closer to each other than a flower may be to the centre of any tree or
    bush. *)
Lemma generateChunk_flowers_witness :
  let chunk :=
    fst (ChunkGenerator.generateChunk sineTable cosineTable
           (ChunkGenerator.new 5000 5000 500) 0 3) in
  exactChunk (ChunkGenerator.chunkSize (ChunkGenerator.new 5000 5000 500)) 0 3 /\
  exists f a,
    In f (WorldChunk.flowers chunk) /\ In a (WorldChunk.trees chunk) /\
    outside (Flower.x f) (Flower.y f) (treeDisc a) /\
    map flowerSpot (WorldChunk.flowers chunk) !! 0%nat
      = Some (406, 1775, Some "#C70039"%string) /\
    map flowerSpot (WorldChunk.flowers chunk) !! 10%nat
      = Some (408, 1776, Some "#DAF7A6"%string).
Proof.
  intros chunk.
  assert (exactChunk (ChunkGenerator.chunkSize (ChunkGenerator.new 5000 5000 500)) 0 3)
    as Hexact by (repeat split; vm_compute; reflexivity).
  split; [exact Hexact|].
  pose proof (generateChunk_flowers sineTable cosineTable
                (ChunkGenerator.new 5000 5000 500) 0 3 Hexact) as (Hft & _ & _).
  fold chunk in Hft.
  assert (exists f, WorldChunk.flowers chunk !! 0%nat = Some f) as [f H1]
    by (vm_compute; eexists; reflexivity).
  assert (exists a, WorldChunk.trees chunk !! 0%nat = Some a) as [a H2]
    by (vm_compute; eexists; reflexivity).
  assert (map flowerSpot (WorldChunk.flowers chunk) !! 0%nat
            = Some (406, 1775, Some "#C70039"%string) /\
          map flowerSpot (WorldChunk.flowers chunk) !! 10%nat
            = Some (408, 1776, Some "#DAF7A6"%string)) as H3
    by (vm_compute; split; reflexivity).
  clearbody chunk.
  exists f, a.
  split; [exact (lookup_In _ _ _ H1)|]. split; [exact (lookup_In _ _ _ H2)|].
  split; [|exact H3].
  apply Hft; [exact (lookup_In _ _ _ H1) | exact (lookup_In _ _ _ H2)].
Defined.

(** C4, as the claim states it, fails where the positions are not exact.
    In chunk (400000000000003, 0), with chunk size 500, every x is rounded
    to a multiple of 32.  The flower number 2 is at
    (200000000000001664, 239) and the tree number 4 at
    (200000000000001600, 235) with size 95: the check rounds the x of the
    centre of the tree, 200000000000001647.5, to 200000000000001632, finds
    the flower 54 away and keeps it, while the centre is 46.52 away, less
    than 95 / 2 = 47.5. *)
Lemma generateChunk_flowers_beyond_exact :
  let chunk :=
    fst (Binary64.ChunkGenerator.generateChunk sineFar cosineFar square
           (Binary64.ChunkGenerator.new 5000 5000 500) 400000000000003 0) in
  exists f a,
    Binary64.ChunkGenerator.WorldChunk.flowers chunk !! 2%nat = Some f /\
    Binary64.ChunkGenerator.WorldChunk.trees chunk !! 4%nat = Some a /\
    wholeFlower64 f /\ wholeTree64 a /\
    flowerSpot64 f = (200000000000001664, 239) /\
    treeDisc64 a = (200000000000001600, 235, 95) /\
    Binary64.ChunkGenerator.tooClose square
      (Binary64.ChunkGenerator.Flower.x f) (Binary64.ChunkGenerator.Flower.y f)
      (Binary64.ChunkGenerator.Element.ofTree a) = false /\
    ~ outside (fst (flowerSpot64 f)) (snd (flowerSpot64 f)) (treeDisc64 a).
Proof.
  intros chunk.
  assert (from_option
            (fun f => from_option
               (fun a =>
                  wholeFlower64 f /\ wholeTree64 a /\
                  flowerSpot64 f = (200000000000001664, 239) /\
                  treeDisc64 a = (200000000000001600, 235, 95) /\
                  Binary64.ChunkGenerator.tooClose square
                    (Binary64.ChunkGenerator.Flower.x f)
                    (Binary64.ChunkGenerator.Flower.y f)
                    (Binary64.ChunkGenerator.Element.ofTree a) = false)
               False (Binary64.ChunkGenerator.WorldChunk.trees chunk !! 4%nat))
            False (Binary64.ChunkGenerator.WorldChunk.flowers chunk !! 2%nat)) as H
    by (vm_compute; repeat split).
  destruct (Binary64.ChunkGenerator.WorldChunk.flowers chunk !! 2%nat) as [f|];
    [|destruct H].
  destruct (Binary64.ChunkGenerator.WorldChunk.trees chunk !! 4%nat) as [a|];
    [|destruct H].
  cbn [from_option] in H. destruct H as (W1 & W2 & D1 & D2 & Hc).
  exists f, a. repeat (split; [first [reflexivity | assumption]|]).
  rewrite D1, D2. cbn [fst snd].
  apply tooClose_inside; [discriminate | vm_compute; reflexivity].
Qed.

(** ** Chunk keys *)

Lemma split_commaFree s : commaFree s = true -> GameWorld.split s = [s].
Proof.
  induction s as [|c s IH]; cbn [commaFree GameWorld.split]; [reflexivity|].
  intros H. apply andb_prop in H as [Hc Hs].
  apply negb_true_iff in Hc. rewrite Hc, (IH Hs). reflexivity.
Qed.

Lemma split_append s1 s2 :
  commaFree s1 = true ->
  GameWorld.split (s1 +:+ String ","%char s2) = s1 :: GameWorld.split s2.
Proof.
  induction s1 as [|c s IH]; simpl.
  - intros _. reflexivity.
  - intros H. apply andb_prop in H as [Hc Hs].
    apply negb_true_iff in Hc. rewrite Hc, (IH Hs). reflexivity.
Qed.

Lemma commaFree_uint d : commaFree (NilEmpty.string_of_uint d) = true.
Proof. induction d; cbn; assumption || reflexivity. Qed.

Lemma commaFree_toString z : commaFree (GameWorld.toString z) = true.
Proof.
  assert (forall d, commaFree (NilZero.string_of_uint d) = true) as H.
  { intros d. unfold NilZero.string_of_uint. destruct d; try reflexivity; apply commaFree_uint. }
  unfold GameWorld.toString, NilZero.string_of_int.
  destruct (Z.to_int z) as [d|d]; [apply H|].
  cbn [commaFree]. rewrite H. reflexivity.
Qed.

Lemma parseInt_toString z : GameWorld.parseInt (GameWorld.toString z) = Some z.
Proof.
  unfold GameWorld.parseInt, GameWorld.toString.
  rewrite NilZero.isi.
  - cbn. rewrite DecimalZ.of_to. reflexivity.
  - destruct z; cbn; try discriminate.
    intros H. injection H as H. exact (Unsigned.to_uint_nonnil _ H).
  - destruct z; cbn; try discriminate.
    intros H. injection H as H. exact (Unsigned.to_uint_nonnil _ H).
Qed.

(** A key reads back as the two coordinates it was built from. *)
Lemma split_key x y :
  GameWorld.split (GameWorld.key x y) = [GameWorld.toString x; GameWorld.toString y].
Proof.
  unfold GameWorld.key.
  change ("," +:+ GameWorld.toString y)%string with (String ","%char (GameWorld.toString y)).
  rewrite split_append by apply commaFree_toString.
  rewrite split_commaFree by apply commaFree_toString. reflexivity.
Qed.

Lemma key_inj x y x' y' : GameWorld.key x y = GameWorld.key x' y' -> x = x' /\ y = y'.
Proof.
  intros H. apply (f_equal GameWorld.split) in H. rewrite !split_key in H.
  injection H as Hx Hy.
  apply (f_equal GameWorld.parseInt) in Hx, Hy. rewrite !parseInt_toString in Hx, Hy.
  split; congruence.
Qed.

(** ** The chunk cache *)

Section World.

Variables Math_sin Math_cos : float -> float.

Local Abbreviation getOrGenerateChunk := (GameWorld.getOrGenerateChunk Math_sin Math_cos).
Local Abbreviation getOrGenerateChunks := (GameWorld.getOrGenerateChunks Math_sin Math_cos).
Local Abbreviation addPlayer := (GameWorld.addPlayer Math_sin Math_cos).
Local Abbreviation getNewChunksForPlayer :=
  (GameWorld.getNewChunksForPlayer Math_sin Math_cos).
Local Abbreviation reachable := (GameWorld.reachable Math_sin Math_cos).

Lemma sameButChunks_refl w : sameButChunks w w.
Proof. repeat split. Qed.

Lemma sameButChunks_trans w1 w2 w3 :
  sameButChunks w1 w2 -> sameButChunks w2 w3 -> sameButChunks w1 w3.
Proof.
  unfold sameButChunks. intros (?&?&?&?&?&?&?) (?&?&?&?&?&?&?).
  repeat split; congruence.
Qed.

Lemma getOrGenerateChunk_frame w k : sameButChunks w (snd (getOrGenerateChunk w k)).
Proof.
  unfold GameWorld.getOrGenerateChunk.
  destruct (GameWorld.loadedChunks w !! k); [apply sameButChunks_refl|].
  destruct (match _ with Some _ => _ | None => _ end) as [chunk g].
  repeat split.
Qed.

Lemma getOrGenerateChunks_frame keys : forall w,
  sameButChunks w (snd (getOrGenerateChunks w keys)).
Proof.
  induction keys as [|k keys IH]; intros w; cbn [GameWorld.getOrGenerateChunks].
  - apply sameButChunks_refl.
  - pose proof (getOrGenerateChunk_frame w k) as H1.
    destruct (getOrGenerateChunk w k) as [chunk w1]. cbn [snd] in H1.
    pose proof (IH w1) as H2.
    destruct (getOrGenerateChunks w1 keys) as [chunks w2]. cbn [snd] in *.
    eapply sameButChunks_trans; eassumption.
Qed.

Lemma getOrGenerateChunk_keyed w x y :
  cacheKeyed w ->
  let r := getOrGenerateChunk w (GameWorld.key x y) in
  chunkKey (fst r) = GameWorld.key x y /\ cacheKeyed (snd r) /\
  GameWorld.loadedChunks (snd r) !! GameWorld.key x y = Some (fst r).
Proof.
  intros Hw. unfold GameWorld.getOrGenerateChunk.
  destruct (GameWorld.loadedChunks w !! GameWorld.key x y) as [c|] eqn:Hc; cbn zeta.
  - cbn [fst snd]. split; [exact (Hw _ _ Hc)|]. split; [exact Hw | exact Hc].
  - rewrite split_key. cbn [lookup list_lookup mbind option_bind].
    rewrite !parseInt_toString.
    pose proof (generateChunk_fst Math_sin Math_cos (GameWorld.chunkGenerator w) x y) as Hf.
    destruct (ChunkGenerator.generateChunk _ _ _ x y) as [chunk g]. cbn [fst snd] in *.
    assert (chunkKey chunk = GameWorld.key x y) as Hk by (rewrite Hf; reflexivity).
    split; [exact Hk|]. split.
    + intros k c. cbn [GameWorld.loadedChunks].
      rewrite lookup_insert. case_decide as Hkk.
      * intros [= <-]. congruence.
      * apply Hw.
    + cbn [GameWorld.loadedChunks]. apply lookup_insert_eq.
Qed.

(** A cached chunk stays where it is. *)
Lemma getOrGenerateChunk_keeps w k' k c :
  GameWorld.loadedChunks w !! k = Some c ->
  GameWorld.loadedChunks (snd (getOrGenerateChunk w k')) !! k = Some c.
Proof.
  intros H. unfold GameWorld.getOrGenerateChunk.
  destruct (GameWorld.loadedChunks w !! k') eqn:Hk'; [exact H|].
  destruct (match _ with Some _ => _ | None => _ end) as [chunk g].
  cbn [snd GameWorld.loadedChunks]. rewrite lookup_insert_ne by congruence. exact H.
Qed.

Lemma getOrGenerateChunks_keeps keys : forall w k c,
  GameWorld.loadedChunks w !! k = Some c ->
  GameWorld.loadedChunks (snd (getOrGenerateChunks w keys)) !! k = Some c.
Proof.
  induction keys as [|k' keys IH]; intros w k c H; cbn [GameWorld.getOrGenerateChunks];
    [exact H|].
  pose proof (getOrGenerateChunk_keeps w k' k c H) as H1.
  destruct (getOrGenerateChunk w k') as [chunk w1]. cbn [snd] in H1.
  pose proof (IH w1 k c H1) as H2.
  destruct (getOrGenerateChunks w1 keys) as [chunks w2]. exact H2.
Qed.

(** Asked for keys made by the template, the cache answers with one
    chunk per key, in order, and holds each of them afterwards. *)
Lemma getOrGenerateChunks_keyed keys : forall w,
  cacheKeyed w -> Forall builtKey keys ->
  map chunkKey (fst (getOrGenerateChunks w keys)) = keys /\
  cacheKeyed (snd (getOrGenerateChunks w keys)) /\
  Forall (fun c =>
            GameWorld.loadedChunks (snd (getOrGenerateChunks w keys)) !! chunkKey c
            = Some c)
         (fst (getOrGenerateChunks w keys)).
Proof.
  induction keys as [|k keys IH]; intros w Hw Hkeys; cbn [GameWorld.getOrGenerateChunks].
  - split; [reflexivity|]. split; [exact Hw | constructor].
  - apply Forall_cons in Hkeys as [(x & y & ->) Hkeys].
    destruct (getOrGenerateChunk_keyed w x y Hw) as (H1 & H2 & H3).
    destruct (getOrGenerateChunk w (GameWorld.key x y)) as [chunk w1]. cbn [fst snd] in *.
    destruct (IH w1 H2 Hkeys) as (H4 & H5 & H6).
    pose proof (getOrGenerateChunks_keeps keys w1 _ _ H3) as H7.
    destruct (getOrGenerateChunks w1 keys) as [chunks w2]. cbn [fst snd map] in *.
    split; [congruence|]. split; [exact H5|].
    constructor; [rewrite H1; exact H7 | exact H6].
Qed.

Lemma getOrGenerateChunks_cacheKeyed keys w :
  cacheKeyed w -> Forall builtKey keys ->
  cacheKeyed (snd (getOrGenerateChunks w keys)).
Proof. intros Hw Hkeys. apply (getOrGenerateChunks_keyed keys w Hw Hkeys). Qed.

Lemma getChunksForPosition_In w position distance k :
  In k (GameWorld.getChunksForPosition w position distance) ->
  exists x y, k = GameWorld.key x y /\ 0 <= x /\ 0 <= y /\
    x * GameWorld.chunkSize w < GameWorld.worldWidth w /\
    y * GameWorld.chunkSize w < GameWorld.worldHeight w.
Proof.
  unfold GameWorld.getChunksForPosition. intros H.
  apply in_flat_map in H as (x & _ & H). apply in_flat_map in H as (y & _ & H).
  destruct (Z.ltb_spec x 0); [destruct H|].
  destruct (Z.ltb_spec y 0); [destruct H|].
  destruct (Z.geb_spec (x * GameWorld.chunkSize w) (GameWorld.worldWidth w)); [destruct H|].
  destruct (Z.geb_spec (y * GameWorld.chunkSize w) (GameWorld.worldHeight w)); [destruct H|].
  cbn in H. destruct H as [<-|[]]. exists x, y. repeat split; lia.
Qed.

Lemma getChunksForPosition_built w position distance :
  Forall builtKey (GameWorld.getChunksForPosition w position distance).
Proof.
  apply List.Forall_forall. intros k Hk.
  apply getChunksForPosition_In in Hk as (x & y & -> & _). exists x, y. reflexivity.
Qed.

Lemma filter_built (f : string -> bool) keys :
  Forall builtKey keys -> Forall builtKey (List.filter f keys).
Proof.
  rewrite !List.Forall_forall. intros H k Hk. apply filter_In in Hk as [Hk _]. auto.
Qed.

(** The dimensions are those set by the constructor. *)
Lemma getChunksForPosition_same w w' position distance :
  sameButChunks w w' ->
  GameWorld.getChunksForPosition w' position distance =
  GameWorld.getChunksForPosition w position distance.
Proof.
  intros (_&_&_&_&Hw&Hh&Hc). unfold GameWorld.getChunksForPosition.
  rewrite Hw, Hh, Hc. reflexivity.
Qed.

Lemma reachable_cacheKeyed w : reachable w -> cacheKeyed w.
Proof.
  induction 1 as [id maxPlayers | w player _ IH | w player _ IH | w playerId _ IH
                 | w position distance _ IH | w player _ IH | w position _ IH].
  - intros k c H. cbn in H. rewrite lookup_empty in H. discriminate.
  - unfold GameWorld.addPlayer. destruct (decide _); [exact IH|].
    apply getOrGenerateChunks_cacheKeyed; [exact IH | apply getChunksForPosition_built].
  - unfold GameWorld.updatePlayer. destruct (decide _); exact IH.
  - exact IH.
  - apply getOrGenerateChunks_cacheKeyed; [exact IH | apply getChunksForPosition_built].
  - apply getOrGenerateChunks_cacheKeyed; [exact IH|].
    apply filter_built, getChunksForPosition_built.
  - unfold GameWorld.getChunkAtPosition, GameWorld.getChunkKey.
    apply getOrGenerateChunk_keyed, IH.
Qed.

End World.

(** ** The world's operations *)

Section Operations.

Variables Math_sin Math_cos : float -> float.

Local Abbreviation getOrGenerateChunks := (GameWorld.getOrGenerateChunks Math_sin Math_cos).
Local Abbreviation addPlayer := (GameWorld.addPlayer Math_sin Math_cos).
Local Abbreviation getNewChunksForPlayer :=
  (GameWorld.getNewChunksForPlayer Math_sin Math_cos).
Local Abbreviation reachable := (GameWorld.reachable Math_sin Math_cos).

Lemma addPlayer_known w player :
  is_Some (GameWorld.players w !! Player.id player) -> addPlayer w player = w.
Proof. intros H. unfold GameWorld.addPlayer. destruct (decide _); [reflexivity|contradiction]. Qed.

Lemma addPlayer_fresh w player :
  GameWorld.players w !! Player.id player = None ->
  GameWorld.players (addPlayer w player)
    = <[Player.id player := player]> (GameWorld.players w) /\
  GameWorld.playerChunks (addPlayer w player)
    = <[Player.id player :=
          list_to_set (GameWorld.getChunksForPosition w (Player.position player) 2)]>
        (GameWorld.playerChunks w) /\
  GameWorld.maxPlayers (addPlayer w player) = GameWorld.maxPlayers w /\
  GameWorld.worldWidth (addPlayer w player) = GameWorld.worldWidth w /\
  GameWorld.worldHeight (addPlayer w player) = GameWorld.worldHeight w /\
  GameWorld.chunkSize (addPlayer w player) = GameWorld.chunkSize w.
Proof.
  intros H. unfold GameWorld.addPlayer.
  destruct (decide _) as [[q Hq]|_]; [congruence|].
  match goal with |- context [GameWorld.getOrGenerateChunks _ _ ?w1 ?keys] =>
    destruct (getOrGenerateChunks_frame Math_sin Math_cos keys w1)
      as (_ & Hp & Hm & Hc & Hw & Hh & Hs) end.
  cbn in *. repeat split; assumption.
Qed.

Lemma getNewChunksForPlayer_frame w player :
  GameWorld.players (snd (getNewChunksForPlayer w player)) = GameWorld.players w /\
  GameWorld.playerChunks (snd (getNewChunksForPlayer w player))
    = <[Player.id player :=
          list_to_set (GameWorld.getChunksForPosition w (Player.position player) 2)]>
        (GameWorld.playerChunks w) /\
  GameWorld.worldWidth (snd (getNewChunksForPlayer w player)) = GameWorld.worldWidth w /\
  GameWorld.worldHeight (snd (getNewChunksForPlayer w player)) = GameWorld.worldHeight w /\
  GameWorld.chunkSize (snd (getNewChunksForPlayer w player)) = GameWorld.chunkSize w.
Proof.
  unfold GameWorld.getNewChunksForPlayer.
  match goal with |- context [GameWorld.getOrGenerateChunks _ _ ?w1 ?keys] =>
    destruct (getOrGenerateChunks_frame Math_sin Math_cos keys w1)
      as (_ & Hp & _ & Hc & Hw & Hh & Hs) end.
  cbn in *. repeat split; assumption.
Qed.

Lemma filter_seen (seen : gset string) keys :
  (forall k, In k keys -> k ∈ seen) ->
  List.filter (fun k => negb (bool_decide (k ∈ seen))) keys = [].
Proof.
  induction keys as [|k keys IH]; intros H; cbn [List.filter]; [reflexivity|].
  rewrite bool_decide_eq_true_2 by (apply H; left; reflexivity).
  cbn [negb]. apply IH. intros k' Hk'. apply H. right. exact Hk'.
Qed.

Lemma filter_unseen keys :
  List.filter (fun k => negb (bool_decide (k ∈ (∅ : gset string)))) keys = keys.
Proof.
  induction keys as [|k keys IH]; cbn [List.filter]; [reflexivity|].
  rewrite bool_decide_eq_false_2 by set_solver. cbn [negb]. rewrite IH. reflexivity.
Qed.

(** With the visibility set equal to the keys near the position, the
    delta is empty. *)
Lemma getNewChunksForPlayer_nothing w player :
  GameWorld.playerChunks w !! Player.id player =
    Some (list_to_set (GameWorld.getChunksForPosition w (Player.position player) 2)) ->
  fst (getNewChunksForPlayer w player) = [].
Proof.
  intros H. unfold GameWorld.getNewChunksForPlayer. rewrite H. cbn [default].
  rewrite filter_seen; [reflexivity|].
  intros k Hk. apply elem_of_list_to_set, list_elem_of_In, Hk.
Qed.

(** C3 (amended): for every player already present in the world, at a
    position within reach of the loops of [getChunksForPosition]
    ([withinReach]: finite quotients by the chunk size, with floors below
    2^53 - 2 in magnitude), [getNewChunksForPlayer] computes the keys S1 of
    the chunks near the player's current position, returns exactly the
    chunks whose keys are in S1 and not in the previously stored set S0
    (each one being the chunk the cache then holds under its key), and
    replaces the stored set wholesale with S1; calling it again with the
    player at an unchanged position returns an empty chunk list, and so
    does calling it immediately after [addPlayer]. *)
Theorem getNewChunksForPlayer_delta :
  (forall (w : GameWorld.t) (player stored : Player.t),
      reachable w ->
      GameWorld.players w !! Player.id player = Some stored ->
      withinReach (GameWorld.chunkSize w) (Player.position player) 2 ->
      let S1 := GameWorld.getChunksForPosition w (Player.position player) 2 in
      let S0 : gset string :=
        default ∅ (GameWorld.playerChunks w !! Player.id player) in
      let result := getNewChunksForPlayer w player in
      map chunkKey (fst result)
        = List.filter (fun k => negb (bool_decide (k ∈ S0))) S1 /\
      Forall (fun c => GameWorld.loadedChunks (snd result) !! chunkKey c = Some c)
             (fst result) /\
      GameWorld.playerChunks (snd result)
        = <[Player.id player := list_to_set S1]> (GameWorld.playerChunks w) /\
      forall again : Player.t,
        Player.id again = Player.id player ->
        Player.position again = Player.position player ->
        fst (getNewChunksForPlayer (snd result) again) = []) /\
  (forall (w : GameWorld.t) (player : Player.t),
      GameWorld.players w !! Player.id player = None ->
      withinReach (GameWorld.chunkSize w) (Player.position player) 2 ->
      fst (getNewChunksForPlayer (addPlayer w player) player) = []).
Proof.
  split.
  - intros w player stored Hw Hin _ S1 S0 result.
    destruct (getNewChunksForPlayer_frame w player) as (_ & Hc & Hww & Hwh & Hcs).
    fold result in Hc, Hww, Hwh, Hcs. fold S1 in Hc.
    assert (map chunkKey (fst result)
              = List.filter (fun k => negb (bool_decide (k ∈ S0))) S1 /\
            Forall (fun c => GameWorld.loadedChunks (snd result) !! chunkKey c = Some c)
                   (fst result)) as [Hkeys Hcached].
    { subst result. unfold GameWorld.getNewChunksForPlayer. fold S1 S0.
      match goal with |- context [GameWorld.getOrGenerateChunks _ _ ?w1 ?keys] =>
        destruct (getOrGenerateChunks_keyed Math_sin Math_cos keys w1) as (H1 & _ & H3)
      end.
      - exact (reachable_cacheKeyed Math_sin Math_cos w Hw).
      - apply filter_built, getChunksForPosition_built.
      - split; [exact H1 | exact H3]. }
    split; [exact Hkeys|]. split; [exact Hcached|]. split.
    + exact Hc.
    + intros again Hid Hpos. apply getNewChunksForPlayer_nothing.
      rewrite Hid, Hpos, Hc, lookup_insert_eq. f_equal. f_equal.
      unfold GameWorld.getChunksForPosition. rewrite Hww, Hwh, Hcs. reflexivity.
  - intros w player Hfresh _.
    destruct (addPlayer_fresh w player Hfresh) as (_ & Hc & _ & Hww & Hwh & Hcs).
    apply getNewChunksForPlayer_nothing.
    rewrite Hc, lookup_insert_eq. f_equal. f_equal.
    unfold GameWorld.getChunksForPosition. rewrite Hww, Hwh, Hcs. reflexivity.
Qed.

(** C10 (amended): if [getNewChunksForPlayer] is called for a player
    id that has no visibility set -- an id never added or already
    removed, and not passed to this method since -- at a position within
    reach of the loops of [getChunksForPosition] ([withinReach]), it treats
    the previous set as empty, returns every chunk near the player's
    position, and installs a visibility set for that id; the player
    registry is not touched, so a visibility set can exist for an id that
    has no player record. *)
Theorem getNewChunksForPlayer_unknown (w : GameWorld.t) (player : Player.t) :
  reachable w ->
  GameWorld.playerChunks w !! Player.id player = None ->
  withinReach (GameWorld.chunkSize w) (Player.position player) 2 ->
  let current := GameWorld.getChunksForPosition w (Player.position player) 2 in
  let result := getNewChunksForPlayer w player in
  map chunkKey (fst result) = current /\
  GameWorld.playerChunks (snd result) !! Player.id player = Some (list_to_set current) /\
  GameWorld.players (snd result) = GameWorld.players w /\
  (GameWorld.players w !! Player.id player = None ->
   GameWorld.players (snd result) !! Player.id player = None /\
   is_Some (GameWorld.playerChunks (snd result) !! Player.id player)).
Proof.
  intros Hw Hnone _ current result.
  destruct (getNewChunksForPlayer_frame w player) as (Hp & Hc & _).
  fold result in Hp, Hc. fold current in Hc.
  assert (map chunkKey (fst result) = current) as Hkeys.
  { subst result. unfold GameWorld.getNewChunksForPlayer. rewrite Hnone. cbn [default].
    rewrite filter_unseen.
    apply getOrGenerateChunks_keyed.
    - exact (reachable_cacheKeyed Math_sin Math_cos w Hw).
    - apply getChunksForPosition_built. }
  split; [exact Hkeys|]. split; [rewrite Hc; apply lookup_insert_eq|].
  split; [exact Hp|].
  intros Habsent. split; [rewrite Hp; exact Habsent|].
  rewrite Hc, lookup_insert_eq. eexists. reflexivity.
Qed.

End Operations.

(** C6: for every position and radius, [getChunksForPosition] never
    returns a coordinate with cx < 0 or cy < 0, nor one whose chunk origin
    (coordinate times chunkSize) lies at or beyond the world width or
    height; with worldWidth = worldHeight = 5000 and chunkSize = 500 (the
    values the constructor sets), the chunk containing position
    (2500, 2500) is (5, 5) and radius 2 yields exactly the 5 x 5 block of
    coordinates (3, 3) through (7, 7). *)
Theorem getChunksForPosition_bounds :
  (forall (w : GameWorld.t) (position : Position.t) (distance : Z) (k : string),
      In k (GameWorld.getChunksForPosition w position distance) ->
      exists x y : Z,
        k = GameWorld.key x y /\
        0 <= x /\ 0 <= y /\
        x * GameWorld.chunkSize w < GameWorld.worldWidth w /\
        y * GameWorld.chunkSize w < GameWorld.worldHeight w) /\
  (let w := GameWorld.new "world" 50 in
   GameWorld.worldWidth w = 5000 /\ GameWorld.worldHeight w = 5000 /\
   GameWorld.chunkSize w = 500 /\
   GameWorld.getChunkKey w 2500 2500 = GameWorld.key 5 5 /\
   GameWorld.getChunksForPosition w (Position.mk 2500 2500) 2 =
     flat_map (fun x => map (GameWorld.key x) [3; 4; 5; 6; 7]) [3; 4; 5; 6; 7]).
Proof.
  split.
  - intros w position distance k. apply getChunksForPosition_In.
  - cbv zeta. repeat split; vm_compute; reflexivity.
Qed.

Lemma getChunksForPosition_bounds_witness :
  let w := GameWorld.new "world" 50 in
  In "9,7"%string (GameWorld.getChunksForPosition w (Position.mk 4990.5 4100) 2) /\
  exists x y : Z,
    "9,7"%string = GameWorld.key x y /\
    0 <= x /\ 0 <= y /\
    x * GameWorld.chunkSize w < GameWorld.worldWidth w /\
    y * GameWorld.chunkSize w < GameWorld.worldHeight w.
Proof.
  intros w.
  assert (In "9,7"%string (GameWorld.getChunksForPosition w (Position.mk 4990.5 4100) 2))
    as H by (vm_compute; tauto).
  split; [exact H|].
  exact (proj1 getChunksForPosition_bounds w (Position.mk 4990.5 4100) 2 "9,7"%string H).
Defined.

(** C7 (amended): in every world state, [isFull] returns true exactly
    when the current player count is at least the configured maximum, and
    false otherwise. *)
Theorem isFull_spec (w : GameWorld.t) :
  (GameWorld.isFull w = true <-> GameWorld.maxPlayers w <= GameWorld.getPlayerCount w) /\
  (GameWorld.isFull w = false <-> GameWorld.getPlayerCount w < GameWorld.maxPlayers w).
Proof.
  unfold GameWorld.isFull, GameWorld.getPlayerCount.
  destruct (Z.geb_spec (Z.of_nat (size (GameWorld.players w))) (GameWorld.maxPlayers w));
    split; split; intros; try lia; try reflexivity; discriminate.
Qed.

(** C7, as the claim states it, fails: [addPlayer] does not look at the
    maximum, so after two joins in a world made for one player the count is
    2, not the maximum 1, and [isFull] returns true. *)
Lemma isFull_above_maximum :
  ~ (forall (Math_sin Math_cos : float -> float) (w : GameWorld.t),
       GameWorld.reachable Math_sin Math_cos w ->
       (GameWorld.isFull w = true <->
        GameWorld.getPlayerCount w = GameWorld.maxPlayers w)).
Proof.
  intros H.
  set (w1 := GameWorld.addPlayer sineTable cosineTable (GameWorld.new "world" 1) alice).
  set (w2 := GameWorld.addPlayer sineTable cosineTable w1 bob).
  destruct (addPlayer_fresh sineTable cosineTable (GameWorld.new "world" 1) alice)
    as (Hp1 & _ & Hm1 & _); [apply lookup_empty|].
  fold w1 in Hp1, Hm1.
  change (GameWorld.players (GameWorld.new "world" 1)) with (∅ : gmap string Player.t) in Hp1.
  destruct (addPlayer_fresh sineTable cosineTable w1 bob) as (Hp2 & _ & Hm2 & _).
  { rewrite Hp1, lookup_insert_ne by (vm_compute; discriminate). apply lookup_empty. }
  fold w2 in Hp2, Hm2.
  assert (GameWorld.getPlayerCount w2 = 2) as Hcount.
  { unfold GameWorld.getPlayerCount. rewrite Hp2, Hp1.
    rewrite !map_size_insert_None, map_size_empty; [reflexivity | apply lookup_empty |].
    rewrite lookup_insert_ne by (vm_compute; discriminate). apply lookup_empty. }
  assert (GameWorld.maxPlayers w2 = 1) as Hmax by (rewrite Hm2, Hm1; reflexivity).
  assert (GameWorld.reachable sineTable cosineTable w2) as Hreach
    by (apply GameWorld.reach_addPlayer, GameWorld.reach_addPlayer, GameWorld.reach_new).
  apply (H sineTable cosineTable w2) in Hreach.
  clearbody w2 w1.
  assert (GameWorld.isFull w2 = true) as Hfull.
  { unfold GameWorld.isFull. fold (GameWorld.getPlayerCount w2).
    rewrite Hcount, Hmax. reflexivity. }
  apply (proj1 Hreach) in Hfull. lia.
Qed.

(** What remains of the claim as stated: when the caller checks [isFull]
    before every [addPlayer], the count never passes the maximum, and
    [isFull] is true exactly when the two are equal. *)
Lemma guarded_count (Math_sin Math_cos : float -> float) (w : GameWorld.t) :
  GameWorld.reachableGuarded Math_sin Math_cos w ->
  0 <= GameWorld.getPlayerCount w <= GameWorld.maxPlayers w.
Proof.
  unfold GameWorld.getPlayerCount.
  induction 1 as [id maxPlayers Hmax | w player _ IH Hfull | w player _ IH
                 | w playerId _ IH | w position distance _ IH | w player _ IH
                 | w position _ IH].
  - cbn. rewrite map_size_empty. lia.
  - destruct (GameWorld.players w !! Player.id player) as [q|] eqn:Hq.
    + rewrite addPlayer_known by (eexists; exact Hq). exact IH.
    + destruct (addPlayer_fresh Math_sin Math_cos w player Hq) as (Hp & _ & Hm & _).
      rewrite Hp, Hm, map_size_insert_None by exact Hq.
      unfold GameWorld.isFull in Hfull.
      destruct (Z.geb_spec (Z.of_nat (size (GameWorld.players w))) (GameWorld.maxPlayers w));
        [discriminate | lia].
  - unfold GameWorld.updatePlayer. destruct (decide _) as [Hq|_]; [|exact IH].
    cbn. rewrite map_size_insert_Some by exact Hq. exact IH.
  - cbn. rewrite map_size_delete.
    destruct (GameWorld.players w !! playerId); cbn; lia.
  - destruct (getOrGenerateChunks_frame Math_sin Math_cos
                (GameWorld.getChunksForPosition w position distance) w)
      as (_ & Hp & Hm & _).
    unfold GameWorld.getChunksNearPosition. rewrite Hp, Hm. exact IH.
  - destruct (getNewChunksForPlayer_frame Math_sin Math_cos w player) as (Hp & _).
    rewrite Hp.
    unfold GameWorld.getNewChunksForPlayer.
    match goal with |- context [GameWorld.getOrGenerateChunks _ _ ?w1 ?keys] =>
      destruct (getOrGenerateChunks_frame Math_sin Math_cos keys w1) as (_ & _ & Hm & _) end.
    rewrite Hm. exact IH.
  - destruct (getOrGenerateChunk_frame Math_sin Math_cos w
                (GameWorld.getChunkKey w (Position.x position) (Position.y position)))
      as (_ & Hp & Hm & _).
    unfold GameWorld.getChunkAtPosition. rewrite Hp, Hm. exact IH.
Qed.

Lemma isFull_guarded (Math_sin Math_cos : float -> float) (w : GameWorld.t) :
  GameWorld.reachableGuarded Math_sin Math_cos w ->
  (GameWorld.isFull w = true <-> GameWorld.getPlayerCount w = GameWorld.maxPlayers w).
Proof.
  intros H. apply guarded_count in H.
  unfold GameWorld.isFull, GameWorld.getPlayerCount in *.
  destruct (Z.geb_spec (Z.of_nat (size (GameWorld.players w))) (GameWorld.maxPlayers w));
    split; intros; try lia; try reflexivity; discriminate.
Qed.


Lemma withinReach_world (w : GameWorld.t) (position : Position.t) (distance : Z) :
  GameWorld.chunkSize w = 500 ->
  withinReach 500 position distance ->
  withinReach (GameWorld.chunkSize w) position distance.
Proof. intros ->. auto. Qed.

Lemma removePlayer_chunkSize (w : GameWorld.t) (playerId : string) :
  GameWorld.chunkSize (GameWorld.removePlayer w playerId) = GameWorld.chunkSize w.
Proof. reflexivity. Qed.

Lemma getNewChunksForPlayer_delta_witness :
  let w := GameWorld.addPlayer sineTable cosineTable (GameWorld.new "world" 50) alice in
  let moved := Player.mk "a" "alice" (Position.mk 2600.25 3100) Direction.up true 40 in
  GameWorld.reachable sineTable cosineTable w /\
  GameWorld.players w !! Player.id moved = Some alice /\
  withinReach (GameWorld.chunkSize w) (Player.position moved) 2 /\
  GameWorld.playerChunks
    (snd (GameWorld.getNewChunksForPlayer sineTable cosineTable w moved))
    = <[Player.id moved :=
          list_to_set (GameWorld.getChunksForPosition w (Player.position moved) 2)]>
        (GameWorld.playerChunks w).
Proof.
  intros w moved.
  assert (GameWorld.reachable sineTable cosineTable w) as Hreach
    by apply GameWorld.reach_addPlayer, GameWorld.reach_new.
  assert (GameWorld.players w !! Player.id moved = Some alice) as Hin.
  { destruct (addPlayer_fresh sineTable cosineTable (GameWorld.new "world" 50) alice)
      as (Hp & _); [apply lookup_empty|].
    fold w in Hp. rewrite Hp. apply lookup_insert_eq. }
  assert (withinReach (GameWorld.chunkSize w) (Player.position moved) 2) as Hnear.
  { apply withinReach_world.
    - destruct (addPlayer_fresh sineTable cosineTable (GameWorld.new "world" 50) alice)
        as (_ & _ & _ & _ & _ & Hcs); [apply lookup_empty|].
      fold w in Hcs. rewrite Hcs. reflexivity.
    - repeat split; vm_compute; reflexivity. }
  split; [exact Hreach|]. split; [exact Hin|]. split; [exact Hnear|].
  exact (proj1 (proj2 (proj2 (proj1 (getNewChunksForPlayer_delta sineTable cosineTable)
                                w moved alice Hreach Hin Hnear)))).
Defined.

(** ** The loops of [getChunksForPosition] on doubles *)

(** A column in which no key passes the test against the world leaves the
    keys as they are, if it ends. *)
Lemma columnLoop_skip (w : GameWorld.t) (x hi : float) :
  (num (GameWorld.worldWidth w) <=? x * num (GameWorld.chunkSize w))%float = true ->
  forall fuel y chunkKeys,
    Binary64.columnLoop fuel w x y hi chunkKeys = None \/
    Binary64.columnLoop fuel w x y hi chunkKeys = Some chunkKeys.
Proof.
  intros Hx. induction fuel as [|fuel IH]; intros y chunkKeys;
    cbn [Binary64.columnLoop]; [left; reflexivity|].
  destruct (y <=? hi)%float; [|right; reflexivity].
  rewrite Hx, orb_true_r. cbn [orb]. apply IH.
Qed.

(** A row counter that [x++] does not change, and that passes the test of
    its loop, keeps the loop going for ever. *)
Lemma rowLoop_stuck (w : GameWorld.t) (x hi lo' hi' : float) :
  (x + 1)%float = x -> (x <=? hi)%float = true ->
  (num (GameWorld.worldWidth w) <=? x * num (GameWorld.chunkSize w))%float = true ->
  forall fuel chunkKeys, Binary64.rowLoop fuel w x hi lo' hi' chunkKeys = None.
Proof.
  intros Hnext Htest Hx. induction fuel as [|fuel IH]; intros chunkKeys;
    cbn [Binary64.rowLoop]; [reflexivity|].
  rewrite Htest.
  destruct (columnLoop_skip w x hi' Hx fuel lo' chunkKeys) as [-> | ->];
    [reflexivity|].
  rewrite Hnext. apply IH.
Qed.

Lemma getChunksForPosition_stuck (w : GameWorld.t) :
  GameWorld.worldWidth w = 5000 -> GameWorld.chunkSize w = 500 ->
  forall fuel,
    Binary64.getChunksForPosition fuel w (Player.position farAway) 2 = None.
Proof.
  intros Hww Hcs fuel. unfold Binary64.getChunksForPosition.
  apply rowLoop_stuck; rewrite ?Hww, ?Hcs; vm_compute; reflexivity.
Qed.

Lemma updatePlayer_registered (w : GameWorld.t) (player : Player.t) :
  is_Some (GameWorld.players w !! Player.id player) ->
  GameWorld.players (GameWorld.updatePlayer w player) !! Player.id player = Some player /\
  GameWorld.worldWidth (GameWorld.updatePlayer w player) = GameWorld.worldWidth w /\
  GameWorld.chunkSize (GameWorld.updatePlayer w player) = GameWorld.chunkSize w.
Proof.
  intros Hin. unfold GameWorld.updatePlayer.
  destruct (decide _) as [_|Hno]; [|contradiction].
  cbn [GameWorld.players GameWorld.worldWidth GameWorld.chunkSize].
  split; [apply lookup_insert_eq|]. split; reflexivity.
Qed.

(** C3, as the claim states it, fails far from the world.  For a player
    that is present, at position (1e19, 2500): the chunk of the position
    is 2e16 on the x axis, beyond 2^53, where [x++] changes nothing; the
    outer loop of [getChunksForPosition] starts at [x] = 2e16 - 2 = 2e16
    (rounded), its test [x <= 2e16 + 2] holds, and it never ends: the call
    returns nothing, whatever the number of rounds it is given. *)
Lemma getNewChunksForPlayer_never_returns :
  let w :=
    GameWorld.updatePlayer
      (GameWorld.addPlayer sineTable cosineTable (GameWorld.new "world" 50) alice)
      farAway in
  GameWorld.reachable sineTable cosineTable w /\
  GameWorld.players w !! Player.id farAway = Some farAway /\
  (Binary64.Math_floor (1e19 / 500) - 2 = 2e16)%float /\
  (2e16 + 1 = 2e16)%float /\
  forall fuel,
    Binary64.getNewChunksForPlayer sineTable cosineTable fuel w farAway = None.
Proof.
  intros w.
  destruct (addPlayer_fresh sineTable cosineTable (GameWorld.new "world" 50) alice
              (lookup_empty _)) as (Hp & _ & _ & Hww & _ & Hcs).
  assert (is_Some (GameWorld.players
                     (GameWorld.addPlayer sineTable cosineTable
                        (GameWorld.new "world" 50) alice) !! Player.id farAway)) as Hin
    by (rewrite Hp; eexists; apply lookup_insert_eq).
  assert (GameWorld.reachable sineTable cosineTable
            (GameWorld.addPlayer sineTable cosineTable (GameWorld.new "world" 50) alice))
    as Hjoined by apply GameWorld.reach_addPlayer, GameWorld.reach_new.
  change (GameWorld.worldWidth (GameWorld.new "world" 50)) with 5000 in Hww.
  change (GameWorld.chunkSize (GameWorld.new "world" 50)) with 500 in Hcs.
  clear Hp. subst w.
  generalize dependent (GameWorld.addPlayer sineTable cosineTable
                          (GameWorld.new "world" 50) alice).
  intros joined Hww Hcs Hin Hjoined.
  destruct (updatePlayer_registered joined farAway Hin) as (Hfar & Hww' & Hcs').
  rewrite Hww in Hww'. rewrite Hcs in Hcs'.
  split; [apply GameWorld.reach_updatePlayer, Hjoined|].
  split; [exact Hfar|].
  split; [vm_compute; reflexivity|]. split; [vm_compute; reflexivity|].
  intros fuel. unfold Binary64.getNewChunksForPlayer.
  rewrite (getChunksForPosition_stuck _ Hww' Hcs' fuel). reflexivity.
Qed.



Lemma getNewChunksForPlayer_unknown_witness :
  let w :=
    GameWorld.removePlayer
      (GameWorld.addPlayer sineTable cosineTable (GameWorld.new "world" 50) alice) "a" in
  GameWorld.reachable sineTable cosineTable w /\
  GameWorld.playerChunks w !! Player.id alice = None /\
  withinReach (GameWorld.chunkSize w) (Player.position alice) 2 /\
  map chunkKey (fst (GameWorld.getNewChunksForPlayer sineTable cosineTable w alice))
    = GameWorld.getChunksForPosition w (Player.position alice) 2.
Proof.
  intros w.
  assert (GameWorld.reachable sineTable cosineTable w) as Hreach
    by apply GameWorld.reach_removePlayer, GameWorld.reach_addPlayer, GameWorld.reach_new.
  assert (GameWorld.playerChunks w !! Player.id alice = None) as Hnone
    by apply lookup_delete_eq.
  assert (withinReach (GameWorld.chunkSize w) (Player.position alice) 2) as Hnear.
  { apply withinReach_world.
    - destruct (addPlayer_fresh sineTable cosineTable (GameWorld.new "world" 50) alice)
        as (_ & _ & _ & _ & _ & Hcs); [apply lookup_empty|].
      unfold w. rewrite removePlayer_chunkSize, Hcs. reflexivity.
    - repeat split; vm_compute; reflexivity. }
  split; [exact Hreach|]. split; [exact Hnone|]. split; [exact Hnear|].
  exact (proj1 (getNewChunksForPlayer_unknown sineTable cosineTable w alice
                  Hreach Hnone Hnear)).
Defined.

(** C10, as the claim states it, fails: after a first call for an id
    that was never added, the id is still absent from the registry but has a
    visibility set, and a second call at the same position returns no chunk
    instead of the 25 chunks near (2500, 2500). *)
Lemma getNewChunksForPlayer_unknown_twice :
  ~ (forall (Math_sin Math_cos : float -> float) (w : GameWorld.t) (player : Player.t),
       GameWorld.reachable Math_sin Math_cos w ->
       GameWorld.players w !! Player.id player = None ->
       map chunkKey (fst (GameWorld.getNewChunksForPlayer Math_sin Math_cos w player))
         = GameWorld.getChunksForPosition w (Player.position player) 2).
Proof.
  intros H.
  set (w0 := GameWorld.new "world" 50).
  set (w1 := snd (GameWorld.getNewChunksForPlayer sineTable cosineTable w0 alice)).
  destruct (getNewChunksForPlayer_frame sineTable cosineTable w0 alice)
    as (Hp & Hc & Hww & Hwh & Hcs).
  fold w1 in Hp, Hc, Hww, Hwh, Hcs.
  assert (GameWorld.getChunksForPosition w1 (Player.position alice) 2
          = GameWorld.getChunksForPosition w0 (Player.position alice) 2) as Hsame
    by (unfold GameWorld.getChunksForPosition; rewrite Hww, Hwh, Hcs; reflexivity).
  specialize (H sineTable cosineTable w1 alice).
  rewrite getNewChunksForPlayer_nothing in H.
  - rewrite Hsame in H.
    assert (length (GameWorld.getChunksForPosition w0 (Player.position alice) 2) = 25%nat)
      as Hlen by (vm_compute; reflexivity).
    rewrite <- H in Hlen.
    + discriminate Hlen.
    + apply GameWorld.reach_getNewChunksForPlayer, GameWorld.reach_new.
    + rewrite Hp. apply lookup_empty.
  - rewrite Hc, lookup_insert_eq, Hsame. reflexivity.
Qed.


(** ** The integers and the doubles *)

(** On the chunks (3, 4) and (0, 3) of the examples the two generators
    give the same chunk, field by field. *)
Lemma generateChunk_agree :
  fst (Binary64.ChunkGenerator.generateChunk sineTable cosineTable square
         (Binary64.ChunkGenerator.new 5000 5000 500) 3 4)
    = asDoubles (fst (ChunkGenerator.generateChunk sineTable cosineTable
                        (ChunkGenerator.new 5000 5000 500) 3 4)) /\
  fst (Binary64.ChunkGenerator.generateChunk sineTable cosineTable square
         (Binary64.ChunkGenerator.new 5000 5000 500) 0 3)
    = asDoubles (fst (ChunkGenerator.generateChunk sineTable cosineTable
                        (ChunkGenerator.new 5000 5000 500) 0 3)).
Proof. split; vm_compute; reflexivity. Qed.

(** In the world, the loops on doubles give the keys of
    [GameWorld.getChunksForPosition]; on a position that is not a number
    they give none (every test of the loops fails), where 0 stands for the
    chunk of that position in [GameWorld.getChunksForPosition]. *)
Lemma getChunksForPosition_agree :
  let w := GameWorld.new "world" 50 in
  Binary64.getChunksForPosition 12 w (Position.mk 2500 2500) 2
    = Some (GameWorld.getChunksForPosition w (Position.mk 2500 2500) 2) /\
  Binary64.getChunksForPosition 12 w (Position.mk (-1) 5200) 2
    = Some (GameWorld.getChunksForPosition w (Position.mk (-1) 5200) 2) /\
  Binary64.getChunksForPosition 12 w (Position.mk nan 2500) 2 = Some [] /\
  length (GameWorld.getChunksForPosition w (Position.mk nan 2500) 2) = 15%nat.
Proof. intros w. repeat split; vm_compute; reflexivity. Qed.

(** ** The loops on doubles, in and around the world *)

Lemma digits2_pos_lower m : 2 ^ (Z.pos (digits2_pos m) - 1) <= Z.pos m.
Proof.
  induction m as [m IH|m IH|]; cbn [digits2_pos].
  - rewrite Pos2Z.inj_succ.
    replace (Z.succ (Z.pos (digits2_pos m)) - 1) with (Z.succ (Z.pos (digits2_pos m) - 1))
      by lia.
    rewrite Z.pow_succ_r by lia. lia.
  - rewrite Pos2Z.inj_succ.
    replace (Z.succ (Z.pos (digits2_pos m)) - 1) with (Z.succ (Z.pos (digits2_pos m) - 1))
      by lia.
    rewrite Z.pow_succ_r by lia. lia.
  - reflexivity.
Qed.

(** A double with a non-negative exponent is at least 2^52 in magnitude. *)
Lemma valid_large s m e :
  valid_binary (S754_finite s m e) = true -> 0 <= e -> 2 ^ 52 <= Z.pos m.
Proof.
  cbn [SpecFloat.valid_binary]. unfold bounded, canonical_mantissa, fexp, emin, emax, prec.
  intros H He. apply andb_prop in H as [H _]. apply Z.eqb_eq in H.
  pose proof (digits2_pos_lower m) as Hm.
  assert (Z.pos (digits2_pos m) = 53) as Hd by lia.
  rewrite Hd in Hm. exact Hm.
Qed.

Lemma is_finite_Prim2SF (f : float) :
  PrimFloat.is_finite f = true ->
  (exists s, Prim2SF f = S754_zero s) \/ (exists s m e, Prim2SF f = S754_finite s m e).
Proof.
  unfold PrimFloat.is_finite, is_nan, is_infinity.
  rewrite !FloatAxioms.eqb_spec, FloatAxioms.abs_spec.
  change (Prim2SF infinity) with (S754_infinity false).
  destruct (Prim2SF f) as [s|s| |s m e]; cbn; try discriminate; eauto.
  - destruct s; discriminate.
Qed.

(** The bounds of the loops, from the floor of a finite quotient that is
    small: those of [Binary64] are the doubles of those of [GameWorld]. *)
Lemma loop_bounds (q : float) :
  PrimFloat.is_finite q = true -> Z.abs (Math_floor q) < 2 ^ 52 ->
  (Binary64.Math_floor q - 2 = num (Math_floor q) - 2)%float /\
  (Binary64.Math_floor q + 2 = num (Math_floor q) + 2)%float.
Proof.
  intros Hfin Hsmall. pose proof (Prim2SF_valid q) as Hvalid.
  unfold Binary64.Math_floor.
  destruct (is_finite_Prim2SF q Hfin) as [[s Hq]|(s & m & e & Hq)].
  - rewrite Hq. unfold Math_floor. rewrite Hq.
    rewrite <- (SF2Prim_Prim2SF q), Hq. destruct s; split; reflexivity.
  - rewrite Hq. rewrite Hq in Hvalid. destruct (Z.leb_spec 0 e) as [He|He];
      [|split; reflexivity].
    exfalso. pose proof (valid_large s m e Hvalid He) as Hm.
    unfold Math_floor in Hsmall. rewrite Hq in Hsmall.
    rewrite Z.shiftl_mul_pow2 in Hsmall by exact He.
    assert (0 < 2 ^ e) by (apply Z.pow_pos_nonneg; lia).
    destruct s; nia.
Qed.

(** The loops only read the three dimensions of the world. *)
Lemma columnLoop_dimensions (w w' : GameWorld.t) :
  GameWorld.worldWidth w' = GameWorld.worldWidth w ->
  GameWorld.worldHeight w' = GameWorld.worldHeight w ->
  GameWorld.chunkSize w' = GameWorld.chunkSize w ->
  forall fuel x y hi chunkKeys,
    Binary64.columnLoop fuel w' x y hi chunkKeys
    = Binary64.columnLoop fuel w x y hi chunkKeys.
Proof.
  intros Hww Hwh Hcs. induction fuel as [|fuel IH]; intros x y hi chunkKeys;
    cbn [Binary64.columnLoop]; [reflexivity|].
  rewrite Hww, Hwh, Hcs, !IH. reflexivity.
Qed.

Lemma rowLoop_dimensions (w w' : GameWorld.t) :
  GameWorld.worldWidth w' = GameWorld.worldWidth w ->
  GameWorld.worldHeight w' = GameWorld.worldHeight w ->
  GameWorld.chunkSize w' = GameWorld.chunkSize w ->
  forall fuel x hi lo' hi' chunkKeys,
    Binary64.rowLoop fuel w' x hi lo' hi' chunkKeys
    = Binary64.rowLoop fuel w x hi lo' hi' chunkKeys.
Proof.
  intros Hww Hwh Hcs. induction fuel as [|fuel IH]; intros x hi lo' hi' chunkKeys;
    cbn [Binary64.rowLoop]; [reflexivity|].
  rewrite (columnLoop_dimensions w w' Hww Hwh Hcs).
  destruct (x <=? hi)%float; [|reflexivity].
  destruct (Binary64.columnLoop fuel w x lo' hi' chunkKeys); [apply IH | reflexivity].
Qed.

(** Checked on each chunk of [-64, 64) x [-64, 64). *)
Lemma loops_agree_window :
  forallZ 7 (-64)
    (fun cX => forallZ 7 (-64) (fun cY => loopsAgree (GameWorld.new "world" 50) cX cY))
  = true.
Proof. vm_compute. reflexivity. Qed.

(** For a position whose chunk is within 64 chunks of the origin (the
    world is the chunks 0..9), the loops of [getChunksForPosition] on
    doubles end, and they give the keys of [GameWorld.getChunksForPosition]:
    in and around the world the method returns, and returns what the
    integers say. *)
Lemma getChunksForPosition_refined (w : GameWorld.t) (position : Position.t) :
  GameWorld.worldWidth w = 5000 -> GameWorld.worldHeight w = 5000 ->
  GameWorld.chunkSize w = 500 ->
  PrimFloat.is_finite (Position.x position / 500) = true ->
  PrimFloat.is_finite (Position.y position / 500) = true ->
  -64 <= Math_floor (Position.x position / 500) < 64 ->
  -64 <= Math_floor (Position.y position / 500) < 64 ->
  Binary64.getChunksForPosition 12 w position 2
  = Some (GameWorld.getChunksForPosition w position 2).
Proof.
  intros Hww Hwh Hcs Hfx Hfy Hx Hy.
  unfold Binary64.getChunksForPosition, GameWorld.getChunksForPosition.
  rewrite Hcs. change (num 500) with 500%float.
  set (cX := Math_floor (Position.x position / 500)) in *.
  set (cY := Math_floor (Position.y position / 500)) in *.
  destruct (loop_bounds (Position.x position / 500) Hfx) as [-> ->];
    [fold cX; change (2 ^ 52) with 4503599627370496; lia|].
  destruct (loop_bounds (Position.y position / 500) Hfy) as [-> ->];
    [fold cY; change (2 ^ 52) with 4503599627370496; lia|].
  fold cX cY.
  rewrite (rowLoop_dimensions (GameWorld.new "world" 50) w Hww Hwh Hcs).
  pose proof (forallZ_spec _ _ _ loops_agree_window cX
                ltac:(change (2 ^ Z.of_nat 7) with 128; lia)) as Hrow.
  cbv beta in Hrow.
  pose proof (forallZ_spec _ _ _ Hrow cY
                ltac:(change (2 ^ Z.of_nat 7) with 128; lia)) as Hcell.
  cbv beta in Hcell. unfold loopsAgree in Hcell.
  destruct (Binary64.rowLoop 12 (GameWorld.new "world" 50)
              (num cX - 2) (num cX + 2) (num cY - 2) (num cY + 2) []) as [keys|];
    [|discriminate].
  apply bool_decide_eq_true_1 in Hcell. rewrite Hcell.
  unfold keysAround. rewrite Hww, Hwh.
  change (GameWorld.chunkSize (GameWorld.new "world" 50)) with 500.
  change (GameWorld.worldWidth (GameWorld.new "world" 50)) with 5000.
  change (GameWorld.worldHeight (GameWorld.new "world" 50)) with 5000.
  reflexivity.
Qed.

(** So does [getNewChunksForPlayer]. *)
Lemma getNewChunksForPlayer_refined (Math_sin Math_cos : float -> float)
    (w : GameWorld.t) (player : Player.t) :
  GameWorld.worldWidth w = 5000 -> GameWorld.worldHeight w = 5000 ->
  GameWorld.chunkSize w = 500 ->
  PrimFloat.is_finite (Position.x (Player.position player) / 500) = true ->
  PrimFloat.is_finite (Position.y (Player.position player) / 500) = true ->
  -64 <= Math_floor (Position.x (Player.position player) / 500) < 64 ->
  -64 <= Math_floor (Position.y (Player.position player) / 500) < 64 ->
  Binary64.getNewChunksForPlayer Math_sin Math_cos 12 w player
  = Some (GameWorld.getNewChunksForPlayer Math_sin Math_cos w player).
Proof.
  intros Hww Hwh Hcs Hfx Hfy Hx Hy. unfold Binary64.getNewChunksForPlayer.
  rewrite (getChunksForPosition_refined w (Player.position player)
             Hww Hwh Hcs Hfx Hfy Hx Hy).
  reflexivity.
Qed.

(** * Further properties of the code *)

(** ** Ranges of the generated values *)

Lemma Math_floor_nonneg f : (0 <=? f)%float = true -> 0 <= Math_floor f.
Proof.
  rewrite FloatAxioms.leb_spec. unfold Math_floor.
  change (Prim2SF 0) with (S754_zero false).
  destruct (Prim2SF f) as [| | |s m e]; try lia.
  destruct s; cbn; [discriminate|]. intros _. apply Z.shiftl_nonneg. lia.
Qed.

Lemma shiftl_pos_below (m : positive) (e n : Z) :
  e <= 0 -> Z.pos m < n * 2 ^ (- e) -> Z.shiftl (Z.pos m) e < n.
Proof.
  intros He Hm.
  replace (Z.shiftl (Z.pos m) e) with (Z.shiftr (Z.pos m) (- e))
    by (rewrite <- Z.shiftl_opp_r; f_equal; lia).
  rewrite Z.shiftr_div_pow2 by lia.
  apply Z.div_lt_upper_bound; [apply Z.pow_pos_nonneg; lia | lia].
Qed.

Lemma shiftl_neg_nonpos (m : positive) (e : Z) : Z.shiftl (Z.neg m) e <= 0.
Proof.
  destruct (Z.le_gt_cases 0 e) as [He|He].
  - rewrite Z.shiftl_mul_pow2 by lia.
    pose proof (Z.pow_pos_nonneg 2 e ltac:(lia) He). nia.
  - replace (Z.shiftl (Z.neg m) e) with (Z.shiftr (Z.neg m) (- e))
      by (rewrite <- Z.shiftl_opp_r; f_equal; lia).
    rewrite Z.shiftr_div_pow2 by lia.
    assert (Z.neg m / 2 ^ (- e) < 1); [|lia].
    apply Z.div_lt_upper_bound; [apply Z.pow_pos_nonneg; lia | lia].
Qed.

(** [Math_floor f] is below the integer [n] when the double [f] is below
    the double [n]. *)
Lemma Math_floor_below (f : float) (n : Z) :
  exactFactor n = true -> (f <? num n)%float = true -> Math_floor f < n.
Proof.
  unfold exactFactor. rewrite FloatAxioms.ltb_spec. unfold Math_floor.
  pose proof (Prim2SF_valid f) as Hv.
  destruct (Prim2SF (num n)) as [| | |s0 m0 e0]; try discriminate.
  destruct s0; [discriminate|]. intros Hn.
  apply andb_prop in Hn as [Hn H52]. apply andb_prop in Hn as [He0 Hm0].
  apply Z.leb_le in He0, H52. apply Z.eqb_eq in Hm0.
  assert (0 < n) as Hn0.
  { pose proof (Z.pow_pos_nonneg 2 (- e0) ltac:(lia) ltac:(lia)). nia. }
  destruct (Prim2SF f) as [| | |s m e]; try lia.
  destruct s.
  - intros _. pose proof (shiftl_neg_nonpos m e). lia.
  - apply valid_mantissa in Hv.
    unfold SFltb, SFcompare.
    destruct (Z.compare_spec e e0) as [Heq|Hlt|Hgt]; cbn; try discriminate.
    + subst e. rewrite Pos.compare_cont_spec. cbn [Pos.switch_Eq].
      destruct (Pos.compare_spec m m0) as [Hm|Hm|Hm]; cbn; try discriminate; intros _.
      apply shiftl_pos_below; lia.
    + intros _. apply shiftl_pos_below; [lia|].
      assert (2 * 2 ^ (- e0) <= 2 ^ (- e)).
      { rewrite <- Z.pow_succ_r by lia. apply Z.pow_le_mono_r; lia. }
      change (2 ^ 53) with (2 * 2 ^ 52) in Hv. nia.
Qed.

Lemma factors_exact : forallb exactFactor factors = true.
Proof. vm_compute. reflexivity. Qed.

(** Checked on each state in [0, 233280). *)
Lemma products_in_range_states :
  (let cs := map num factors in forallZ 18 0 (productsInRange cs)) = true.
Proof. vm_compute. reflexivity. Qed.

Lemma products_in_range st :
  0 <= st ->
  let r := fst (ChunkGenerator.random st) in
  (forall n, In n factors -> inRange 0 (num n) (r * num n) = true) /\
  inRange 110 140 (110 + r * 30) = true /\ inRange 70 80 (70 + r * 10) = true /\
  inRange 35 50 (35 + r * 15) = true /\
  inRange 100 150 (100 + r * 50) = true /\ inRange 65 80 (65 + r * 15) = true /\
  inRange 30 45 (30 + r * 15) = true.
Proof.
  intros Hst r. subst r. rewrite random_value.
  pose proof (random_state_nonneg st Hst) as Hb.
  pose proof (forallZ_spec _ _ _ products_in_range_states
                (snd (ChunkGenerator.random st))
                ltac:(change (2 ^ Z.of_nat 18) with 262144; lia)) as H.
  unfold productsInRange in H.
  apply orb_prop in H as [H|H]; [lia|].
  do 6 (apply andb_prop in H as [H ?]).
  repeat split; try assumption.
  intros n Hn. rewrite List.forallb_forall in H. apply H, in_map, Hn.
Qed.

(** [Math.floor (random () * n)] is one of 0, ..., n - 1. *)
Lemma floor_product_range st n :
  0 <= st -> In n factors ->
  0 <= Math_floor (fst (ChunkGenerator.random st) * num n) < n.
Proof.
  intros Hst Hn.
  destruct (products_in_range st Hst) as [H _]. specialize (H n Hn).
  unfold inRange in H. apply andb_prop in H as [H0 H1].
  split; [apply Math_floor_nonneg, H0|].
  apply Math_floor_below; [|exact H1].
  pose proof factors_exact as He. rewrite List.forallb_forall in He. apply He, Hn.
Qed.

Lemma factors_In n :
  n = 3 \/ n = 9 \/ n = 20 \/ n = 40 \/ n = 500 \/ 381 <= n < 421 \/ 441 <= n < 461 ->
  In n factors.
Proof.
  intros H. unfold factors. rewrite !in_app_iff.
  destruct H as [->|[->|[->|[->|[->|[H|H]]]]]];
    [left; cbn; tauto | left; cbn; tauto | left; cbn; tauto | left; cbn; tauto
    | left; cbn; tauto | right; left | right; right];
    apply list_elem_of_In, elem_of_seqZ; lia.
Qed.

(** The retry loop leaves a state in [0, 233280) when it starts from one,
    and a position it accepts keeps the square inside the chunk. *)
Lemma placement_inside k g cx cy size existing :
  forall x0 y0 st v x y st',
  ChunkGenerator.placement k g cx cy size existing x0 y0 st = (v, x, y, st') ->
  0 <= st ->
  0 <= st' /\
  (v = true -> ChunkGenerator.chunkSize g = 500 -> In (500 - size) factors ->
   boxInside 500 cx cy x y size).
Proof.
  induction k as [|k IH]; intros x0 y0 st v x y st' H Hst;
    cbn [ChunkGenerator.placement] in H.
  - injection H as <- <- <- <-. split; [exact Hst | discriminate].
  - pose proof (random_state_nonneg st Hst) as [Hst1 _].
    pose proof (fun n => floor_product_range st n Hst) as Hx.
    destruct (ChunkGenerator.random st) as [r1 st1]. cbn [fst snd] in Hst1, Hx.
    pose proof (random_state_nonneg st1 Hst1) as [Hst2 _].
    pose proof (fun n => floor_product_range st1 n Hst1) as Hy.
    destruct (ChunkGenerator.random st1) as [r2 st2]. cbn [fst snd] in Hst2, Hy.
    destruct (ChunkGenerator.checkCollisionWithExistingElements _ _ size existing);
      cbn [negb] in H.
    + eapply IH; [exact H | exact Hst2].
    + injection H as <- <- <- <-. split; [exact Hst2|].
      intros _ Hcs Hn. rewrite Hcs.
      specialize (Hx _ Hn). specialize (Hy _ Hn).
      unfold boxInside. lia.
Qed.

Lemma treesLoop_shaped cs cx cy n : forall g st trees,
  ChunkGenerator.chunkSize g = cs -> 0 <= st ->
  Forall (fun a => treeShaped a /\ (cs = 500 -> treeInside 500 cx cy a)) trees ->
  Forall (fun a => treeShaped a /\ (cs = 500 -> treeInside 500 cx cy a))
         (fst (ChunkGenerator.treesLoop n g cx cy st trees)).
Proof.
  induction n as [|n IH]; intros g st trees Hcs Hst HP;
    cbn [ChunkGenerator.treesLoop]; [exact HP|].
  pose proof (random_state_nonneg st Hst) as [Hst1 _].
  pose proof (floor_product_range st 40 Hst (factors_In 40 ltac:(tauto))) as Hsize.
  destruct (ChunkGenerator.random st) as [r st1]. cbn [fst snd] in Hst1, Hsize.
  pose proof (random_state_nonneg st1 Hst1) as [Hst2 _].
  pose proof (floor_product_range st1 3 Hst1 (factors_In 3 ltac:(tauto))) as Hvar.
  destruct (ChunkGenerator.random st1) as [r' st2]. cbn [fst snd] in Hst2, Hvar.
  change (num 40) with 40%float in Hsize. change (num 3) with 3%float in Hvar.
  destruct (ChunkGenerator.placement _ _ _ _ _ _ _ _ _) as [[[valid x] y] st3] eqn:Hp.
  apply placement_inside in Hp as [Hst3 Hbox]; [|exact Hst2].
  destruct valid; [|apply IH; assumption].
  pose proof (random_state_nonneg st3 Hst3) as [Hst4 _].
  destruct (products_in_range st3 Hst3) as (_ & Hh & _).
  destruct (ChunkGenerator.random st3) as [r1 st4]. cbn [fst snd] in Hst4, Hh.
  pose proof (random_state_nonneg st4 Hst4) as [Hst5 _].
  destruct (products_in_range st4 Hst4) as (_ & _ & Hs & _).
  destruct (ChunkGenerator.random st4) as [r2 st5]. cbn [fst snd] in Hst5, Hs.
  pose proof (random_state_nonneg st5 Hst5) as [Hst6 _].
  destruct (products_in_range st5 Hst5) as (_ & _ & _ & Hl & _).
  destruct (ChunkGenerator.random st5) as [r3 st6]. cbn [fst snd] in Hst6, Hl.
  apply IH; [exact Hcs | exact Hst6|].
  apply Forall_app. split; [exact HP|]. constructor; [|constructor].
  split.
  - repeat split; cbn; try lia; assumption.
  - intros ->. apply Hbox; [reflexivity | exact Hcs |].
    apply factors_In. lia.
Qed.

Lemma bushesLoop_shaped cs cx cy existing n : forall g st bushes,
  ChunkGenerator.chunkSize g = cs -> 0 <= st ->
  Forall (fun b => bushShaped b /\ (cs = 500 -> bushInside 500 cx cy b)) bushes ->
  Forall (fun b => bushShaped b /\ (cs = 500 -> bushInside 500 cx cy b))
         (fst (ChunkGenerator.bushesLoop n g cx cy existing st bushes)).
Proof.
  induction n as [|n IH]; intros g st bushes Hcs Hst HP;
    cbn [ChunkGenerator.bushesLoop]; [exact HP|].
  pose proof (random_state_nonneg st Hst) as [Hst1 _].
  pose proof (floor_product_range st 20 Hst (factors_In 20 ltac:(tauto))) as Hsize.
  destruct (ChunkGenerator.random st) as [r st1]. cbn [fst snd] in Hst1, Hsize.
  pose proof (random_state_nonneg st1 Hst1) as [Hst2 _].
  pose proof (floor_product_range st1 3 Hst1 (factors_In 3 ltac:(tauto))) as Hvar.
  destruct (ChunkGenerator.random st1) as [r' st2]. cbn [fst snd] in Hst2, Hvar.
  change (num 20) with 20%float in Hsize. change (num 3) with 3%float in Hvar.
  destruct (ChunkGenerator.placement _ _ _ _ _ _ _ _ _) as [[[valid x] y] st3] eqn:Hp.
  apply placement_inside in Hp as [Hst3 Hbox]; [|exact Hst2].
  destruct valid; [|apply IH; assumption].
  pose proof (random_state_nonneg st3 Hst3) as [Hst4 _].
  destruct (products_in_range st3 Hst3) as (_ & _ & _ & _ & Hh & _).
  destruct (ChunkGenerator.random st3) as [r1 st4]. cbn [fst snd] in Hst4, Hh.
  pose proof (random_state_nonneg st4 Hst4) as [Hst5 _].
  destruct (products_in_range st4 Hst4) as (_ & _ & _ & _ & _ & Hs & _).
  destruct (ChunkGenerator.random st4) as [r2 st5]. cbn [fst snd] in Hst5, Hs.
  pose proof (random_state_nonneg st5 Hst5) as [Hst6 _].
  destruct (products_in_range st5 Hst5) as (_ & _ & _ & _ & _ & _ & Hl).
  destruct (ChunkGenerator.random st5) as [r3 st6]. cbn [fst snd] in Hst6, Hl.
  apply IH; [exact Hcs | exact Hst6|].
  apply Forall_app. split; [exact HP|]. constructor; [|constructor].
  split.
  - repeat split; cbn; try lia; assumption.
  - intros ->. apply Hbox; [reflexivity | exact Hcs |].
    apply factors_In. lia.
Qed.

Lemma index_palette i :
  0 <= i < 9 ->
  exists c, ChunkGenerator.index ChunkGenerator.flowerColors i = Some c /\
            In c ChunkGenerator.flowerColors.
Proof.
  intros Hi. unfold ChunkGenerator.index.
  destruct (Z.ltb_spec i 0) as [?|_]; [lia|].
  destruct (lookup_lt_is_Some_2 ChunkGenerator.flowerColors (Z.to_nat i)) as [c Hc].
  { cbn [length ChunkGenerator.flowerColors]. lia. }
  exists c. split; [exact Hc | eapply lookup_In, Hc].
Qed.

Lemma flowersLoop_shaped cs cx cy existing n : forall g st flowers,
  ChunkGenerator.chunkSize g = cs -> 0 <= st ->
  Forall (fun f => flowerColoured f /\ (cs = 500 -> flowerInside 500 cx cy f)) flowers ->
  Forall (fun f => flowerColoured f /\ (cs = 500 -> flowerInside 500 cx cy f))
         (fst (ChunkGenerator.flowersLoop n g cx cy existing st flowers)).
Proof.
  induction n as [|n IH]; intros g st flowers Hcs Hst HP;
    cbn [ChunkGenerator.flowersLoop]; [exact HP|].
  pose proof (random_state_nonneg st Hst) as [Hst1 _].
  pose proof (floor_product_range st 500 Hst (factors_In 500 ltac:(tauto))) as Hx.
  destruct (ChunkGenerator.random st) as [r1 st1]. cbn [fst snd] in Hst1, Hx.
  pose proof (random_state_nonneg st1 Hst1) as [Hst2 _].
  pose proof (floor_product_range st1 500 Hst1 (factors_In 500 ltac:(tauto))) as Hy.
  destruct (ChunkGenerator.random st1) as [r2 st2]. cbn [fst snd] in Hst2, Hy.
  pose proof (random_state_nonneg st2 Hst2) as [Hst3 _].
  pose proof (floor_product_range st2 9 Hst2 (factors_In 9 ltac:(tauto))) as Hc.
  destruct (ChunkGenerator.random st2) as [r3 st3]. cbn [fst snd] in Hst3, Hc.
  destruct (existsb _ existing); cbn [negb]; [apply IH; assumption|].
  apply IH; [exact Hcs | exact Hst3|].
  apply Forall_app. split; [exact HP|]. constructor; [|constructor].
  split.
  - unfold flowerColoured. cbn [Flower.color]. apply index_palette. exact Hc.
  - intros ->. rewrite Hcs. unfold flowerInside. cbn [Flower.x Flower.y]. lia.
Qed.

Section Ranges.

Variables Math_sin Math_cos : float -> float.

Local Abbreviation generateChunk := (ChunkGenerator.generateChunk Math_sin Math_cos).

Lemma generateChunk_shaped g cx cy :
  0 <= cx * 10000 + cy ->
  let chunk := fst (generateChunk g cx cy) in
  let cs := ChunkGenerator.chunkSize g in
  Forall (fun a => treeShaped a /\ (cs = 500 -> treeInside 500 cx cy a))
         (WorldChunk.trees chunk) /\
  Forall (fun b => bushShaped b /\ (cs = 500 -> bushInside 500 cx cy b))
         (WorldChunk.bushes chunk) /\
  Forall (fun f => flowerColoured f /\ (cs = 500 -> flowerInside 500 cx cy f))
         (WorldChunk.flowers chunk).
Proof.
  intros Hseed chunk cs. subst chunk cs. rewrite generateChunk_fst.
  cbn [WorldChunk.trees WorldChunk.bushes WorldChunk.flowers].
  destruct (afterTrees_frame Math_sin g cx cy) as (Ht & _).
  destruct (afterBushes_frame Math_sin Math_cos g cx cy) as (Hb & _).
  split; [|split].
  - apply treesLoop_shaped; [reflexivity | exact Hseed | constructor].
  - rewrite <- Ht.
    apply bushesLoop_shaped;
      [reflexivity | unfold ChunkGenerator.createSeededRandom; lia | constructor].
  - rewrite <- Hb.
    apply flowersLoop_shaped;
      [reflexivity | unfold ChunkGenerator.createSeededRandom; lia | constructor].
Qed.

(** X1: in a chunk whose seed [cx * 10000 + cy] is not negative and is
    exact, with the first step of its generators ([exactSeed]), every
    tree has a size in 80..119, every bush a size in 40..59, both a variant
    in 0..2 and a colour with hue, saturation and lightness in
    [110, 140), [70, 80), [35, 50) for trees and [100, 150), [65, 80),
    [30, 45) for bushes; every flower has one of the nine palette colours
    (the palette index is never out of range). *)
Theorem generateChunk_value_ranges (g : ChunkGenerator.t) (cx cy : Z) :
  exactSeed cx cy ->
  0 <= cx * 10000 + cy ->
  let chunk := fst (generateChunk g cx cy) in
  Forall treeShaped (WorldChunk.trees chunk) /\
  Forall bushShaped (WorldChunk.bushes chunk) /\
  Forall flowerColoured (WorldChunk.flowers chunk).
Proof.
  intros _ Hseed chunk.
  destruct (generateChunk_shaped g cx cy Hseed) as (Ht & Hb & Hf).
  repeat split; eapply Forall_impl; try eassumption; cbv beta; tauto.
Qed.

(** X2: with the chunk size 500 that [GameWorld] gives its generator, a
    seed that is not negative, and coordinates in the range where the
    positions are exact ([exactChunk]), every entity lies in its chunk: the
    square [x, x + size] x [y, y + size] of a tree or a bush is inside
    [cx * 500, (cx + 1) * 500] x [cy * 500, (cy + 1) * 500], and a flower
    is a point of [cx * 500, (cx + 1) * 500) x [cy * 500, (cy + 1) * 500). *)
Theorem generateChunk_entities_inside (g : ChunkGenerator.t) (cx cy : Z) :
  ChunkGenerator.chunkSize g = 500 ->
  exactChunk 500 cx cy ->
  0 <= cx * 10000 + cy ->
  let chunk := fst (generateChunk g cx cy) in
  Forall (treeInside 500 cx cy) (WorldChunk.trees chunk) /\
  Forall (bushInside 500 cx cy) (WorldChunk.bushes chunk) /\
  Forall (flowerInside 500 cx cy) (WorldChunk.flowers chunk).
Proof.
  intros Hcs _ Hseed chunk.
  destruct (generateChunk_shaped g cx cy Hseed) as (Ht & Hb & Hf).
  repeat split; eapply Forall_impl; try eassumption; cbv beta; tauto.
Qed.

End Ranges.

Lemma generateChunk_value_ranges_witness :
  exactSeed 3 4 /\
  0 <= 3 * 10000 + 4 /\
  Forall treeShaped
    (WorldChunk.trees
       (fst (ChunkGenerator.generateChunk sineTable cosineTable
               (ChunkGenerator.new 5000 5000 500) 3 4))).
Proof.
  assert (exactSeed 3 4) as Hexact by (vm_compute; reflexivity).
  split; [exact Hexact|]. split; [lia|].
  exact (proj1 (generateChunk_value_ranges sineTable cosineTable
                  (ChunkGenerator.new 5000 5000 500) 3 4 Hexact ltac:(lia))).
Defined.

Lemma generateChunk_entities_inside_witness :
  ChunkGenerator.chunkSize (ChunkGenerator.new 5000 5000 500) = 500 /\
  exactChunk 500 3 4 /\
  0 <= 3 * 10000 + 4 /\
  Forall (treeInside 500 3 4)
    (WorldChunk.trees
       (fst (ChunkGenerator.generateChunk sineTable cosineTable
               (ChunkGenerator.new 5000 5000 500) 3 4))).
Proof.
  assert (exactChunk 500 3 4) as Hexact by (repeat split; vm_compute; reflexivity).
  split; [reflexivity|]. split; [exact Hexact|]. split; [lia|].
  exact (proj1 (generateChunk_entities_inside sineTable cosineTable
                  (ChunkGenerator.new 5000 5000 500) 3 4 eq_refl Hexact ltac:(lia))).
Defined.

(** ** Identifiers and counts *)

Lemma seqZ_snoc base (n : nat) :
  seqZ base (Z.of_nat n) ++ [base + Z.of_nat n] = seqZ base (Z.of_nat (S n)).
Proof.
  rewrite Nat2Z.inj_succ, <- Z.add_1_r, seqZ_app by lia.
  f_equal.
Qed.

Lemma ids_snoc {A} (id : A -> Z) (l : list A) (a : A) base :
  map id l = seqZ base (Z.of_nat (length l)) ->
  id a = base + Z.of_nat (length l) ->
  map id (l ++ [a]) = seqZ base (Z.of_nat (length (l ++ [a]))).
Proof.
  intros Hl Ha. rewrite map_app, Hl, length_app. cbn [map length].
  rewrite Nat.add_1_r, <- seqZ_snoc, Ha. reflexivity.
Qed.

(** The loops number what they push with the counter and advance it by
    one; they push at most one element per round, behind the others. *)
Lemma treesLoop_ids cx cy n : forall g st trees base,
  map Tree.id trees = seqZ base (Z.of_nat (length trees)) ->
  ChunkGenerator.nextTreeId g = base + Z.of_nat (length trees) ->
  let r := ChunkGenerator.treesLoop n g cx cy st trees in
  map Tree.id (fst r) = seqZ base (Z.of_nat (length (fst r))) /\
  ChunkGenerator.nextTreeId (snd r) = base + Z.of_nat (length (fst r)) /\
  (length trees <= length (fst r) <= length trees + n)%nat.
Proof.
  induction n as [|n IH]; intros g st trees base Hids Hnext;
    cbn [ChunkGenerator.treesLoop].
  - cbn [fst snd]. repeat split; [exact Hids | exact Hnext | lia | lia].
  - destruct (ChunkGenerator.random st) as [r st1].
    destruct (ChunkGenerator.random st1) as [r' st2].
    destruct (ChunkGenerator.placement _ _ _ _ _ _ _ _ _) as [[[valid x] y] st3].
    destruct valid.
    + destruct (ChunkGenerator.random st3) as [r1 st4].
      destruct (ChunkGenerator.random st4) as [r2 st5].
      destruct (ChunkGenerator.random st5) as [r3 st6].
      match goal with |- context [ChunkGenerator.treesLoop n ?g0 cx cy ?s ?l] =>
        specialize (IH g0 s l base) end.
      destruct IH as (H1 & H2 & H3).
      * apply ids_snoc; [exact Hids | exact Hnext].
      * cbn [ChunkGenerator.nextTreeId]. rewrite length_app. cbn [length]. lia.
      * rewrite length_app in H3. cbn [length] in H3.
        split; [exact H1|]. split; [exact H2 | lia].
    + destruct (IH g st3 trees base Hids Hnext) as (H1 & H2 & H3).
      split; [exact H1|]. split; [exact H2 | lia].
Qed.

Lemma bushesLoop_ids cx cy existing n : forall g st bushes base,
  map Bush.id bushes = seqZ base (Z.of_nat (length bushes)) ->
  ChunkGenerator.nextBushId g = base + Z.of_nat (length bushes) ->
  let r := ChunkGenerator.bushesLoop n g cx cy existing st bushes in
  map Bush.id (fst r) = seqZ base (Z.of_nat (length (fst r))) /\
  ChunkGenerator.nextBushId (snd r) = base + Z.of_nat (length (fst r)) /\
  (length bushes <= length (fst r) <= length bushes + n)%nat.
Proof.
  induction n as [|n IH]; intros g st bushes base Hids Hnext;
    cbn [ChunkGenerator.bushesLoop].
  - cbn [fst snd]. repeat split; [exact Hids | exact Hnext | lia | lia].
  - destruct (ChunkGenerator.random st) as [r st1].
    destruct (ChunkGenerator.random st1) as [r' st2].
    destruct (ChunkGenerator.placement _ _ _ _ _ _ _ _ _) as [[[valid x] y] st3].
    destruct valid.
    + destruct (ChunkGenerator.random st3) as [r1 st4].
      destruct (ChunkGenerator.random st4) as [r2 st5].
      destruct (ChunkGenerator.random st5) as [r3 st6].
      match goal with
      | |- context [ChunkGenerator.bushesLoop n ?g0 cx cy existing ?s ?l] =>
        specialize (IH g0 s l base) end.
      destruct IH as (H1 & H2 & H3).
      * apply ids_snoc; [exact Hids | exact Hnext].
      * cbn [ChunkGenerator.nextBushId]. rewrite length_app. cbn [length]. lia.
      * rewrite length_app in H3. cbn [length] in H3.
        split; [exact H1|]. split; [exact H2 | lia].
    + destruct (IH g st3 bushes base Hids Hnext) as (H1 & H2 & H3).
      split; [exact H1|]. split; [exact H2 | lia].
Qed.

Lemma flowersLoop_ids cx cy existing n : forall g st flowers base,
  map Flower.id flowers = seqZ base (Z.of_nat (length flowers)) ->
  ChunkGenerator.nextFlowerId g = base + Z.of_nat (length flowers) ->
  let r := ChunkGenerator.flowersLoop n g cx cy existing st flowers in
  map Flower.id (fst r) = seqZ base (Z.of_nat (length (fst r))) /\
  ChunkGenerator.nextFlowerId (snd r) = base + Z.of_nat (length (fst r)) /\
  (length flowers <= length (fst r) <= length flowers + n)%nat.
Proof.
  induction n as [|n IH]; intros g st flowers base Hids Hnext;
    cbn [ChunkGenerator.flowersLoop].
  - cbn [fst snd]. repeat split; [exact Hids | exact Hnext | lia | lia].
  - destruct (ChunkGenerator.random st) as [r1 st1].
    destruct (ChunkGenerator.random st1) as [r2 st2].
    destruct (ChunkGenerator.random st2) as [r3 st3].
    destruct (existsb _ existing); cbn [negb].
    + destruct (IH g st3 flowers base Hids Hnext) as (H1 & H2 & H3).
      split; [exact H1|]. split; [exact H2 | lia].
    + match goal with
      | |- context [ChunkGenerator.flowersLoop n ?g0 cx cy existing ?s ?l] =>
        specialize (IH g0 s l base) end.
      destruct IH as (H1 & H2 & H3).
      * apply ids_snoc; [exact Hids | exact Hnext].
      * cbn [ChunkGenerator.nextFlowerId]. rewrite length_app. cbn [length]. lia.
      * rewrite length_app in H3. cbn [length] in H3.
        split; [exact H1|]. split; [exact H2 | lia].
Qed.

(** With no tree yet there is nothing to collide with: the first round
    of [generateTrees] places its tree. *)
Lemma treesLoop_first cx cy n g st :
  fst (ChunkGenerator.treesLoop (S n) g cx cy st []) <> [].
Proof.
  cbn [ChunkGenerator.treesLoop].
  destruct (ChunkGenerator.random st) as [r st1].
  destruct (ChunkGenerator.random st1) as [r' st2].
  cbn [ChunkGenerator.placement map].
  destruct (ChunkGenerator.random st2) as [rx st3].
  destruct (ChunkGenerator.random st3) as [ry st4].
  cbn [ChunkGenerator.checkCollisionWithExistingElements existsb negb].
  destruct (ChunkGenerator.random st4) as [r1 st5].
  destruct (ChunkGenerator.random st5) as [r2 st6].
  destruct (ChunkGenerator.random st6) as [r3 st7].
  match goal with |- context [ChunkGenerator.treesLoop n ?g0 cx cy ?s ?l] =>
    pose proof (treesLoop_ids cx cy n g0 s l (Tree.id
      (Tree.mk (ChunkGenerator.nextTreeId g) 0 0 0 (Hsl.mk 0 0 0) 0))) as H;
    destruct (ChunkGenerator.treesLoop n g0 cx cy s l) as [trees g'] end.
  cbn in H. destruct H as (_ & _ & H & _).
  - rewrite seqZ_cons by lia. reflexivity.
  - lia.
  - cbn [fst]. destruct trees; [cbn in H; lia | discriminate].
Qed.

Section Identifiers.

Variables Math_sin Math_cos : float -> float.

Local Abbreviation generateChunk := (ChunkGenerator.generateChunk Math_sin Math_cos).

Lemma generateChunk_ids g cx cy :
  let chunk := fst (generateChunk g cx cy) in
  let g' := snd (generateChunk g cx cy) in
  (map Tree.id (WorldChunk.trees chunk)
     = seqZ (ChunkGenerator.nextTreeId g) (Z.of_nat (length (WorldChunk.trees chunk))) /\
   ChunkGenerator.nextTreeId g'
     = ChunkGenerator.nextTreeId g + Z.of_nat (length (WorldChunk.trees chunk))) /\
  (map Bush.id (WorldChunk.bushes chunk)
     = seqZ (ChunkGenerator.nextBushId g) (Z.of_nat (length (WorldChunk.bushes chunk))) /\
   ChunkGenerator.nextBushId g'
     = ChunkGenerator.nextBushId g + Z.of_nat (length (WorldChunk.bushes chunk))) /\
  (map Flower.id (WorldChunk.flowers chunk)
     = seqZ (ChunkGenerator.nextFlowerId g) (Z.of_nat (length (WorldChunk.flowers chunk))) /\
   ChunkGenerator.nextFlowerId g'
     = ChunkGenerator.nextFlowerId g + Z.of_nat (length (WorldChunk.flowers chunk))).
Proof.
  intros chunk g'. subst chunk g'. rewrite generateChunk_fst, generateChunk_snd.
  cbn [WorldChunk.trees WorldChunk.bushes WorldChunk.flowers].
  destruct (afterTrees_frame Math_sin g cx cy) as (_ & Htb & Htf).
  pose proof (bushesLoop_frame
    (Z.to_nat (8 + Math_floor ((Math_cos (num (cx * 10000 + cy)) + 1) * 7)))
    cx cy (map Element.ofTree (treesOf Math_sin g cx cy))
    (afterTrees Math_sin g cx cy)
    (ChunkGenerator.createSeededRandom (cx * 10000 + cy + 1)) []) as (_ & Hbt & Hbf).
  pose proof (flowersLoop_frame
    (Z.to_nat (15 + Math_floor ((Math_sin (num (cx * 10000 + cy) * 0.1) + 1) * 10)))
    cx cy (obstaclesOf Math_sin Math_cos g cx cy)
    (afterBushes Math_sin Math_cos g cx cy)
    (ChunkGenerator.createSeededRandom (cx * 10000 + cy + 2)) []) as (_ & Hft & Hfb).
  pose proof (treesLoop_ids cx cy
    (Z.to_nat (5 + Math_floor ((Math_sin (num (cx * 10000 + cy)) + 1) * 5)))
    g (ChunkGenerator.createSeededRandom (cx * 10000 + cy)) []
    (ChunkGenerator.nextTreeId g) eq_refl ltac:(cbn; lia)) as (Ht1 & Ht2 & _).
  pose proof (bushesLoop_ids cx cy (map Element.ofTree (treesOf Math_sin g cx cy))
    (Z.to_nat (8 + Math_floor ((Math_cos (num (cx * 10000 + cy)) + 1) * 7)))
    (afterTrees Math_sin g cx cy)
    (ChunkGenerator.createSeededRandom (cx * 10000 + cy + 1)) []
    (ChunkGenerator.nextBushId (afterTrees Math_sin g cx cy)) eq_refl ltac:(cbn; lia))
    as (Hb1 & Hb2 & _).
  pose proof (flowersLoop_ids cx cy (obstaclesOf Math_sin Math_cos g cx cy)
    (Z.to_nat (15 + Math_floor ((Math_sin (num (cx * 10000 + cy) * 0.1) + 1) * 10)))
    (afterBushes Math_sin Math_cos g cx cy)
    (ChunkGenerator.createSeededRandom (cx * 10000 + cy + 2)) []
    (ChunkGenerator.nextFlowerId (afterBushes Math_sin Math_cos g cx cy))
    eq_refl ltac:(cbn; lia)) as (Hf1 & Hf2 & _).
  destruct (afterBushes_frame Math_sin Math_cos g cx cy) as (_ & Habf).
  fold (ChunkGenerator.generateTrees Math_sin g cx cy (cx * 10000 + cy)) in Ht1, Ht2.
  fold (ChunkGenerator.generateBushes Math_cos (afterTrees Math_sin g cx cy) cx cy
          (cx * 10000 + cy) (map Element.ofTree (treesOf Math_sin g cx cy)))
    in Hb1, Hb2, Hbt, Hbf.
  fold (ChunkGenerator.generateFlowers Math_sin (afterBushes Math_sin Math_cos g cx cy)
          cx cy (cx * 10000 + cy) (obstaclesOf Math_sin Math_cos g cx cy))
    in Hf1, Hf2, Hft, Hfb.
  fold (treesOf Math_sin g cx cy) in Ht1, Ht2.
  fold (afterTrees Math_sin g cx cy) in Ht2.
  fold (bushesOf Math_sin Math_cos g cx cy) in Hb1, Hb2.
  fold (afterBushes Math_sin Math_cos g cx cy) in Hb2, Hbt, Hbf.
  fold (flowersOf Math_sin Math_cos g cx cy) in Hf1, Hf2.
  rewrite Htb in Hb1, Hb2. rewrite Habf in Hf1, Hf2.
  repeat split; try assumption; congruence.
Qed.

End Identifiers.

Section IdentifierTheorems.

Variables Math_sin Math_cos : float -> float.

Local Abbreviation generateChunk := (ChunkGenerator.generateChunk Math_sin Math_cos).

(** X3: [generateChunk] numbers the trees of a chunk consecutively from
    [nextTreeId], in the order of the list, and leaves the counter behind
    the last one; likewise the bushes from [nextBushId] and the flowers
    from [nextFlowerId].  So no two trees of a chunk share an identifier,
    nor two bushes, nor two flowers. *)
Theorem generateChunk_identifiers (g : ChunkGenerator.t) (cx cy : Z) :
  let chunk := fst (generateChunk g cx cy) in
  let g' := snd (generateChunk g cx cy) in
  let trees := WorldChunk.trees chunk in
  let bushes := WorldChunk.bushes chunk in
  let flowers := WorldChunk.flowers chunk in
  map Tree.id trees = seqZ (ChunkGenerator.nextTreeId g) (Z.of_nat (length trees)) /\
  map Bush.id bushes = seqZ (ChunkGenerator.nextBushId g) (Z.of_nat (length bushes)) /\
  map Flower.id flowers
    = seqZ (ChunkGenerator.nextFlowerId g) (Z.of_nat (length flowers)) /\
  ChunkGenerator.nextTreeId g' = ChunkGenerator.nextTreeId g + Z.of_nat (length trees) /\
  ChunkGenerator.nextBushId g' = ChunkGenerator.nextBushId g + Z.of_nat (length bushes) /\
  ChunkGenerator.nextFlowerId g'
    = ChunkGenerator.nextFlowerId g + Z.of_nat (length flowers) /\
  NoDup (map Tree.id trees) /\ NoDup (map Bush.id bushes) /\
  NoDup (map Flower.id flowers).
Proof.
  intros chunk g' trees bushes flowers.
  destruct (generateChunk_ids Math_sin Math_cos g cx cy)
    as ((Ht1 & Ht2) & (Hb1 & Hb2) & (Hf1 & Hf2)).
  fold chunk g' in Ht1, Ht2, Hb1, Hb2, Hf1, Hf2.
  fold trees in Ht1, Ht2. fold bushes in Hb1, Hb2. fold flowers in Hf1, Hf2.
  repeat split; try assumption.
  - rewrite Ht1. apply NoDup_seqZ.
  - rewrite Hb1. apply NoDup_seqZ.
  - rewrite Hf1. apply NoDup_seqZ.
Qed.

(** X4: a chunk holds at most as many trees, bushes and flowers as the
    three loop bounds [count] say (none when the bound is not positive);
    and the first round of [generateTrees] always places its tree, there
    being nothing yet to collide with, so a chunk whose tree bound is at
    least 1 has a tree. *)
Theorem generateChunk_counts (g : ChunkGenerator.t) (cx cy : Z) :
  let seed := cx * 10000 + cy in
  let chunk := fst (generateChunk g cx cy) in
  let treeCount := 5 + Math_floor ((Math_sin (num seed) + 1) * 5) in
  let bushCount := 8 + Math_floor ((Math_cos (num seed) + 1) * 7) in
  let flowerCount := 15 + Math_floor ((Math_sin (num seed * 0.1) + 1) * 10) in
  Z.of_nat (length (WorldChunk.trees chunk)) <= Z.max 0 treeCount /\
  Z.of_nat (length (WorldChunk.bushes chunk)) <= Z.max 0 bushCount /\
  Z.of_nat (length (WorldChunk.flowers chunk)) <= Z.max 0 flowerCount /\
  (1 <= treeCount -> (1 <= length (WorldChunk.trees chunk))%nat).
Proof.
  cbv zeta. rewrite generateChunk_fst.
  cbn [WorldChunk.trees WorldChunk.bushes WorldChunk.flowers].
  unfold flowersOf, bushesOf, treesOf, ChunkGenerator.generateTrees,
    ChunkGenerator.generateBushes, ChunkGenerator.generateFlowers.
  match goal with
  | |- context [ChunkGenerator.treesLoop ?n ?g0 cx cy ?st []] =>
      pose proof (treesLoop_ids cx cy n g0 st [] (ChunkGenerator.nextTreeId g0)
                    eq_refl ltac:(cbn; lia)) as (_ & _ & Ht);
      pose proof (fun n' => treesLoop_first cx cy n' g0 st) as Hfirst
  end.
  match goal with
  | |- context [ChunkGenerator.bushesLoop ?n ?g0 cx cy ?ex ?st []] =>
      pose proof (bushesLoop_ids cx cy ex n g0 st [] (ChunkGenerator.nextBushId g0)
                    eq_refl ltac:(cbn; lia)) as (_ & _ & Hb)
  end.
  match goal with
  | |- context [ChunkGenerator.flowersLoop ?n ?g0 cx cy ?ex ?st []] =>
      pose proof (flowersLoop_ids cx cy ex n g0 st [] (ChunkGenerator.nextFlowerId g0)
                    eq_refl ltac:(cbn; lia)) as (_ & _ & Hf)
  end.
  cbv zeta in Ht, Hb, Hf. cbn [length] in Ht, Hb, Hf.
  split; [|split; [|split]].
  - revert Ht. generalize (length (fst (ChunkGenerator.treesLoop
      (Z.to_nat (5 + Math_floor ((Math_sin (num (cx * 10000 + cy)) + 1) * 5)))
      g cx cy (ChunkGenerator.createSeededRandom (cx * 10000 + cy)) []))). lia.
  - revert Hb. match goal with |- (_ <= length ?l <= _)%nat -> _ =>
      generalize (length l) end. lia.
  - revert Hf. match goal with |- (_ <= length ?l <= _)%nat -> _ =>
      generalize (length l) end. lia.
  - clear Ht Hb Hf. intros Hcount.
    destruct (Z.to_nat (5 + Math_floor ((Math_sin (num (cx * 10000 + cy)) + 1) * 5)))
      as [|n] eqn:Hn; [lia|].
    specialize (Hfirst n).
    destruct (fst (ChunkGenerator.treesLoop (S n) g cx cy
                     (ChunkGenerator.createSeededRandom (cx * 10000 + cy)) []));
      [contradiction | cbn [length]; lia].
Qed.

End IdentifierTheorems.

Lemma generateChunk_counts_witness :
  1 <= 5 + Math_floor ((sineTable (num (0 * 10000 + 3)) + 1) * 5) /\
  (1 <= length (WorldChunk.trees
                  (fst (ChunkGenerator.generateChunk sineTable cosineTable
                          (ChunkGenerator.new 5000 5000 500) 0 3))))%nat.
Proof.
  assert (1 <= 5 + Math_floor ((sineTable (num (0 * 10000 + 3)) + 1) * 5)) as H
    by now vm_compute.
  split; [exact H|].
  exact (proj2 (proj2 (proj2 (generateChunk_counts sineTable cosineTable
                  (ChunkGenerator.new 5000 5000 500) 0 3))) H).
Defined.

(** ** Invariants of the chunk cache *)

Section Cache.

Variables Math_sin Math_cos : float -> float.

Local Abbreviation generateChunk := (ChunkGenerator.generateChunk Math_sin Math_cos).
Local Abbreviation getOrGenerateChunk := (GameWorld.getOrGenerateChunk Math_sin Math_cos).
Local Abbreviation getOrGenerateChunks := (GameWorld.getOrGenerateChunks Math_sin Math_cos).
Local Abbreviation reachable := (GameWorld.reachable Math_sin Math_cos).

Lemma getOrGenerateChunk_lookup w k :
  GameWorld.loadedChunks (snd (getOrGenerateChunk w k)) !! k
  = Some (fst (getOrGenerateChunk w k)).
Proof.
  unfold GameWorld.getOrGenerateChunk.
  destruct (GameWorld.loadedChunks w !! k) eqn:Hk; [exact Hk|].
  destruct (match _ with Some _ => _ | None => _ end) as [chunk g].
  cbn [fst snd GameWorld.loadedChunks]. apply lookup_insert_eq.
Qed.

Lemma getOrGenerateChunk_hit w k c :
  GameWorld.loadedChunks w !! k = Some c -> getOrGenerateChunk w k = (c, w).
Proof. intros H. unfold GameWorld.getOrGenerateChunk. rewrite H. reflexivity. Qed.

(** After a batch every key asked for is cached, with the chunk that was
    returned for it. *)
Lemma getOrGenerateChunks_lookup keys : forall w,
  Forall2 (fun k c => GameWorld.loadedChunks (snd (getOrGenerateChunks w keys)) !! k = Some c)
          keys (fst (getOrGenerateChunks w keys)).
Proof.
  induction keys as [|k keys IH]; intros w; cbn [GameWorld.getOrGenerateChunks].
  - constructor.
  - pose proof (getOrGenerateChunk_lookup w k) as H1.
    destruct (getOrGenerateChunk w k) as [chunk w1]. cbn [fst snd] in H1.
    pose proof (IH w1) as H2.
    pose proof (getOrGenerateChunks_keeps Math_sin Math_cos keys w1 _ _ H1) as H3.
    destruct (getOrGenerateChunks w1 keys) as [chunks w2]. cbn [fst snd] in *.
    constructor; assumption.
Qed.

(** A batch of cached keys returns the cached chunks and changes nothing. *)
Lemma getOrGenerateChunks_hit keys : forall w chunks,
  Forall2 (fun k c => GameWorld.loadedChunks w !! k = Some c) keys chunks ->
  getOrGenerateChunks w keys = (chunks, w).
Proof.
  induction keys as [|k keys IH]; intros w chunks H; cbn [GameWorld.getOrGenerateChunks].
  - apply Forall2_nil_inv_l in H. subst. reflexivity.
  - apply Forall2_cons_inv_l in H as (c & chunks' & Hc & Hrest & ->).
    rewrite (getOrGenerateChunk_hit w k c Hc), (IH w chunks' Hrest). reflexivity.
Qed.

(** A property of the generator and the cache that holds of a new world
    and survives the generation of a chunk under a key that is not yet
    cached holds in every state. *)
Section Invariant.

Variable P : ChunkGenerator.t -> gmap string WorldChunk.t -> Prop.

Hypothesis P_step : forall g cache x y,
  P g cache -> cache !! GameWorld.key x y = None ->
  P (snd (generateChunk g x y)) (<[GameWorld.key x y := fst (generateChunk g x y)]> cache).

Lemma getOrGenerateChunk_invariant w x y :
  P (GameWorld.chunkGenerator w) (GameWorld.loadedChunks w) ->
  P (GameWorld.chunkGenerator (snd (getOrGenerateChunk w (GameWorld.key x y))))
    (GameWorld.loadedChunks (snd (getOrGenerateChunk w (GameWorld.key x y)))).
Proof.
  intros Hw. unfold GameWorld.getOrGenerateChunk.
  destruct (GameWorld.loadedChunks w !! GameWorld.key x y) as [c|] eqn:Hc; [exact Hw|].
  rewrite split_key. cbn [lookup list_lookup mbind option_bind].
  rewrite !parseInt_toString.
  pose proof (P_step _ _ x y Hw Hc) as H.
  destruct (ChunkGenerator.generateChunk _ _ _ x y) as [chunk g]. exact H.
Qed.

Lemma getOrGenerateChunks_invariant keys : forall w,
  Forall builtKey keys ->
  P (GameWorld.chunkGenerator w) (GameWorld.loadedChunks w) ->
  P (GameWorld.chunkGenerator (snd (getOrGenerateChunks w keys)))
    (GameWorld.loadedChunks (snd (getOrGenerateChunks w keys))).
Proof.
  induction keys as [|k keys IH]; intros w Hkeys Hw; cbn [GameWorld.getOrGenerateChunks];
    [exact Hw|].
  apply Forall_cons in Hkeys as [(x & y & ->) Hkeys].
  pose proof (getOrGenerateChunk_invariant w x y Hw) as H1.
  destruct (getOrGenerateChunk w (GameWorld.key x y)) as [chunk w1]. cbn [snd] in H1.
  pose proof (IH w1 Hkeys H1) as H2.
  destruct (getOrGenerateChunks w1 keys) as [chunks w2]. exact H2.
Qed.

Lemma reachable_invariant w :
  P (ChunkGenerator.new 5000 5000 500) ∅ ->
  reachable w -> P (GameWorld.chunkGenerator w) (GameWorld.loadedChunks w).
Proof.
  intros Hnew.
  induction 1 as [id maxPlayers | w player _ IH | w player _ IH | w playerId _ IH
                 | w position distance _ IH | w player _ IH | w position _ IH].
  - exact Hnew.
  - unfold GameWorld.addPlayer. destruct (decide _); [exact IH|].
    apply getOrGenerateChunks_invariant; [apply getChunksForPosition_built | exact IH].
  - unfold GameWorld.updatePlayer. destruct (decide _); exact IH.
  - exact IH.
  - apply getOrGenerateChunks_invariant; [apply getChunksForPosition_built | exact IH].
  - apply getOrGenerateChunks_invariant; [|exact IH].
    apply filter_built, getChunksForPosition_built.
  - unfold GameWorld.getChunkAtPosition, GameWorld.getChunkKey.
    apply getOrGenerateChunk_invariant, IH.
Qed.

End Invariant.

(** Every cached chunk was made by [generateChunk], for the coordinates
    of its key, by a generator with chunk size 500. *)
Lemma reachable_generated w k c :
  reachable w -> GameWorld.loadedChunks w !! k = Some c ->
  exists g x y, ChunkGenerator.chunkSize g = 500 /\ k = GameWorld.key x y /\
                c = fst (generateChunk g x y).
Proof.
  intros Hw Hc.
  enough (ChunkGenerator.chunkSize (GameWorld.chunkGenerator w) = 500 /\
          forall k c, GameWorld.loadedChunks w !! k = Some c ->
            exists g x y, ChunkGenerator.chunkSize g = 500 /\ k = GameWorld.key x y /\
                          c = fst (generateChunk g x y)) as [_ H] by (apply H, Hc).
  apply (reachable_invariant
           (fun g cache => ChunkGenerator.chunkSize g = 500 /\
              forall k c, cache !! k = Some c ->
                exists g x y, ChunkGenerator.chunkSize g = 500 /\ k = GameWorld.key x y /\
                              c = fst (generateChunk g x y))); [| |exact Hw].
  - intros g cache x y [Hg Hcache] Hfresh. split.
    + rewrite generateChunk_chunkSize. exact Hg.
    + intros k' c'. rewrite lookup_insert. case_decide as Hk.
      * intros [= <-]. exists g, x, y. auto.
      * apply Hcache.
  - split; [reflexivity|]. intros k' c'. rewrite lookup_empty. discriminate.
Qed.

End Cache.

Section CacheTheorems.

Variables Math_sin Math_cos : float -> float.

Local Abbreviation generateChunk := (ChunkGenerator.generateChunk Math_sin Math_cos).
Local Abbreviation getOrGenerateChunk := (GameWorld.getOrGenerateChunk Math_sin Math_cos).
Local Abbreviation getOrGenerateChunks := (GameWorld.getOrGenerateChunks Math_sin Math_cos).
Local Abbreviation getChunksNearPosition :=
  (GameWorld.getChunksNearPosition Math_sin Math_cos).
Local Abbreviation getChunkAtPosition := (GameWorld.getChunkAtPosition Math_sin Math_cos).
Local Abbreviation reachable := (GameWorld.reachable Math_sin Math_cos).
Local Abbreviation step := (step Math_sin Math_cos).

(** X9: what a world caches under a key depends on the key alone.  In
    two states of one world or of two worlds, whatever was done to reach
    them, the chunks cached under the same key have the same coordinates
    and the same trees, bushes and flowers, identifiers aside. *)
Theorem cached_chunk_determined (w1 w2 : GameWorld.t) (k : string)
    (c1 c2 : WorldChunk.t) :
  reachable w1 -> reachable w2 ->
  GameWorld.loadedChunks w1 !! k = Some c1 ->
  GameWorld.loadedChunks w2 !! k = Some c2 ->
  WorldChunk.x c2 = WorldChunk.x c1 /\ WorldChunk.y c2 = WorldChunk.y c1 /\
  content c2 = content c1.
Proof.
  intros Hw1 Hw2 Hc1 Hc2.
  destruct (reachable_generated Math_sin Math_cos w1 k c1 Hw1 Hc1)
    as (g1 & x1 & y1 & Hg1 & Hk1 & ->).
  destruct (reachable_generated Math_sin Math_cos w2 k c2 Hw2 Hc2)
    as (g2 & x2 & y2 & Hg2 & Hk2 & ->).
  rewrite Hk1 in Hk2. apply key_inj in Hk2 as [-> ->].
  rewrite !generateChunk_fst. cbn [WorldChunk.x WorldChunk.y].
  split; [reflexivity|]. split; [reflexivity|].
  rewrite <- !generateChunk_fst. apply generateChunk_content. congruence.
Qed.

(** One call of a public method keeps what is cached and the constants
    of the world. *)
Lemma step_frame (w w1 : GameWorld.t) :
  step w w1 ->
  (forall k c, GameWorld.loadedChunks w !! k = Some c ->
               GameWorld.loadedChunks w1 !! k = Some c) /\
  GameWorld.id w1 = GameWorld.id w /\
  GameWorld.maxPlayers w1 = GameWorld.maxPlayers w /\
  GameWorld.worldWidth w1 = GameWorld.worldWidth w /\
  GameWorld.worldHeight w1 = GameWorld.worldHeight w /\
  GameWorld.chunkSize w1 = GameWorld.chunkSize w.
Proof.
  intros Hstep.
  destruct Hstep as [player | player | playerId | position distance | player | position].
  - unfold GameWorld.addPlayer. destruct (decide _); [repeat split; auto|].
    match goal with |- context [GameWorld.getOrGenerateChunks _ _ ?w0 ?keys] =>
      pose proof (getOrGenerateChunks_frame Math_sin Math_cos keys w0)
        as (H1 & _ & H3 & _ & H5 & H6 & H7);
      pose proof (getOrGenerateChunks_keeps Math_sin Math_cos keys w0) as Hk
    end.
    cbn [GameWorld.id GameWorld.maxPlayers GameWorld.worldWidth
         GameWorld.worldHeight GameWorld.chunkSize GameWorld.loadedChunks] in *.
    repeat split; auto.
  - unfold GameWorld.updatePlayer. destruct (decide _); repeat split; auto.
  - repeat split; auto.
  - pose proof (getOrGenerateChunks_frame Math_sin Math_cos
                  (GameWorld.getChunksForPosition w position distance) w)
      as (H1 & _ & H3 & _ & H5 & H6 & H7).
    split; [|repeat split; assumption].
    intros k c. apply getOrGenerateChunks_keeps.
  - unfold GameWorld.getNewChunksForPlayer.
    match goal with |- context [GameWorld.getOrGenerateChunks _ _ ?w0 ?keys] =>
      pose proof (getOrGenerateChunks_frame Math_sin Math_cos keys w0)
        as (H1 & _ & H3 & _ & H5 & H6 & H7);
      pose proof (getOrGenerateChunks_keeps Math_sin Math_cos keys w0) as Hk
    end.
    cbn [GameWorld.id GameWorld.maxPlayers GameWorld.worldWidth
         GameWorld.worldHeight GameWorld.chunkSize GameWorld.loadedChunks] in *.
    repeat split; auto.
  - pose proof (getOrGenerateChunk_frame Math_sin Math_cos w
                  (GameWorld.getChunkKey w (Position.x position) (Position.y position)))
      as (H1 & _ & H3 & _ & H5 & H6 & H7).
    split; [|repeat split; assumption].
    intros k c. apply getOrGenerateChunk_keeps.
Qed.

(** X10: a cached chunk is never replaced or dropped: after any sequence
    of calls of the public methods, a key that was cached still holds the
    same chunk; and the world's id, its maximum and its dimensions never
    change. *)
Theorem cache_only_grows (w w' : GameWorld.t) :
  rtc step w w' ->
  (forall k c, GameWorld.loadedChunks w !! k = Some c ->
               GameWorld.loadedChunks w' !! k = Some c) /\
  GameWorld.id w' = GameWorld.id w /\
  GameWorld.maxPlayers w' = GameWorld.maxPlayers w /\
  GameWorld.worldWidth w' = GameWorld.worldWidth w /\
  GameWorld.worldHeight w' = GameWorld.worldHeight w /\
  GameWorld.chunkSize w' = GameWorld.chunkSize w.
Proof.
  induction 1 as [w | w w1 w2 Hstep _ IH].
  - repeat split. auto.
  - destruct IH as (Hkeep & Hid & Hmax & Hww & Hwh & Hcs).
    destruct (step_frame w w1 Hstep) as (Hkeep1 & Hid1 & Hmax1 & Hww1 & Hwh1 & Hcs1).
    split; [auto|]. repeat split; congruence.
Qed.

(** X11: asking twice for the chunks near a position, or for the chunk at
    a position, gives the second time the same chunks as the first and
    leaves the state as the first call left it: nothing is generated
    twice. *)
Theorem chunk_requests_idempotent (w : GameWorld.t) (position : Position.t)
    (distance : Z) :
  (let r := getChunksNearPosition w position distance in
   getChunksNearPosition (snd r) position distance = (fst r, snd r)) /\
  (let r := getChunkAtPosition w position in
   getChunkAtPosition (snd r) position = (fst r, snd r)).
Proof.
  split.
  - cbv zeta. unfold GameWorld.getChunksNearPosition.
    rewrite (getChunksForPosition_same w _ position distance
               (getOrGenerateChunks_frame Math_sin Math_cos _ w)).
    apply getOrGenerateChunks_hit, getOrGenerateChunks_lookup.
  - cbv zeta. unfold GameWorld.getChunkAtPosition, GameWorld.getChunkKey.
    destruct (getOrGenerateChunk_frame Math_sin Math_cos w
                (GameWorld.key
                   (Math_floor (Position.x position / num (GameWorld.chunkSize w)))
                   (Math_floor (Position.y position / num (GameWorld.chunkSize w)))))
      as (_ & _ & _ & _ & _ & _ & ->).
    apply getOrGenerateChunk_hit, getOrGenerateChunk_lookup.
Qed.

End CacheTheorems.

(** ** Identifiers across a world *)

Lemma lookup_map {A B} (f : A -> B) (l : list A) (i : nat) (a : A) :
  l !! i = Some a -> map f l !! i = Some (f a).
Proof.
  revert i. induction l as [|x l IH]; intros [|i] H; try discriminate.
  - injection H as ->. reflexivity.
  - cbn. apply IH, H.
Qed.

Lemma idsFresh_empty ids lo : idsFresh ids lo lo ∅.
Proof.
  split; [lia|]. split; [|split].
  - intros k c i H. rewrite lookup_empty in H. discriminate.
  - intros k c H. rewrite lookup_empty in H. discriminate.
  - intros k1 k2 c1 c2 i H. rewrite lookup_empty in H. discriminate.
Qed.

Lemma idsFresh_insert ids lo next cache k c (n : nat) :
  idsFresh ids lo next cache -> cache !! k = None ->
  ids c = seqZ next (Z.of_nat n) ->
  idsFresh ids lo (next + Z.of_nat n) (<[k := c]> cache).
Proof.
  intros (Hlo & Hin & Hnd & Hun) Hk Hc.
  assert (forall i, In i (ids c) -> next <= i < next + Z.of_nat n) as Hnew.
  { intros i Hi. rewrite Hc in Hi. apply list_elem_of_In, elem_of_seqZ in Hi. exact Hi. }
  split; [lia|]. split; [|split].
  - intros k' c' i. rewrite lookup_insert. case_decide as Hkk.
    + intros [= <-] Hi. apply Hnew in Hi. lia.
    + intros Hc' Hi. specialize (Hin _ _ _ Hc' Hi). lia.
  - intros k' c'. rewrite lookup_insert. case_decide as Hkk.
    + intros [= <-]. rewrite Hc. apply NoDup_seqZ.
    + apply Hnd.
  - intros k1 k2 c1 c2 i. rewrite !lookup_insert.
    case_decide as Hk1; case_decide as Hk2.
    + intros _ _ _ _. congruence.
    + intros [= <-] Hc2 Hi1 Hi2. apply Hnew in Hi1.
      specialize (Hin _ _ _ Hc2 Hi2). lia.
    + intros Hc1 [= <-] Hi1 Hi2. apply Hnew in Hi2.
      specialize (Hin _ _ _ Hc1 Hi1). lia.
    + apply Hun.
Qed.

Lemma idsFresh_unique {A} (items : WorldChunk.t -> list A) (id : A -> Z) lo next cache :
  idsFresh (fun c => map id (items c)) lo next cache ->
  idsUnique items id cache /\ idsWithin items id lo next cache.
Proof.
  intros (_ & Hin & Hnd & Hun). split.
  - intros k1 k2 c1 c2 i1 i2 a1 a2 Hc1 Hc2 Ha1 Ha2 Hid.
    assert (k1 = k2) as ->.
    { apply (Hun k1 k2 c1 c2 (id a1) Hc1 Hc2).
      - apply in_map. eapply lookup_In, Ha1.
      - rewrite Hid. apply in_map. eapply lookup_In, Ha2. }
    split; [reflexivity|].
    assert (c2 = c1) as -> by congruence.
    specialize (Hnd _ _ Hc1).
    apply (NoDup_lookup _ i1 i2 (id a1) Hnd).
    + apply lookup_map, Ha1.
    + rewrite Hid. apply lookup_map, Ha2.
  - intros k c a Hc Ha. apply (Hin k c (id a) Hc). apply in_map, Ha.
Qed.

Section WorldIdentifiers.

Variables Math_sin Math_cos : float -> float.

Local Abbreviation reachable := (GameWorld.reachable Math_sin Math_cos).

Lemma reachable_idsFresh w :
  reachable w ->
  idsFresh treeIds 1000000
    (ChunkGenerator.nextTreeId (GameWorld.chunkGenerator w)) (GameWorld.loadedChunks w) /\
  idsFresh bushIds 2000000
    (ChunkGenerator.nextBushId (GameWorld.chunkGenerator w)) (GameWorld.loadedChunks w) /\
  idsFresh flowerIds 3000000
    (ChunkGenerator.nextFlowerId (GameWorld.chunkGenerator w)) (GameWorld.loadedChunks w).
Proof.
  intros Hw.
  apply (reachable_invariant Math_sin Math_cos
           (fun g cache =>
              idsFresh treeIds 1000000 (ChunkGenerator.nextTreeId g) cache /\
              idsFresh bushIds 2000000 (ChunkGenerator.nextBushId g) cache /\
              idsFresh flowerIds 3000000 (ChunkGenerator.nextFlowerId g) cache));
    [| |exact Hw].
  - intros g cache x y (Ht & Hb & Hf) Hfresh.
    destruct (generateChunk_ids Math_sin Math_cos g x y)
      as ((Ht1 & ->) & (Hb1 & ->) & (Hf1 & ->)).
    split; [|split]; apply idsFresh_insert;
      first [assumption | exact Ht1 | exact Hb1 | exact Hf1].
  - cbn. split; [|split]; apply idsFresh_empty.
Qed.

(** X12: the three counters are the world's: in every state of a world no
    two trees in its cache bear the same identifier, whether in one chunk
    or in two, nor two bushes, nor two flowers; tree identifiers run from
    1000000 up to the generator's [nextTreeId], bush identifiers from
    2000000 and flower identifiers from 3000000 likewise. *)
Theorem identifiers_unique_in_world (w : GameWorld.t) :
  reachable w ->
  let cache := GameWorld.loadedChunks w in
  let g := GameWorld.chunkGenerator w in
  idsUnique WorldChunk.trees Tree.id cache /\
  idsUnique WorldChunk.bushes Bush.id cache /\
  idsUnique WorldChunk.flowers Flower.id cache /\
  idsWithin WorldChunk.trees Tree.id 1000000 (ChunkGenerator.nextTreeId g) cache /\
  idsWithin WorldChunk.bushes Bush.id 2000000 (ChunkGenerator.nextBushId g) cache /\
  idsWithin WorldChunk.flowers Flower.id 3000000 (ChunkGenerator.nextFlowerId g) cache.
Proof.
  intros Hw cache g. subst cache g.
  destruct (reachable_idsFresh w Hw) as (Ht & Hb & Hf).
  apply idsFresh_unique in Ht as [Ht1 Ht2].
  apply idsFresh_unique in Hb as [Hb1 Hb2].
  apply idsFresh_unique in Hf as [Hf1 Hf2].
  exact (conj Ht1 (conj Hb1 (conj Hf1 (conj Ht2 (conj Hb2 Hf2))))).
Qed.

End WorldIdentifiers.

(** ** Players and visibility sets *)

Lemma visible_mono pcs (cache cache' : gmap string WorldChunk.t) :
  visible pcs cache ->
  (forall k c, cache !! k = Some c -> cache' !! k = Some c) ->
  visible pcs cache'.
Proof.
  intros H Hsub id seen k Hs Hk. destruct (H id seen k Hs Hk) as [Hw [c Hc]].
  split; [exact Hw|]. exists c. apply Hsub, Hc.
Qed.

Lemma visible_insert pcs (cache : gmap string WorldChunk.t) id (seen : gset string) :
  visible pcs cache ->
  (forall k, k ∈ seen -> worldKey k /\ is_Some (cache !! k)) ->
  visible (<[id := seen]> pcs) cache.
Proof.
  intros H Hseen id' seen' k. rewrite lookup_insert. case_decide as Hid.
  - intros [= <-]. apply Hseen.
  - apply H.
Qed.

Lemma visible_delete pcs (cache : gmap string WorldChunk.t) id :
  visible pcs cache -> visible (delete id pcs) cache.
Proof.
  intros H id' seen k Hs. apply lookup_delete_Some in Hs as [_ Hs]. eapply H, Hs.
Qed.

Lemma registered_insert ps pcs player (seen : gset string) :
  registered ps pcs ->
  registered (<[Player.id player := player]> ps) (<[Player.id player := seen]> pcs).
Proof.
  intros H id p. rewrite !lookup_insert. case_decide as Hid.
  - intros [= <-]. split; [exact Hid | eexists; reflexivity].
  - apply H.
Qed.

Lemma registered_update ps pcs player :
  registered ps pcs -> is_Some (ps !! Player.id player) ->
  registered (<[Player.id player := player]> ps) pcs.
Proof.
  intros H [q Hq] id p. rewrite lookup_insert. case_decide as Hid.
  - intros [= <-]. split; [exact Hid|]. subst id. apply (H _ _ Hq).
  - apply H.
Qed.

Lemma registered_seen ps pcs id (seen : gset string) :
  registered ps pcs -> registered ps (<[id := seen]> pcs).
Proof.
  intros H id' p Hp. destruct (H id' p Hp) as [Hid Hs]. split; [exact Hid|].
  rewrite lookup_insert. case_decide; [eexists; reflexivity | exact Hs].
Qed.

Lemma registered_delete ps pcs id :
  registered ps pcs -> registered (delete id ps) (delete id pcs).
Proof.
  intros H id' p Hp. apply lookup_delete_Some in Hp as [Hne Hp].
  destruct (H id' p Hp) as [Hid Hs]. split; [exact Hid|].
  rewrite lookup_delete_ne by exact Hne. exact Hs.
Qed.

Lemma getChunksForPosition_worldKey w position distance k :
  dimensioned w ->
  In k (GameWorld.getChunksForPosition w position distance) -> worldKey k.
Proof.
  intros (Hw & Hh & Hc & _) Hk.
  apply getChunksForPosition_In in Hk as (x & y & -> & Hx & Hy & Hxw & Hyh).
  rewrite Hw, Hc in Hxw. rewrite Hh, Hc in Hyh.
  exists x, y. split; [reflexivity | lia].
Qed.

Lemma Forall2_In_l {A B} (P : A -> B -> Prop) (l1 : list A) (l2 : list B) (x : A) :
  Forall2 P l1 l2 -> In x l1 -> exists y, P x y.
Proof.
  induction 1 as [|a b l1 l2 Hab _ IH]; intros Hx; [destruct Hx|].
  destruct Hx as [<-|Hx]; [exists b; exact Hab | apply IH, Hx].
Qed.

Lemma elem_of_default (o : option (gset string)) (k : string) :
  k ∈ default ∅ o -> exists seen, o = Some seen /\ k ∈ seen.
Proof.
  destruct o as [seen|]; cbn; [intros H; exists seen; auto | set_solver].
Qed.

Section Players.

Variables Math_sin Math_cos : float -> float.

Local Abbreviation getOrGenerateChunk := (GameWorld.getOrGenerateChunk Math_sin Math_cos).
Local Abbreviation getOrGenerateChunks := (GameWorld.getOrGenerateChunks Math_sin Math_cos).
Local Abbreviation addPlayer := (GameWorld.addPlayer Math_sin Math_cos).
Local Abbreviation getNewChunksForPlayer :=
  (GameWorld.getNewChunksForPlayer Math_sin Math_cos).
Local Abbreviation getChunksNearPosition :=
  (GameWorld.getChunksNearPosition Math_sin Math_cos).
Local Abbreviation getChunkAtPosition := (GameWorld.getChunkAtPosition Math_sin Math_cos).
Local Abbreviation reachable := (GameWorld.reachable Math_sin Math_cos).

Lemma getOrGenerateChunks_loaded keys w k :
  In k keys -> is_Some (GameWorld.loadedChunks (snd (getOrGenerateChunks w keys)) !! k).
Proof.
  intros Hk.
  destruct (Forall2_In_l _ _ _ k (getOrGenerateChunks_lookup Math_sin Math_cos keys w) Hk)
    as [c Hc].
  exists c. exact Hc.
Qed.

Lemma getOrGenerateChunks_generator keys w :
  Forall builtKey keys ->
  ChunkGenerator.chunkSize (GameWorld.chunkGenerator w) = 500 ->
  ChunkGenerator.chunkSize
    (GameWorld.chunkGenerator (snd (getOrGenerateChunks w keys))) = 500.
Proof.
  intros Hk H.
  apply (getOrGenerateChunks_invariant Math_sin Math_cos
           (fun g _ => ChunkGenerator.chunkSize g = 500)); [|exact Hk|exact H].
  intros g cache x y Hg _. rewrite generateChunk_chunkSize. exact Hg.
Qed.

Lemma getOrGenerateChunk_generator w x y :
  ChunkGenerator.chunkSize (GameWorld.chunkGenerator w) = 500 ->
  ChunkGenerator.chunkSize
    (GameWorld.chunkGenerator (snd (getOrGenerateChunk w (GameWorld.key x y)))) = 500.
Proof.
  intros H.
  apply (getOrGenerateChunk_invariant Math_sin Math_cos
           (fun g _ => ChunkGenerator.chunkSize g = 500)); [|exact H].
  intros g cache x' y' Hg _. rewrite generateChunk_chunkSize. exact Hg.
Qed.

(** What every state of a world satisfies. *)
Lemma reachable_players w :
  reachable w ->
  dimensioned w /\
  registered (GameWorld.players w) (GameWorld.playerChunks w) /\
  visible (GameWorld.playerChunks w) (GameWorld.loadedChunks w).
Proof.
  induction 1 as [id maxPlayers | w player _ IH | w player _ IH | w playerId _ IH
                 | w position distance _ IH | w player _ IH | w position _ IH].
  - split; [repeat split|]. split.
    + intros id' p H. cbn in H. rewrite lookup_empty in H. discriminate.
    + intros id' seen k H. cbn in H. rewrite lookup_empty in H. discriminate.
  - destruct IH as (Hd & Hr & Hv).
    unfold GameWorld.addPlayer. destruct (decide _); [auto|].
    match goal with |- context [GameWorld.getOrGenerateChunks _ _ ?w0 ?keys] =>
      pose proof (getOrGenerateChunks_frame Math_sin Math_cos keys w0)
        as (_ & Hp & _ & Hc & Hw & Hh & Hs);
      pose proof (getOrGenerateChunks_keeps Math_sin Math_cos keys w0) as Hk;
      pose proof (getOrGenerateChunks_loaded keys w0) as Hl;
      pose proof (getOrGenerateChunks_generator keys w0
                    (getChunksForPosition_built _ _ _)) as Hg
    end.
    cbn [GameWorld.players GameWorld.playerChunks GameWorld.worldWidth
         GameWorld.worldHeight GameWorld.chunkSize GameWorld.loadedChunks
         GameWorld.chunkGenerator] in *.
    destruct Hd as (Hd1 & Hd2 & Hd3 & Hd4).
    split; [unfold dimensioned; rewrite Hw, Hh, Hs; auto|].
    rewrite Hp, Hc. split; [apply registered_insert, Hr|].
    apply visible_insert; [eapply visible_mono; [exact Hv | exact Hk]|].
    intros k Hk'. apply elem_of_list_to_set, list_elem_of_In in Hk'. split.
    + eapply getChunksForPosition_worldKey; [|exact Hk']. repeat split; assumption.
    + apply Hl, Hk'.
  - destruct IH as (Hd & Hr & Hv).
    unfold GameWorld.updatePlayer. destruct (decide _) as [Hknown|]; [|auto].
    split; [exact Hd|]. split; [|exact Hv].
    cbn [GameWorld.players GameWorld.playerChunks].
    apply registered_update; assumption.
  - destruct IH as (Hd & Hr & Hv).
    split; [exact Hd|]. split.
    + apply registered_delete, Hr.
    + apply visible_delete, Hv.
  - destruct IH as (Hd & Hr & Hv).
    unfold GameWorld.getChunksNearPosition.
    match goal with |- context [GameWorld.getOrGenerateChunks _ _ ?w0 ?keys] =>
      pose proof (getOrGenerateChunks_frame Math_sin Math_cos keys w0)
        as (_ & Hp & _ & Hc & Hw & Hh & Hs);
      pose proof (getOrGenerateChunks_keeps Math_sin Math_cos keys w0) as Hk;
      pose proof (getOrGenerateChunks_generator keys w0
                    (getChunksForPosition_built _ _ _)) as Hg
    end.
    destruct Hd as (Hd1 & Hd2 & Hd3 & Hd4).
    split; [unfold dimensioned; rewrite Hw, Hh, Hs; auto|].
    rewrite Hp, Hc. split; [exact Hr|].
    eapply visible_mono; [exact Hv | exact Hk].
  - destruct IH as (Hd & Hr & Hv).
    unfold GameWorld.getNewChunksForPlayer.
    match goal with |- context [GameWorld.getOrGenerateChunks _ _ ?w0 ?keys] =>
      pose proof (getOrGenerateChunks_frame Math_sin Math_cos keys w0)
        as (_ & Hp & _ & Hc & Hw & Hh & Hs);
      pose proof (getOrGenerateChunks_keeps Math_sin Math_cos keys w0) as Hk;
      pose proof (getOrGenerateChunks_loaded keys w0) as Hl;
      pose proof (getOrGenerateChunks_generator keys w0
                    (filter_built _ _ (getChunksForPosition_built _ _ _))) as Hg
    end.
    cbn [GameWorld.players GameWorld.playerChunks GameWorld.worldWidth
         GameWorld.worldHeight GameWorld.chunkSize GameWorld.loadedChunks
         GameWorld.chunkGenerator] in *.
    destruct Hd as (Hd1 & Hd2 & Hd3 & Hd4).
    split; [unfold dimensioned; rewrite Hw, Hh, Hs; auto|].
    rewrite Hp, Hc. split; [apply registered_seen, Hr|].
    apply visible_insert; [eapply visible_mono; [exact Hv | exact Hk]|].
    intros k Hk'. apply elem_of_list_to_set, list_elem_of_In in Hk'. split.
    + eapply getChunksForPosition_worldKey; [|exact Hk']. repeat split; assumption.
    + destruct (decide (k ∈ default ∅ (GameWorld.playerChunks w !! Player.id player)))
        as [Hseen|Hnew].
      * apply elem_of_default in Hseen as (seen & Hs' & Hseen).
        destruct (Hv _ _ _ Hs' Hseen) as [_ [c Hc']]. exists c. apply Hk, Hc'.
      * apply Hl. apply filter_In. split; [exact Hk'|].
        rewrite bool_decide_eq_false_2 by exact Hnew. reflexivity.
  - destruct IH as (Hd & Hr & Hv).
    unfold GameWorld.getChunkAtPosition, GameWorld.getChunkKey.
    match goal with |- context [GameWorld.getOrGenerateChunk _ _ ?w0 ?k] =>
      pose proof (getOrGenerateChunk_frame Math_sin Math_cos w0 k)
        as (_ & Hp & _ & Hc & Hw & Hh & Hs);
      pose proof (fun k' c => getOrGenerateChunk_keeps Math_sin Math_cos w0 k k' c) as Hk
    end.
    match goal with |- context [GameWorld.getOrGenerateChunk _ _ ?w0 (GameWorld.key ?x ?y)] =>
      pose proof (getOrGenerateChunk_generator w0 x y) as Hg
    end.
    destruct Hd as (Hd1 & Hd2 & Hd3 & Hd4).
    split; [unfold dimensioned; rewrite Hw, Hh, Hs; auto|].
    rewrite Hp, Hc. split; [exact Hr|].
    eapply visible_mono; [exact Hv | exact Hk].
Qed.

End Players.

Section PlayerTheorems.

Variables Math_sin Math_cos : float -> float.

Local Abbreviation getOrGenerateChunks := (GameWorld.getOrGenerateChunks Math_sin Math_cos).
Local Abbreviation addPlayer := (GameWorld.addPlayer Math_sin Math_cos).
Local Abbreviation getChunksNearPosition :=
  (GameWorld.getChunksNearPosition Math_sin Math_cos).
Local Abbreviation reachable := (GameWorld.reachable Math_sin Math_cos).
Local Abbreviation reachableGuarded := (GameWorld.reachableGuarded Math_sin Math_cos).

(** X15: in every state of a world, each player is registered under its
    own id and has a visibility set; and every key of every visibility
    set is the key of one of the 10 x 10 chunks of the world, and the cache
    holds the chunk with those coordinates under it.  So whatever a player
    is recorded as seeing has been generated and is still cached. *)
Theorem visibility_sets_cached (w : GameWorld.t) :
  reachable w ->
  (forall id p, GameWorld.players w !! id = Some p ->
     Player.id p = id /\ is_Some (GameWorld.playerChunks w !! id)) /\
  (forall id (seen : gset string) k,
     GameWorld.playerChunks w !! id = Some seen -> k ∈ seen ->
     exists x y c,
       k = GameWorld.key x y /\ 0 <= x < 10 /\ 0 <= y < 10 /\
       GameWorld.loadedChunks w !! k = Some c /\
       WorldChunk.x c = x /\ WorldChunk.y c = y).
Proof.
  intros Hw. destruct (reachable_players Math_sin Math_cos w Hw) as (_ & Hr & Hv).
  split; [exact Hr|].
  intros id seen k Hs Hk.
  destruct (Hv id seen k Hs Hk) as [(x & y & -> & Hx & Hy) [c Hc]].
  exists x, y, c. repeat split; try lia; try exact Hc.
  - pose proof (reachable_cacheKeyed Math_sin Math_cos w Hw _ _ Hc) as Hkey.
    apply key_inj in Hkey. tauto.
  - pose proof (reachable_cacheKeyed Math_sin Math_cos w Hw _ _ Hc) as Hkey.
    apply key_inj in Hkey. tauto.
Qed.

(** X17: what the join handler does after [isFull], for a player at a
    position within reach of the loops of [getChunksForPosition]
    ([withinReach]): [addPlayer] of a new id registers the player, raises
    the count by one, and loads every chunk near the player; the [getChunksNearPosition] that follows finds
    them all in the cache, returns one chunk per key of the player's
    visibility set, in the order of the keys, and changes nothing. *)
Theorem addPlayer_then_getChunksNearPosition (w : GameWorld.t) (player : Player.t) :
  reachable w ->
  GameWorld.players w !! Player.id player = None ->
  withinReach (GameWorld.chunkSize w) (Player.position player) 2 ->
  let w1 := addPlayer w player in
  let keys := GameWorld.getChunksForPosition w (Player.position player) 2 in
  let r := getChunksNearPosition w1 (Player.position player) 2 in
  GameWorld.players w1 !! Player.id player = Some player /\
  GameWorld.getPlayerCount w1 = GameWorld.getPlayerCount w + 1 /\
  GameWorld.playerChunks w1 !! Player.id player = Some (list_to_set keys) /\
  snd r = w1 /\
  map chunkKey (fst r) = keys /\
  Forall (fun c => GameWorld.loadedChunks w1 !! chunkKey c = Some c) (fst r).
Proof.
  intros Hw Hfresh _ w1 keys r.
  destruct (addPlayer_fresh Math_sin Math_cos w player Hfresh)
    as (Hp & Hc & _ & Hww & Hwh & Hcs).
  fold w1 in Hp, Hc, Hww, Hwh, Hcs.
  assert (GameWorld.getChunksForPosition w1 (Player.position player) 2 = keys) as Hkeys.
  { unfold keys, GameWorld.getChunksForPosition. rewrite Hww, Hwh, Hcs. reflexivity. }
  split; [rewrite Hp; apply lookup_insert_eq|].
  split; [unfold GameWorld.getPlayerCount; rewrite Hp, map_size_insert_None by exact Hfresh;
          lia|].
  split; [rewrite Hc; apply lookup_insert_eq|].
  subst r. unfold GameWorld.getChunksNearPosition. rewrite Hkeys.
  assert (exists w0, w1 = snd (getOrGenerateChunks w0 keys) /\ cacheKeyed w0)
    as (w0 & Hw1 & Hw0).
  { unfold w1, GameWorld.addPlayer.
    destruct (decide _) as [[q Hq]|_]; [congruence|].
    eexists. split; [reflexivity|].
    exact (reachable_cacheKeyed Math_sin Math_cos w Hw). }
  rewrite Hw1.
  rewrite (getOrGenerateChunks_hit Math_sin Math_cos keys _ _
             (getOrGenerateChunks_lookup Math_sin Math_cos keys w0)).
  cbn [fst snd].
  destruct (getOrGenerateChunks_keyed Math_sin Math_cos keys w0 Hw0
              (getChunksForPosition_built _ _ _)) as (H1 & _ & H3).
  repeat split; assumption.
Qed.

(** X18: a player that joins and leaves: [removePlayer] after [addPlayer]
    of a new id gives back the registry and the count as they were and
    leaves no visibility set for the id, but the chunks that were loaded
    for the player stay in the cache, with all that was cached before. *)
Theorem addPlayer_then_removePlayer (w : GameWorld.t) (player : Player.t) :
  GameWorld.players w !! Player.id player = None ->
  let w' := GameWorld.removePlayer (addPlayer w player) (Player.id player) in
  GameWorld.players w' = GameWorld.players w /\
  GameWorld.getPlayerCount w' = GameWorld.getPlayerCount w /\
  GameWorld.playerChunks w' = delete (Player.id player) (GameWorld.playerChunks w) /\
  (forall k c, GameWorld.loadedChunks w !! k = Some c ->
               GameWorld.loadedChunks w' !! k = Some c) /\
  (forall k, In k (GameWorld.getChunksForPosition w (Player.position player) 2) ->
             is_Some (GameWorld.loadedChunks w' !! k)).
Proof.
  intros Hfresh w'.
  destruct (addPlayer_fresh Math_sin Math_cos w player Hfresh) as (Hp & Hc & _).
  assert (GameWorld.players w' = GameWorld.players w) as Hplayers.
  { unfold w'. cbn [GameWorld.removePlayer GameWorld.players]. rewrite Hp.
    apply delete_insert_id. exact Hfresh. }
  split; [exact Hplayers|].
  split; [unfold GameWorld.getPlayerCount; rewrite Hplayers; reflexivity|].
  split.
  { unfold w'. cbn [GameWorld.removePlayer GameWorld.playerChunks]. rewrite Hc.
    apply delete_insert_eq. }
  unfold w'. cbn [GameWorld.removePlayer GameWorld.loadedChunks].
  unfold GameWorld.addPlayer. destruct (decide _) as [[q Hq]|_]; [congruence|].
  split.
  - intros k c Hk. apply getOrGenerateChunks_keeps. exact Hk.
  - intros k Hk. apply getOrGenerateChunks_loaded. exact Hk.
Qed.

(** X19: [updatePlayer] with a registered id replaces the record under
    that id and nothing else: the other records, the count, the
    visibility sets, the cache and the generator are as before.  The
    visibility set of a player that moved is therefore stale until
    [getNewChunksForPlayer] is called. *)
Theorem updatePlayer_known (w : GameWorld.t) (player stored : Player.t) :
  GameWorld.players w !! Player.id player = Some stored ->
  let w' := GameWorld.updatePlayer w player in
  GameWorld.players w' !! Player.id player = Some player /\
  (forall id, id <> Player.id player ->
              GameWorld.players w' !! id = GameWorld.players w !! id) /\
  GameWorld.getPlayerCount w' = GameWorld.getPlayerCount w /\
  GameWorld.playerChunks w' = GameWorld.playerChunks w /\
  GameWorld.loadedChunks w' = GameWorld.loadedChunks w /\
  GameWorld.chunkGenerator w' = GameWorld.chunkGenerator w.
Proof.
  intros Hknown w'. unfold w', GameWorld.updatePlayer.
  destruct (decide _) as [Hq|Hq]; [|exfalso; apply Hq; eexists; exact Hknown].
  cbn [GameWorld.players GameWorld.playerChunks GameWorld.loadedChunks
       GameWorld.chunkGenerator GameWorld.getPlayerCount].
  split; [apply lookup_insert_eq|].
  split; [intros id Hid; apply lookup_insert_ne; congruence|].
  split; [unfold GameWorld.getPlayerCount; cbn [GameWorld.players];
          rewrite map_size_insert_Some by exact Hq; reflexivity|].
  repeat split.
Qed.

(** X20: when [addPlayer] is only called after [isFull] returned false,
    as the join handler does, and the maximum is not negative, the player
    count never passes the maximum, and [isFull] is true exactly when the
    count equals the maximum. *)
Theorem capacity_respected (w : GameWorld.t) :
  reachableGuarded w ->
  0 <= GameWorld.getPlayerCount w <= GameWorld.maxPlayers w /\
  (GameWorld.isFull w = true <-> GameWorld.getPlayerCount w = GameWorld.maxPlayers w).
Proof.
  intros Hw. split; [apply (guarded_count Math_sin Math_cos), Hw|].
  apply (isFull_guarded Math_sin Math_cos), Hw.
Qed.

End PlayerTheorems.

Lemma fresh_world_reachable :
  GameWorld.reachable sineTable cosineTable (GameWorld.new "world" 50).
Proof. apply GameWorld.reach_new. Qed.

Lemma alice_joined_reachable :
  GameWorld.reachable sineTable cosineTable
    (GameWorld.addPlayer sineTable cosineTable (GameWorld.new "world" 50) alice).
Proof. apply GameWorld.reach_addPlayer, GameWorld.reach_new. Qed.

Lemma alice_joined_registered :
  GameWorld.players
    (GameWorld.addPlayer sineTable cosineTable (GameWorld.new "world" 50) alice)
    !! Player.id alice = Some alice.
Proof.
  destruct (addPlayer_fresh sineTable cosineTable (GameWorld.new "world" 50) alice
              (lookup_empty _)) as (Hp & _).
  rewrite Hp. apply lookup_insert_eq.
Qed.

Lemma visibility_sets_cached_witness :
  let w := GameWorld.addPlayer sineTable cosineTable (GameWorld.new "world" 50) alice in
  GameWorld.reachable sineTable cosineTable w /\
  GameWorld.players w !! Player.id alice = Some alice /\
  Player.id alice = Player.id alice /\
  is_Some (GameWorld.playerChunks w !! Player.id alice).
Proof.
  intros w. split; [exact alice_joined_reachable|].
  split; [exact alice_joined_registered|].
  exact (proj1 (visibility_sets_cached sineTable cosineTable w alice_joined_reachable)
           (Player.id alice) alice alice_joined_registered).
Defined.

Lemma addPlayer_then_getChunksNearPosition_witness :
  let w := GameWorld.new "world" 50 in
  let w1 := GameWorld.addPlayer sineTable cosineTable w alice in
  GameWorld.reachable sineTable cosineTable w /\
  GameWorld.players w !! Player.id alice = None /\
  withinReach (GameWorld.chunkSize w) (Player.position alice) 2 /\
  GameWorld.getPlayerCount w1 = GameWorld.getPlayerCount w + 1 /\
  snd (GameWorld.getChunksNearPosition sineTable cosineTable w1 (Player.position alice) 2)
    = w1.
Proof.
  intros w w1.
  assert (withinReach (GameWorld.chunkSize w) (Player.position alice) 2) as Hnear
    by (repeat split; vm_compute; reflexivity).
  split; [exact fresh_world_reachable|].
  split; [apply lookup_empty|]. split; [exact Hnear|].
  pose proof (addPlayer_then_getChunksNearPosition sineTable cosineTable w alice
                fresh_world_reachable (lookup_empty _) Hnear) as (_ & H2 & _ & H4 & _).
  split; [exact H2 | exact H4].
Defined.

Lemma addPlayer_then_removePlayer_witness :
  let w := GameWorld.new "world" 50 in
  let w' :=
    GameWorld.removePlayer (GameWorld.addPlayer sineTable cosineTable w alice)
      (Player.id alice) in
  GameWorld.players w !! Player.id alice = None /\
  GameWorld.players w' = GameWorld.players w /\
  forall k, In k (GameWorld.getChunksForPosition w (Player.position alice) 2) ->
            is_Some (GameWorld.loadedChunks w' !! k).
Proof.
  intros w w'. split; [apply lookup_empty|].
  pose proof (addPlayer_then_removePlayer sineTable cosineTable w alice (lookup_empty _))
    as (H1 & _ & _ & _ & H5).
  split; [exact H1 | exact H5].
Defined.

Lemma updatePlayer_known_witness :
  let w := GameWorld.addPlayer sineTable cosineTable (GameWorld.new "world" 50) alice in
  let moved := Player.mk "a" "alice" (Position.mk 2600.25 3100) Direction.up true 40 in
  GameWorld.players w !! Player.id moved = Some alice /\
  GameWorld.players (GameWorld.updatePlayer w moved) !! Player.id moved = Some moved /\
  GameWorld.playerChunks (GameWorld.updatePlayer w moved) = GameWorld.playerChunks w.
Proof.
  intros w moved.
  split; [exact alice_joined_registered|].
  pose proof (updatePlayer_known w moved alice alice_joined_registered)
    as (H1 & _ & _ & H4 & _).
  split; [exact H1 | exact H4].
Defined.

Lemma capacity_respected_witness :
  let w := GameWorld.addPlayer sineTable cosineTable (GameWorld.new "world" 1) alice in
  GameWorld.reachableGuarded sineTable cosineTable w /\
  0 <= GameWorld.getPlayerCount w <= GameWorld.maxPlayers w.
Proof.
  intros w.
  assert (GameWorld.reachableGuarded sineTable cosineTable w) as Hw.
  { apply GameWorld.guarded_addPlayer; [apply GameWorld.guarded_new; lia|].
    reflexivity. }
  split; [exact Hw|].
  exact (proj1 (capacity_respected sineTable cosineTable w Hw)).
Defined.

Lemma identifiers_unique_in_world_witness :
  let w := GameWorld.addPlayer sineTable cosineTable (GameWorld.new "world" 50) alice in
  GameWorld.reachable sineTable cosineTable w /\
  idsUnique WorldChunk.trees Tree.id (GameWorld.loadedChunks w).
Proof.
  intros w. split; [exact alice_joined_reachable|].
  exact (proj1 (identifiers_unique_in_world sineTable cosineTable w alice_joined_reachable)).
Defined.

Lemma sameButChunks_chunkSize w w' :
  sameButChunks w w' -> GameWorld.chunkSize w' = GameWorld.chunkSize w.
Proof. intros H. apply H. Qed.

Lemma cached_chunk_determined_witness :
  let first := GameWorld.new "east" 50 in
  let elsewhere :=
    snd (GameWorld.getChunkAtPosition sineTable cosineTable (GameWorld.new "west" 50)
           (Position.mk 100 100)) in
  let r1 :=
    GameWorld.getChunkAtPosition sineTable cosineTable first (Position.mk 1600 2100) in
  let r2 :=
    GameWorld.getChunkAtPosition sineTable cosineTable elsewhere
      (Position.mk 1999.5 2499) in
  GameWorld.reachable sineTable cosineTable (snd r1) /\
  GameWorld.reachable sineTable cosineTable (snd r2) /\
  GameWorld.loadedChunks (snd r1) !! "3,4"%string = Some (fst r1) /\
  GameWorld.loadedChunks (snd r2) !! "3,4"%string = Some (fst r2) /\
  content (fst r2) = content (fst r1).
Proof.
  intros first elsewhere r1 r2.
  assert (GameWorld.reachable sineTable cosineTable (snd r1)) as Hw1
    by apply GameWorld.reach_getChunkAtPosition, GameWorld.reach_new.
  assert (GameWorld.reachable sineTable cosineTable (snd r2)) as Hw2
    by apply GameWorld.reach_getChunkAtPosition, GameWorld.reach_getChunkAtPosition,
             GameWorld.reach_new.
  assert (GameWorld.getChunkKey first 1600 2100 = "3,4"%string) as Hk1
    by (vm_compute; reflexivity).
  assert (GameWorld.getChunkKey elsewhere 1999.5 2499 = "3,4"%string) as Hk2.
  { assert (GameWorld.chunkSize elsewhere = 500) as Hcs
      by exact (sameButChunks_chunkSize _ _
                  (getOrGenerateChunk_frame sineTable cosineTable
                     (GameWorld.new "west" 50)
                     (GameWorld.getChunkKey (GameWorld.new "west" 50) 100 100))).
    unfold GameWorld.getChunkKey. rewrite Hcs. vm_compute. reflexivity. }
  assert (GameWorld.loadedChunks (snd r1) !! "3,4"%string = Some (fst r1)) as H1.
  { rewrite <- Hk1. apply getOrGenerateChunk_lookup. }
  assert (GameWorld.loadedChunks (snd r2) !! "3,4"%string = Some (fst r2)) as H2.
  { rewrite <- Hk2. apply getOrGenerateChunk_lookup. }
  clearbody r1 r2.
  split; [exact Hw1|]. split; [exact Hw2|]. split; [exact H1|]. split; [exact H2|].
  apply (cached_chunk_determined sineTable cosineTable (snd r1) (snd r2) "3,4"
           (fst r1) (fst r2) Hw1 Hw2 H1 H2).
Defined.

Lemma cache_only_grows_witness :
  let w :=
    snd (GameWorld.getChunkAtPosition sineTable cosineTable (GameWorld.new "world" 50)
           (Position.mk 1600 2100)) in
  let w' := GameWorld.removePlayer (GameWorld.addPlayer sineTable cosineTable w alice) "a" in
  rtc (step sineTable cosineTable) w w' /\
  GameWorld.maxPlayers w' = GameWorld.maxPlayers w /\
  forall k c, GameWorld.loadedChunks w !! k = Some c ->
              GameWorld.loadedChunks w' !! k = Some c.
Proof.
  intros w w'.
  assert (rtc (step sineTable cosineTable) w w') as H.
  { eapply rtc_l; [apply step_addPlayer|]. apply rtc_once, step_removePlayer. }
  split; [exact H|].
  pose proof (cache_only_grows sineTable cosineTable w w' H) as (H1 & _ & H3 & _).
  split; [exact H3 | exact H1].
Defined.

(** ** The keys near a position *)

Lemma NoDup_flat_map {A B} (f : A -> list B) (l : list A) :
  NoDup l ->
  (forall x, In x l -> NoDup (f x)) ->
  (forall x x' y, In x l -> In x' l -> In y (f x) -> In y (f x') -> x = x') ->
  NoDup (flat_map f l).
Proof.
  induction 1 as [|a l Ha Hl IH]; intros Hf Hdisj; cbn [flat_map]; [constructor|].
  apply NoDup_app. split; [apply Hf; left; reflexivity|]. split.
  - intros y Hy Hy'. apply list_elem_of_In in Hy, Hy'.
    apply in_flat_map in Hy' as (x' & Hx' & Hy').
    assert (a = x') as <-.
    { apply (Hdisj a x' y); [left; reflexivity | right; exact Hx' | exact Hy | exact Hy']. }
    apply Ha, list_elem_of_In, Hx'.
  - apply IH.
    + intros x Hx. apply Hf. right. exact Hx.
    + intros x x' y Hx Hx'. apply Hdisj; right; assumption.
Qed.

Lemma length_flat_map_le {A B} (f : A -> list B) (l : list A) (m : nat) :
  (forall x, length (f x) <= m)%nat -> (length (flat_map f l) <= length l * m)%nat.
Proof.
  intros Hf. induction l as [|a l IH]; cbn [flat_map length]; [lia|].
  rewrite length_app. specialize (Hf a). lia.
Qed.

Lemma In_fromTo lo hi z : In z (GameWorld.fromTo lo hi) <-> lo <= z <= hi.
Proof.
  unfold GameWorld.fromTo. rewrite <- list_elem_of_In, elem_of_seqZ. lia.
Qed.

Lemma length_fromTo lo hi : length (GameWorld.fromTo lo hi) = Z.to_nat (hi - lo + 1).
Proof. unfold GameWorld.fromTo. apply length_seqZ. Qed.

(** X13: for a position whose quotients by the chunk size are finite
    numbers, and loop bounds that are exact in a double,
    [getChunksForPosition] returns exactly the keys of the chunks that lie
    in the square of radius [distance] around the chunk of the position
    and inside the world, each of them once; so it returns at most
    (2 * distance + 1)^2 keys, none when [distance] is negative. *)
Theorem getChunksForPosition_exact (w : GameWorld.t) (position : Position.t)
    (distance : Z) :
  let quotientX := (Position.x position / num (GameWorld.chunkSize w))%float in
  let quotientY := (Position.y position / num (GameWorld.chunkSize w))%float in
  let centerChunkX := Math_floor quotientX in
  let centerChunkY := Math_floor quotientY in
  let keys := GameWorld.getChunksForPosition w position distance in
  PrimFloat.is_finite quotientX = true ->
  PrimFloat.is_finite quotientY = true ->
  Z.abs centerChunkX + Z.abs distance < 2 ^ 53 ->
  Z.abs centerChunkY + Z.abs distance < 2 ^ 53 ->
  (forall k, In k keys <->
     exists x y, k = GameWorld.key x y /\
       centerChunkX - distance <= x <= centerChunkX + distance /\
       centerChunkY - distance <= y <= centerChunkY + distance /\
       0 <= x /\ 0 <= y /\
       x * GameWorld.chunkSize w < GameWorld.worldWidth w /\
       y * GameWorld.chunkSize w < GameWorld.worldHeight w) /\
  NoDup keys /\
  Z.of_nat (length keys) <= Z.max 0 (2 * distance + 1) * Z.max 0 (2 * distance + 1).
Proof.
  intros qX qY cX cY keys _ _ _ _. subst keys qX qY.
  unfold GameWorld.getChunksForPosition. fold cX cY.
  split; [|split].
  - intros k. split.
    + intros H. apply in_flat_map in H as (x & Hx & H).
      apply in_flat_map in H as (y & Hy & H).
      apply In_fromTo in Hx, Hy.
      destruct (Z.ltb_spec x 0); [destruct H|].
      destruct (Z.ltb_spec y 0); [destruct H|].
      destruct (Z.geb_spec (x * GameWorld.chunkSize w) (GameWorld.worldWidth w));
        [destruct H|].
      destruct (Z.geb_spec (y * GameWorld.chunkSize w) (GameWorld.worldHeight w));
        [destruct H|].
      cbn in H. destruct H as [<-|[]]. exists x, y. repeat split; lia.
    + intros (x & y & -> & Hx & Hy & Hx0 & Hy0 & Hxw & Hyh).
      apply in_flat_map. exists x. split; [apply In_fromTo; lia|].
      apply in_flat_map. exists y. split; [apply In_fromTo; lia|].
      destruct (Z.ltb_spec x 0); [lia|].
      destruct (Z.ltb_spec y 0); [lia|].
      destruct (Z.geb_spec (x * GameWorld.chunkSize w) (GameWorld.worldWidth w)); [lia|].
      destruct (Z.geb_spec (y * GameWorld.chunkSize w) (GameWorld.worldHeight w)); [lia|].
      left. reflexivity.
  - apply NoDup_flat_map.
    + apply NoDup_seqZ.
    + intros x _. apply NoDup_flat_map.
      * apply NoDup_seqZ.
      * intros y _. destruct (_ || _); [constructor|apply NoDup_singleton].
      * intros y y' k _ _ Hk Hk'.
        destruct (_ || _); [destruct Hk|]. destruct Hk as [<-|[]].
        destruct (_ || _); [destruct Hk'|]. destruct Hk' as [Hk'|[]].
        apply key_inj in Hk'. lia.
    + intros x x' k _ _ Hk Hk'.
      apply in_flat_map in Hk as (y & _ & Hk). apply in_flat_map in Hk' as (y' & _ & Hk').
      destruct (_ || _); [destruct Hk|]. destruct Hk as [<-|[]].
      destruct (_ || _); [destruct Hk'|]. destruct Hk' as [Hk'|[]].
      apply key_inj in Hk'. lia.
  - match goal with |- context [flat_map ?f (GameWorld.fromTo ?lo ?hi)] =>
      pose proof (length_flat_map_le f (GameWorld.fromTo lo hi)
                    (Z.to_nat (Z.max 0 (2 * distance + 1)))) as H
    end.
    rewrite length_fromTo in H.
    match type of H with ?A -> _ => assert A as HA end.
    { intros x.
      match goal with |- context [flat_map ?f (GameWorld.fromTo ?lo ?hi)] =>
        pose proof (length_flat_map_le f (GameWorld.fromTo lo hi) 1%nat) as H'
      end.
      rewrite length_fromTo in H'.
      match type of H' with ?A -> _ => assert A as HA' end.
      { intros y. destruct (_ || _); cbn; lia. }
      specialize (H' HA'). lia. }
    specialize (H HA).
    revert H. match goal with |- (length ?l <= _)%nat -> _ => generalize (length l) end.
    intros n Hn. nia.
Qed.

Lemma getChunksForPosition_exact_witness :
  let w := GameWorld.new "world" 50 in
  let position := Position.mk 4990.5 4100 in
  let keys := GameWorld.getChunksForPosition w position 2 in
  PrimFloat.is_finite (Position.x position / num (GameWorld.chunkSize w)) = true /\
  PrimFloat.is_finite (Position.y position / num (GameWorld.chunkSize w)) = true /\
  Z.abs (Math_floor (Position.x position / num (GameWorld.chunkSize w))) + Z.abs 2
    < 2 ^ 53 /\
  Z.abs (Math_floor (Position.y position / num (GameWorld.chunkSize w))) + Z.abs 2
    < 2 ^ 53 /\
  NoDup keys /\
  Z.of_nat (length keys) <= Z.max 0 (2 * 2 + 1) * Z.max 0 (2 * 2 + 1).
Proof.
  intros w position keys.
  assert (PrimFloat.is_finite (Position.x position / num (GameWorld.chunkSize w)) = true)
    as H1 by (vm_compute; reflexivity).
  assert (PrimFloat.is_finite (Position.y position / num (GameWorld.chunkSize w)) = true)
    as H2 by (vm_compute; reflexivity).
  assert (Z.abs (Math_floor (Position.x position / num (GameWorld.chunkSize w))) + Z.abs 2
          < 2 ^ 53) as H3 by (vm_compute; reflexivity).
  assert (Z.abs (Math_floor (Position.y position / num (GameWorld.chunkSize w))) + Z.abs 2
          < 2 ^ 53) as H4 by (vm_compute; reflexivity).
  split; [exact H1|]. split; [exact H2|]. split; [exact H3|]. split; [exact H4|].
  exact (proj2 (getChunksForPosition_exact w position 2 H1 H2 H3 H4)).
Defined.

(** ** Keys, positions and the generator's streams *)

(** X8: a chunk key reads back as the coordinates it was made from,
    for coordinates that a double holds exactly (up to 2^53 in magnitude,
    which the template writes in plain digits): [split (',')] gives two
    pieces and [parseInt] of them gives [x] and [y], negative or not; so
    two keys are equal only if the coordinates are. *)
Theorem chunk_key_round_trip (x y x' y' : Z) :
  Z.abs x < 2 ^ 53 -> Z.abs y < 2 ^ 53 -> Z.abs x' < 2 ^ 53 -> Z.abs y' < 2 ^ 53 ->
  (GameWorld.split (GameWorld.key x y) !! 0%nat ≫= GameWorld.parseInt = Some x /\
   GameWorld.split (GameWorld.key x y) !! 1%nat ≫= GameWorld.parseInt = Some y /\
   length (GameWorld.split (GameWorld.key x y)) = 2%nat) /\
  (GameWorld.key x y = GameWorld.key x' y' <-> x = x' /\ y = y').
Proof.
  intros _ _ _ _. split.
  - rewrite split_key. cbn [lookup list_lookup mbind option_bind length].
    rewrite !parseInt_toString. repeat split.
  - split; [apply key_inj | intros [-> ->]; reflexivity].
Qed.

Lemma chunk_key_round_trip_witness :
  Z.abs (-3) < 2 ^ 53 /\ Z.abs 12 < 2 ^ 53 /\
  GameWorld.split (GameWorld.key (-3) 12) !! 0%nat ≫= GameWorld.parseInt = Some (-3) /\
  GameWorld.split (GameWorld.key (-3) 12) !! 1%nat ≫= GameWorld.parseInt = Some 12.
Proof.
  assert (Z.abs (-3) < 2 ^ 53) as H1 by (vm_compute; reflexivity).
  assert (Z.abs 12 < 2 ^ 53) as H2 by (vm_compute; reflexivity).
  split; [exact H1|]. split; [exact H2|].
  destruct (chunk_key_round_trip (-3) 12 (-3) 12 H1 H2 H1 H2) as ((Hx & Hy & _) & _).
  split; [exact Hx | exact Hy].
Defined.

Section Position.

Variables Math_sin Math_cos : float -> float.

Local Abbreviation getChunkAtPosition := (GameWorld.getChunkAtPosition Math_sin Math_cos).
Local Abbreviation reachable := (GameWorld.reachable Math_sin Math_cos).

(** X14: for a position whose quotients by 500 are finite numbers with
    floors that a double holds exactly, [getChunkAtPosition] returns the
    chunk whose coordinates are the floors of [x / 500] and [y / 500], and
    caches it under their key; the players and the visibility sets are not
    touched.  There is no test against the bounds of the world: a
    position outside it gets a chunk too, with coordinates that are
    negative or beyond 9. *)
Theorem getChunkAtPosition_chunk (w : GameWorld.t) (position : Position.t) :
  reachable w ->
  let r := getChunkAtPosition w position in
  let x := Math_floor (Position.x position / 500) in
  let y := Math_floor (Position.y position / 500) in
  PrimFloat.is_finite (Position.x position / 500) = true ->
  PrimFloat.is_finite (Position.y position / 500) = true ->
  Z.abs x < 2 ^ 53 -> Z.abs y < 2 ^ 53 ->
  WorldChunk.x (fst r) = x /\ WorldChunk.y (fst r) = y /\
  GameWorld.loadedChunks (snd r) !! GameWorld.key x y = Some (fst r) /\
  GameWorld.players (snd r) = GameWorld.players w /\
  GameWorld.playerChunks (snd r) = GameWorld.playerChunks w.
Proof.
  intros Hw r x y _ _ _ _.
  destruct (reachable_players Math_sin Math_cos w Hw) as ((_ & _ & Hcs & _) & _).
  assert (GameWorld.getChunkKey w (Position.x position) (Position.y position)
          = GameWorld.key x y) as Hkey.
  { unfold GameWorld.getChunkKey. rewrite Hcs. reflexivity. }
  subst r. unfold GameWorld.getChunkAtPosition. rewrite Hkey.
  destruct (getOrGenerateChunk_keyed Math_sin Math_cos w x y
              (reachable_cacheKeyed Math_sin Math_cos w Hw)) as (H1 & _ & H3).
  destruct (getOrGenerateChunk_frame Math_sin Math_cos w (GameWorld.key x y))
    as (_ & Hp & _ & Hc & _).
  apply key_inj in H1 as [H1 H2].
  repeat split; assumption.
Qed.

End Position.

Lemma getChunkAtPosition_chunk_witness :
  let r :=
    GameWorld.getChunkAtPosition sineTable cosineTable (GameWorld.new "world" 50)
      (Position.mk (-1) 5200) in
  GameWorld.reachable sineTable cosineTable (GameWorld.new "world" 50) /\
  Math_floor (-1 / 500) = -1 /\ Math_floor (5200 / 500) = 10 /\
  PrimFloat.is_finite (-1 / 500) = true /\ PrimFloat.is_finite (5200 / 500) = true /\
  WorldChunk.x (fst r) = Math_floor (-1 / 500) /\
  WorldChunk.y (fst r) = Math_floor (5200 / 500).
Proof.
  intros r. split; [apply GameWorld.reach_new|].
  assert (Math_floor (-1 / 500) = -1) as Hx by (vm_compute; reflexivity).
  assert (Math_floor (5200 / 500) = 10) as Hy by (vm_compute; reflexivity).
  split; [exact Hx|]. split; [exact Hy|].
  assert (PrimFloat.is_finite (-1 / 500) = true) as Hfx by (vm_compute; reflexivity).
  assert (PrimFloat.is_finite (5200 / 500) = true) as Hfy by (vm_compute; reflexivity).
  split; [exact Hfx|]. split; [exact Hfy|].
  pose proof (getChunkAtPosition_chunk sineTable cosineTable (GameWorld.new "world" 50)
                (Position.mk (-1) 5200) (GameWorld.reach_new _ _ _ _) Hfx Hfy
                ltac:(cbn [Position.x]; rewrite Hx; reflexivity)
                ltac:(cbn [Position.y]; rewrite Hy; reflexivity)) as (H1 & H2 & _).
  split; [exact H1 | exact H2].
Defined.

(** X7: the seeded generator only has 233280 streams: two seeds that
    are not negative and differ by a multiple of 233280 produce the same
    values, call after call (the seeds being small enough for the first
    product to be exact in a double). *)
Theorem random_seed_modulo (seed k : Z) (n : nat) :
  0 <= seed -> 0 <= k ->
  (seed + 233280 * k) * 9301 + 49297 < 2 ^ 53 ->
  output (seed + 233280 * k) n = output seed n.
Proof.
  intros Hseed Hk _.
  assert (snd (ChunkGenerator.random (seed + 233280 * k))
          = snd (ChunkGenerator.random seed)) as Hfirst.
  { rewrite !random_state. rewrite !Z.rem_mod_nonneg by lia.
    replace ((seed + 233280 * k) * 9301 + 49297)
      with (seed * 9301 + 49297 + (k * 9301) * 233280) by ring.
    apply Z_mod_plus_full. }
  unfold output, ChunkGenerator.createSeededRandom.
  destruct n as [|n]; cbn [stateAfter].
  - rewrite !random_value, Hfirst. reflexivity.
  - rewrite Hfirst. reflexivity.
Qed.

Lemma random_seed_modulo_witness :
  0 <= 30004 /\ 0 <= 2 /\ (30004 + 233280 * 2) * 9301 + 49297 < 2 ^ 53 /\
  output (30004 + 233280 * 2) 7 = output 30004 7.
Proof.
  assert ((30004 + 233280 * 2) * 9301 + 49297 < 2 ^ 53) as H by (vm_compute; reflexivity).
  split; [lia|]. split; [lia|]. split; [exact H|].
  apply (random_seed_modulo 30004 2 7); [lia | lia | exact H].
Defined.

Lemma stateAfter_add (a b : nat) (st : ChunkGenerator.Random) :
  stateAfter (a + b) st = stateAfter b (stateAfter a st).
Proof.
  revert st. induction a as [|a IH]; intros st; cbn [Nat.add stateAfter];
    [reflexivity | apply IH].
Qed.

Lemma attempt_next g chunkX chunkY size st (k : nat) :
  (1 <= k)%nat ->
  attempt g chunkX chunkY size (stateAfter 2 st) k
  = attempt g chunkX chunkY size st (S k).
Proof.
  intros Hk. unfold attempt.
  replace (2 * (S k - 1))%nat with (2 + 2 * (k - 1))%nat by lia.
  rewrite stateAfter_add. reflexivity.
Qed.

(** X5: the retry loop of [generateTrees] and [generateBushes], on
    coordinates and sizes small enough for the collision check to be
    exact.  It makes at most [left] attempts (50 in the program), two calls
    of the generator each; every attempt before the last one it makes
    collided; what it reports is the position of its last attempt, and
    whether that one collides with nothing; and when it reports no valid
    position it has made every attempt.  So it stops at the first position
    that the collision check accepts. *)
Theorem placement_attempts (left : nat) (g : ChunkGenerator.t) (chunkX chunkY size : Z)
    (existing : list Element.t) (x0 y0 : Z) (st : ChunkGenerator.Random) :
  small (chunkX * ChunkGenerator.chunkSize g) ->
  small (chunkY * ChunkGenerator.chunkSize g) ->
  small (ChunkGenerator.chunkSize g) -> small size ->
  Forall smallElement existing ->
  Z.abs st * 9301 + 49297 < 2 ^ 53 ->
  exists attempts : nat,
    (attempts <= left)%nat /\
    snd (ChunkGenerator.placement left g chunkX chunkY size existing x0 y0 st)
      = stateAfter (2 * attempts) st /\
    (forall k, (1 <= k < attempts)%nat ->
       attemptCollides g chunkX chunkY size existing st k = true) /\
    (attempts = 0%nat ->
       left = 0%nat /\
       fst (ChunkGenerator.placement left g chunkX chunkY size existing x0 y0 st)
         = (false, x0, y0)) /\
    ((1 <= attempts)%nat ->
       fst (ChunkGenerator.placement left g chunkX chunkY size existing x0 y0 st)
         = (negb (attemptCollides g chunkX chunkY size existing st attempts),
            fst (attempt g chunkX chunkY size st attempts),
            snd (attempt g chunkX chunkY size st attempts))) /\
    (fst (fst (fst (ChunkGenerator.placement left g chunkX chunkY size existing x0 y0 st)))
       = false -> attempts = left).
Proof.
  intros _ _ _ _ _ _.
  revert x0 y0 st. induction left as [|left IH]; intros x0 y0 st;
    cbn [ChunkGenerator.placement].
  - exists 0%nat. cbn [fst snd].
    split; [lia|]. split; [reflexivity|]. split; [intros k Hk; lia|].
    split; [intros _; split; reflexivity|]. split; [intros Hk; lia | reflexivity].
  - assert (attempt g chunkX chunkY size st 1
            = (chunkX * ChunkGenerator.chunkSize g
                 + Math_floor (fst (ChunkGenerator.random st)
                               * num (ChunkGenerator.chunkSize g - size)),
               chunkY * ChunkGenerator.chunkSize g
                 + Math_floor (fst (ChunkGenerator.random (snd (ChunkGenerator.random st)))
                               * num (ChunkGenerator.chunkSize g - size)))) as Hfirst.
    { unfold attempt. change (stateAfter (2 * (1 - 1)) st) with st.
      destruct (ChunkGenerator.random st) as [r1 st1]. cbn [fst snd].
      destruct (ChunkGenerator.random st1) as [r2 st2]. reflexivity. }
    assert (stateAfter 2 st
            = snd (ChunkGenerator.random (snd (ChunkGenerator.random st)))) as Hst2
      by reflexivity.
    destruct (ChunkGenerator.random st) as [r1 st1]. cbn [fst snd] in Hfirst, Hst2.
    destruct (ChunkGenerator.random st1) as [r2 st2]. cbn [fst snd] in Hfirst, Hst2.
    subst st2.
    set (x := chunkX * ChunkGenerator.chunkSize g
              + Math_floor (r1 * num (ChunkGenerator.chunkSize g - size))) in *.
    set (y := chunkY * ChunkGenerator.chunkSize g
              + Math_floor (r2 * num (ChunkGenerator.chunkSize g - size))) in *.
    assert (attemptCollides g chunkX chunkY size existing st 1
            = ChunkGenerator.checkCollisionWithExistingElements x y size existing)
      as Hcheck by (unfold attemptCollides; rewrite Hfirst; reflexivity).
    destruct (ChunkGenerator.checkCollisionWithExistingElements x y size existing) eqn:Hc;
      cbn [negb].
    + destruct (IH x y (stateAfter 2 st))
        as (attempts & Hle & Hst & Hbefore & Hnone & Hsome & Hall).
      exists (S attempts). split; [lia|]. split.
      { rewrite Hst. replace (2 * S attempts)%nat with (2 + 2 * attempts)%nat by lia.
        symmetry. apply stateAfter_add. }
      split.
      { intros k Hk. destruct k as [|[|k]]; [lia | exact Hcheck |].
        unfold attemptCollides. rewrite <- attempt_next by lia.
        apply (Hbefore (S k)). lia. }
      split; [intros Hz; lia|]. split.
      { intros _. destruct attempts as [|attempts].
        - destruct (Hnone eq_refl) as [_ ->].
          unfold attemptCollides. rewrite Hfirst. cbn [fst snd].
          fold x y. rewrite Hc. reflexivity.
        - rewrite Hsome by lia. unfold attemptCollides.
          rewrite !attempt_next by lia. reflexivity. }
      intros Hv. rewrite (Hall Hv). reflexivity.
    + exists 1%nat. cbn [fst snd]. split; [lia|]. split; [reflexivity|].
      split; [intros k Hk; lia|]. split; [intros Hz; lia|]. split.
      * intros _. rewrite Hcheck, Hfirst. reflexivity.
      * discriminate.
Qed.

Lemma placement_attempts_witness :
  let g := ChunkGenerator.new 5000 5000 500 in
  small (3 * ChunkGenerator.chunkSize g) /\ small (4 * ChunkGenerator.chunkSize g) /\
  small (ChunkGenerator.chunkSize g) /\ small 99 /\
  Forall smallElement [Element.mk 1739 2138 (Some 99)] /\
  Z.abs 30004 * 9301 + 49297 < 2 ^ 53 /\
  exists attempts : nat,
    (attempts <= 50)%nat /\
    snd (ChunkGenerator.placement 50 g 3 4 99 [Element.mk 1739 2138 (Some 99)] 0 0 30004)
      = stateAfter (2 * attempts) 30004.
Proof.
  intros g.
  assert (small (3 * ChunkGenerator.chunkSize g)) as H1 by (vm_compute; reflexivity).
  assert (small (4 * ChunkGenerator.chunkSize g)) as H2 by (vm_compute; reflexivity).
  assert (small (ChunkGenerator.chunkSize g)) as H3 by (vm_compute; reflexivity).
  assert (small 99) as H4 by (vm_compute; reflexivity).
  assert (Forall smallElement [Element.mk 1739 2138 (Some 99)]) as H5
    by (repeat constructor; vm_compute; reflexivity).
  assert (Z.abs 30004 * 9301 + 49297 < 2 ^ 53) as H6 by (vm_compute; reflexivity).
  destruct (placement_attempts 50 g 3 4 99 [Element.mk 1739 2138 (Some 99)] 0 0 30004
              H1 H2 H3 H4 H5 H6) as (attempts & Hle & Hst & _).
  repeat (split; [assumption|]).
  exists attempts. split; [exact Hle | exact Hst].
Defined.

Section VisibleEntities.

Variables Math_sin Math_cos : float -> float.

Local Abbreviation reachable := (GameWorld.reachable Math_sin Math_cos).

(** X16: everything a player is recorded as seeing lies in the world:
    in each chunk of a visibility set, the square of every tree and of
    every bush is inside [0, 5000] x [0, 5000], and every flower is a
    point of [0, 5000) x [0, 5000); sizes, variants and colours are in
    their ranges. *)
Theorem visible_entities_in_world (w : GameWorld.t) (id : string)
    (seen : gset string) (k : string) (c : WorldChunk.t) :
  reachable w ->
  GameWorld.playerChunks w !! id = Some seen -> k ∈ seen ->
  GameWorld.loadedChunks w !! k = Some c ->
  Forall (fun a => treeShaped a /\ inWorld (Tree.x a) (Tree.y a) (Tree.size a))
         (WorldChunk.trees c) /\
  Forall (fun b => bushShaped b /\ inWorld (Bush.x b) (Bush.y b) (Bush.size b))
         (WorldChunk.bushes c) /\
  Forall (fun f => flowerColoured f /\ inWorld (Flower.x f) (Flower.y f) 1)
         (WorldChunk.flowers c).
Proof.
  intros Hw Hseen Hk Hc.
  destruct (reachable_players Math_sin Math_cos w Hw) as (_ & _ & Hv).
  destruct (Hv id seen k Hseen Hk) as [(x & y & -> & Hx & Hy) _].
  destruct (reachable_generated Math_sin Math_cos w _ c Hw Hc)
    as (g & x' & y' & Hg & Hkey & ->).
  apply key_inj in Hkey as [<- <-].
  destruct (generateChunk_shaped Math_sin Math_cos g x y ltac:(lia)) as (Ht & Hb & Hf).
  cbv zeta in Ht, Hb, Hf.
  split; [|split]; eapply Forall_impl; try eassumption; cbv beta.
  - intros a [Hs Hin]. split; [exact Hs|]. specialize (Hin Hg).
    unfold treeInside, boxInside in Hin. unfold inWorld. lia.
  - intros b [Hs Hin]. split; [exact Hs|]. specialize (Hin Hg).
    unfold bushInside, boxInside in Hin. unfold inWorld. lia.
  - intros f [Hs Hin]. split; [exact Hs|]. specialize (Hin Hg).
    unfold flowerInside in Hin. unfold inWorld. lia.
Qed.

End VisibleEntities.

Lemma visible_entities_in_world_witness :
  let w := GameWorld.addPlayer sineTable cosineTable (GameWorld.new "world" 50) alice in
  exists (seen : gset string) (c : WorldChunk.t),
    GameWorld.reachable sineTable cosineTable w /\
    GameWorld.playerChunks w !! Player.id alice = Some seen /\
    "5,5"%string ∈ seen /\
    GameWorld.loadedChunks w !! "5,5"%string = Some c /\
    Forall (fun a => treeShaped a /\ inWorld (Tree.x a) (Tree.y a) (Tree.size a))
           (WorldChunk.trees c).
Proof.
  intros w.
  destruct (addPlayer_fresh sineTable cosineTable (GameWorld.new "world" 50) alice
              (lookup_empty _)) as (_ & Hc & _).
  fold w in Hc.
  assert (In "5,5"%string
            (GameWorld.getChunksForPosition (GameWorld.new "world" 50)
               (Player.position alice) 2)) as Hin
    by (vm_compute; tauto).
  assert (is_Some (GameWorld.loadedChunks w !! "5,5"%string)) as [c Hcached].
  { unfold w, GameWorld.addPlayer. destruct (decide _) as [[q Hq]|_].
    - unfold GameWorld.new in Hq. cbn [GameWorld.players] in Hq.
      rewrite lookup_empty in Hq. discriminate.
    - apply getOrGenerateChunks_loaded, Hin. }
  assert (GameWorld.playerChunks w !! Player.id alice
          = Some (list_to_set (GameWorld.getChunksForPosition (GameWorld.new "world" 50)
                                 (Player.position alice) 2))) as Hseen
    by (rewrite Hc; apply lookup_insert_eq).
  assert ("5,5"%string ∈ (list_to_set (GameWorld.getChunksForPosition
                             (GameWorld.new "world" 50) (Player.position alice) 2)
                          : gset string)) as Hk
    by (apply elem_of_list_to_set, list_elem_of_In, Hin).
  pose proof alice_joined_reachable as Hw. fold w in Hw.
  clearbody w.
  eexists. exists c. split; [exact Hw|]. split; [exact Hseen|]. split; [exact Hk|].
  split; [exact Hcached|].
  exact (proj1 (visible_entities_in_world sineTable cosineTable w _ _ _ c
                  Hw Hseen Hk Hcached)).
Defined.

(** ** Validation of a movement *)

Lemma includes_direction v :
  JS.includes ["up"; "down"; "left"; "right"]%string v = true <->
  exists d, v = JS.str (directionName d).
Proof.
  split.
  - destruct v as [| | | |s| |]; cbn [JS.includes]; try discriminate.
    cbn [existsb]. rewrite !orb_true_iff, !String.eqb_eq.
    intros [->|[->|[->|[->|H]]]]; [| | | |discriminate].
    + exists Direction.up. reflexivity.
    + exists Direction.down. reflexivity.
    + exists Direction.left. reflexivity.
    + exists Direction.right. reflexivity.
  - intros [[] ->]; reflexivity.
Qed.

(** The test [!v || typeof v !== 'object'] lets objects and arrays
    through, and nothing else. *)
Lemma object_guard v :
  negb (JS.truthy v) || negb (String.eqb (JS.typeof v) "object") = false ->
  (exists properties, v = JS.object properties) \/ (exists items, v = JS.array items).
Proof.
  destruct v as [| |b|n|s|properties|items]; cbn; try discriminate.
  - rewrite orb_true_r. discriminate.
  - rewrite orb_true_r. discriminate.
  - rewrite orb_true_r. discriminate.
  - intros _. left. eexists. reflexivity.
  - intros _. right. eexists. reflexivity.
Qed.

Lemma typeof_number v :
  String.eqb (JS.typeof v) "number" = true -> exists n, v = JS.number n.
Proof. destruct v; cbn; try discriminate. intros _. eexists. reflexivity. Qed.

Lemma typeof_boolean v :
  String.eqb (JS.typeof v) "boolean" = true -> exists b, v = JS.boolean b.
Proof. destruct v; cbn; try discriminate. intros _. eexists. reflexivity. Qed.

Lemma default_undefined (o : option JS.value) v :
  default JS.undefined o = v -> v <> JS.undefined -> o = Some v.
Proof. destruct o; cbn; congruence. Qed.

Lemma encode_carries m : carries (encode m) m.
Proof.
  unfold carries, encode. eexists. eexists. split; [reflexivity|].
  split; [apply lookup_insert_eq|].
  split; [apply lookup_insert_eq|].
  split; [rewrite lookup_insert_ne by discriminate; apply lookup_singleton_eq|].
  split.
  - rewrite lookup_insert_ne by discriminate. apply lookup_insert_eq.
  - rewrite !lookup_insert_ne by discriminate. apply lookup_singleton_eq.
Qed.

Lemma validatePlayerMovement_total data :
  is_Some (Validation.validatePlayerMovement data).
Proof.
  unfold Validation.validatePlayerMovement.
  destruct (negb (JS.truthy data) || _) eqn:G; [eexists; reflexivity|].
  apply object_guard in G as [[properties ->]|[items ->]]; cbn [JS.get mbind option_bind].
  - destruct (negb (JS.truthy _) || _) eqn:G; [eexists; reflexivity|].
    apply object_guard in G as [[coordinates ->]|[items ->]];
      cbn [JS.get mbind option_bind].
    + repeat (match goal with |- is_Some (if ?c then _ else _) => destruct c end;
              [eexists; reflexivity|]).
      eexists; reflexivity.
    + cbn. eexists; reflexivity.
  - cbn. eexists; reflexivity.
Qed.

Lemma validatePlayerMovement_carries data :
  Validation.validatePlayerMovement data = Some true <->
  exists m : Validation.MovementData, carries data m.
Proof.
  split.
  - unfold Validation.validatePlayerMovement.
    destruct (negb (JS.truthy data) || _) eqn:G; [discriminate|].
    apply object_guard in G as [[properties ->]|[items ->]];
      cbn [JS.get mbind option_bind]; [|cbn; discriminate].
    destruct (negb (JS.truthy _) || _) eqn:G; [discriminate|].
    apply object_guard in G as [[coordinates Hp]|[items Hp]]; rewrite Hp;
      cbn [JS.get mbind option_bind]; [|cbn; discriminate].
    apply default_undefined in Hp; [|discriminate].
    destruct (String.eqb (JS.typeof _) "number") eqn:Hx; cbn [negb]; [|discriminate].
    apply typeof_number in Hx as [x Hx]. apply default_undefined in Hx; [|discriminate].
    destruct (String.eqb (JS.typeof _) "number") eqn:Hy; cbn [negb]; [|discriminate].
    apply typeof_number in Hy as [y Hy]. apply default_undefined in Hy; [|discriminate].
    destruct (JS.includes _ _) eqn:Hd; cbn [negb]; [|discriminate].
    apply includes_direction in Hd as [d Hd].
    apply default_undefined in Hd; [|discriminate].
    destruct (String.eqb (JS.typeof _) "boolean") eqn:Hm; cbn [negb]; [|discriminate].
    apply typeof_boolean in Hm as [m Hm]. apply default_undefined in Hm; [|discriminate].
    intros _. exists (Validation.mk (Position.mk x y) d m).
    exists properties, coordinates. repeat split; assumption.
  - intros (m & properties & coordinates & -> & Hp & Hx & Hy & Hd & Hm).
    unfold Validation.validatePlayerMovement, JS.get.
    change (JS.name JS.position) with "position"%string.
    change (JS.name JS.direction) with "direction"%string.
    change (JS.name JS.isMoving) with "isMoving"%string.
    rewrite Hp, Hd, Hm.
    change (JS.name JS.x) with "x"%string. change (JS.name JS.y) with "y"%string.
    cbn [default from_option Datatypes.id mbind option_bind JS.truthy JS.typeof negb orb
         String.eqb Ascii.eqb Bool.eqb].
    rewrite Hx, Hy.
    cbn [default from_option Datatypes.id mbind option_bind JS.truthy JS.typeof negb orb
         String.eqb Ascii.eqb Bool.eqb].
    rewrite (proj2 (includes_direction _)) by (eexists; reflexivity).
    reflexivity.
Qed.

(** X21: [validatePlayerMovement] never throws, whatever the payload,
    and it accepts exactly the objects that carry a movement: a [position]
    object with numbers [x] and [y], one of the four directions and a
    boolean [isMoving]; other properties are ignored.  A number is all
    it asks of a coordinate: [NaN] and the infinities are accepted. *)
Theorem validatePlayerMovement_accepts (data : JS.value) :
  is_Some (Validation.validatePlayerMovement data) /\
  (Validation.validatePlayerMovement data = Some true <->
   exists m : Validation.MovementData, carries data m) /\
  (forall m : Validation.MovementData,
     Validation.validatePlayerMovement (encode m) = Some true).
Proof.
  split; [apply validatePlayerMovement_total|].
  split; [apply validatePlayerMovement_carries|].
  intros m. apply validatePlayerMovement_carries. exists m. apply encode_carries.
Qed.

(** ** The movement check *)

Lemma sub_nan_l y : (nan - y)%float = nan.
Proof.
  apply Prim2SF_inj. rewrite FloatAxioms.sub_spec.
  change (Prim2SF nan) with S754_nan. reflexivity.
Qed.

Lemma sub_nan_r x : (x - nan)%float = nan.
Proof.
  apply Prim2SF_inj. rewrite FloatAxioms.sub_spec.
  change (Prim2SF nan) with S754_nan. destruct (Prim2SF x); reflexivity.
Qed.

Lemma add_nan_l y : (nan + y)%float = nan.
Proof.
  apply Prim2SF_inj. rewrite FloatAxioms.add_spec.
  change (Prim2SF nan) with S754_nan. reflexivity.
Qed.

Lemma add_nan_r x : (x + nan)%float = nan.
Proof.
  apply Prim2SF_inj. rewrite FloatAxioms.add_spec.
  change (Prim2SF nan) with S754_nan. destruct (Prim2SF x); reflexivity.
Qed.

Section MovementCheck.

Variable Math_pow : float -> float -> float.

Hypothesis Math_pow_nan : Math_pow nan 2 = nan.

Lemma movementDistance_nan x y lastPosition :
  x = nan \/ y = nan \/ Position.x lastPosition = nan \/ Position.y lastPosition = nan ->
  Index.movementDistance Math_pow x y lastPosition = nan.
Proof.
  unfold Index.movementDistance.
  intros [->|[->|[->| ->]]];
    rewrite ?sub_nan_l, ?sub_nan_r, Math_pow_nan, ?add_nan_l, ?add_nan_r;
    reflexivity.
Qed.

(** X22: the distance check of the [player:move] handler never rejects
    [NaN].  A payload that validation accepts and that has [NaN] for a
    coordinate passes the check, whatever the last position of the player;
    and when a coordinate of the last position is [NaN], every payload that
    validation accepts passes, whatever the distance.  Also, on a payload
    that validation accepts the check does not throw. *)
Theorem movement_check_passes_nan (currentPlayer : Player.t) (data : JS.value)
    (m : Validation.MovementData) :
  carries data m ->
  (exists accepted, Index.movementAccepted Math_pow currentPlayer data = Some accepted) /\
  (Position.x (Validation.position m) = nan \/
   Position.y (Validation.position m) = nan \/
   Position.x (Player.position currentPlayer) = nan \/
   Position.y (Player.position currentPlayer) = nan ->
   Index.movementAccepted Math_pow currentPlayer data = Some true).
Proof.
  intros Hm.
  assert (Validation.validatePlayerMovement data = Some true) as Hvalid
    by (apply validatePlayerMovement_carries; exists m; exact Hm).
  destruct Hm as (properties & coordinates & -> & Hp & Hx & Hy & _).
  unfold Index.movementAccepted. rewrite Hvalid.
  cbn [mbind option_bind negb JS.get]. change (JS.name JS.position) with "position"%string.
  rewrite Hp. cbn [default from_option Datatypes.id JS.get mbind option_bind].
  change (JS.name JS.x) with "x"%string. change (JS.name JS.y) with "y"%string.
  rewrite Hx, Hy. cbn [default from_option Datatypes.id Index.operand mbind option_bind].
  split.
  - destruct (_ <? _)%float; eexists; reflexivity.
  - intros Hnan. rewrite (movementDistance_nan _ _ _ Hnan). reflexivity.
Qed.

End MovementCheck.

Lemma movement_check_passes_nan_witness :
  let pow := fun base _ : float => (base * base)%float in
  let m := Validation.mk (Position.mk nan 100000) Direction.up true in
  pow nan 2%float = nan /\
  carries (encode m) m /\
  Index.movementAccepted pow alice (encode m) = Some true.
Proof.
  intros pow m.
  assert (pow nan 2%float = nan) as Hpow by (vm_compute; reflexivity).
  split; [exact Hpow|]. split; [apply encode_carries|].
  apply (proj2 (movement_check_passes_nan pow Hpow alice (encode m) m (encode_carries m))).
  left. reflexivity.
Defined.

(** ** The handlers and the registry *)

Section Handlers.

Variables Math_sin Math_cos : float -> float.
Variable MAX_PLAYERS_PER_WORLD : Z.

Local Abbreviation addPlayer := (GameWorld.addPlayer Math_sin Math_cos).
Local Abbreviation getChunksNearPosition :=
  (GameWorld.getChunksNearPosition Math_sin Math_cos).
Local Abbreviation getNewChunksForPlayer :=
  (GameWorld.getNewChunksForPlayer Math_sin Math_cos).
Local Abbreviation reachableGuarded := (GameWorld.reachableGuarded Math_sin Math_cos).
Local Abbreviation step := (step Math_sin Math_cos).
Local Abbreviation getOrCreateWorld := (Index.getOrCreateWorld MAX_PLAYERS_PER_WORLD).
Local Abbreviation playerJoin :=
  (Index.playerJoin Math_sin Math_cos MAX_PLAYERS_PER_WORLD).
Local Abbreviation served := (Index.served Math_sin Math_cos MAX_PLAYERS_PER_WORLD).
Local Abbreviation registryKept :=
  (registryKept Math_sin Math_cos MAX_PLAYERS_PER_WORLD).

Lemma registryKept_insert gameWorlds worldId w :
  registryKept gameWorlds ->
  reachableGuarded w -> GameWorld.id w = worldId ->
  GameWorld.maxPlayers w = MAX_PLAYERS_PER_WORLD ->
  registryKept (<[worldId := w]> gameWorlds).
Proof.
  intros Hk Hw Hid Hmax id' w' Hl.
  destruct (decide (worldId = id')) as [<-|Hne].
  - rewrite lookup_insert_eq in Hl. injection Hl as <-. auto.
  - rewrite lookup_insert_ne in Hl by exact Hne. apply Hk, Hl.
Qed.

Lemma registryKept_step gameWorlds worldId w w1 :
  registryKept gameWorlds -> gameWorlds !! worldId = Some w ->
  step w w1 -> reachableGuarded w1 ->
  registryKept (<[worldId := w1]> gameWorlds).
Proof.
  intros Hk Hl Hstep Hw1.
  destruct (Hk worldId w Hl) as (_ & Hid & Hmax).
  destruct (step_frame Math_sin Math_cos w w1 Hstep) as (_ & Hid1 & Hmax1 & _).
  apply registryKept_insert; [exact Hk | exact Hw1 | congruence | congruence].
Qed.

Lemma getOrCreateWorld_kept gameWorlds worldId :
  0 <= MAX_PLAYERS_PER_WORLD -> registryKept gameWorlds ->
  registryKept (snd (getOrCreateWorld gameWorlds worldId)) /\
  snd (getOrCreateWorld gameWorlds worldId) !! worldId
    = Some (fst (getOrCreateWorld gameWorlds worldId)).
Proof.
  intros Hmax Hk. unfold Index.getOrCreateWorld.
  destruct (gameWorlds !! worldId) as [w|] eqn:Hl; cbn [fst snd].
  - split; [exact Hk | exact Hl].
  - split; [|apply lookup_insert_eq].
    apply registryKept_insert; [exact Hk | | reflexivity | reflexivity].
    apply GameWorld.guarded_new, Hmax.
Qed.

Lemma playerJoin_kept gameWorlds c username worldId playerId spawn now :
  0 <= MAX_PLAYERS_PER_WORLD -> registryKept gameWorlds ->
  registryKept (fst (playerJoin gameWorlds c username worldId playerId spawn now)).
Proof.
  intros Hmax Hk. unfold Index.playerJoin.
  destruct (getOrCreateWorld_kept gameWorlds worldId Hmax Hk) as [Hk1 Hl1].
  destruct (getOrCreateWorld gameWorlds worldId) as [gameWorld gameWorlds1].
  cbn [fst snd] in Hk1, Hl1.
  destruct (GameWorld.isFull gameWorld) eqn:Hfull; [exact Hk1|].
  match goal with
  | |- context [addPlayer gameWorld ?p] => set (player := p)
  end.
  set (position := Player.position player).
  destruct (Hk1 worldId gameWorld Hl1) as (Hw & Hid & Hm).
  pose proof (GameWorld.guarded_addPlayer Math_sin Math_cos gameWorld player Hw Hfull) as Hw1.
  pose proof (GameWorld.guarded_getChunksNearPosition Math_sin Math_cos _ position 2 Hw1) as Hw2.
  destruct (step_frame Math_sin Math_cos _ _ (step_addPlayer Math_sin Math_cos gameWorld player))
    as (_ & Hid1 & Hm1 & _).
  destruct (step_frame Math_sin Math_cos _ _
              (step_getChunksNearPosition Math_sin Math_cos (addPlayer gameWorld player) position 2))
    as (_ & Hid2 & Hm2 & _).
  destruct (getChunksNearPosition (addPlayer gameWorld player) position 2)
    as [chunks gameWorld2].
  cbn [fst snd] in *.
  apply registryKept_insert; [exact Hk1 | exact Hw2 | congruence | congruence].
Qed.

Lemma disconnect_kept gameWorlds c :
  registryKept gameWorlds -> registryKept (Index.disconnect gameWorlds c).
Proof.
  intros Hk. unfold Index.disconnect.
  destruct (Index.joined c) as [[player worldId]|]; [|exact Hk].
  destruct (gameWorlds !! worldId) as [gameWorld|] eqn:Hl; [|exact Hk].
  apply (registryKept_step gameWorlds worldId gameWorld); [exact Hk | exact Hl | constructor |].
  apply GameWorld.guarded_removePlayer. apply (Hk worldId gameWorld Hl).
Qed.

Lemma served_kept gameWorlds :
  0 <= MAX_PLAYERS_PER_WORLD -> served gameWorlds -> registryKept gameWorlds.
Proof.
  intros Hmax. induction 1 as
    [ | gameWorlds c username worldId playerId spawn now _ IH
      | gameWorlds worldId gameWorld player _ IH Hl
      | gameWorlds worldId gameWorld player _ IH Hl
      | gameWorlds c _ IH
      | gameWorlds worldId _ IH ].
  - intros worldId w Hl. rewrite lookup_empty in Hl. discriminate.
  - apply playerJoin_kept; assumption.
  - apply (registryKept_step gameWorlds worldId gameWorld); [exact IH | exact Hl | constructor |].
    apply GameWorld.guarded_updatePlayer. apply (IH worldId gameWorld Hl).
  - destruct (IH worldId gameWorld Hl) as (Hw & Hid & Hm).
    pose proof (GameWorld.guarded_updatePlayer Math_sin Math_cos gameWorld player Hw) as Hw1.
    pose proof (GameWorld.guarded_getNewChunksForPlayer Math_sin Math_cos _ player Hw1) as Hw2.
    destruct (step_frame Math_sin Math_cos _ _ (step_updatePlayer Math_sin Math_cos gameWorld player))
      as (_ & Hid1 & Hm1 & _).
    destruct (step_frame Math_sin Math_cos _ _
                (step_getNewChunksForPlayer Math_sin Math_cos
                   (GameWorld.updatePlayer gameWorld player) player))
      as (_ & Hid2 & Hm2 & _).
    apply registryKept_insert; [exact IH | exact Hw2 | congruence | congruence].
  - apply disconnect_kept, IH.
  - intros id' w Hl. apply lookup_delete_Some in Hl as [_ Hl]. apply IH, Hl.
Qed.

(** X23: whatever the connections do, the server never holds more
    players in a world than [MAX_PLAYERS_PER_WORLD], when that is not
    negative: in every registry that the handlers lead to, each world is
    held under its own id, has that maximum, has a player count between 0
    and the maximum, and is full exactly when the count equals the
    maximum. *)
Theorem served_capacity (gameWorlds : gmap string GameWorld.t) (worldId : string)
    (gameWorld : GameWorld.t) :
  0 <= MAX_PLAYERS_PER_WORLD ->
  served gameWorlds -> gameWorlds !! worldId = Some gameWorld ->
  GameWorld.id gameWorld = worldId /\
  GameWorld.maxPlayers gameWorld = MAX_PLAYERS_PER_WORLD /\
  0 <= GameWorld.getPlayerCount gameWorld <= MAX_PLAYERS_PER_WORLD /\
  (GameWorld.isFull gameWorld = true <->
   GameWorld.getPlayerCount gameWorld = MAX_PLAYERS_PER_WORLD).
Proof.
  intros Hmax Hs Hl.
  destruct (served_kept gameWorlds Hmax Hs worldId gameWorld Hl) as (Hw & Hid & Hm).
  pose proof (guarded_count Math_sin Math_cos gameWorld Hw) as Hc.
  pose proof (isFull_guarded Math_sin Math_cos gameWorld Hw) as Hf.
  rewrite Hm in Hc, Hf. auto.
Qed.

Lemma getOrCreateWorld_lookup gameWorlds worldId :
  snd (getOrCreateWorld gameWorlds worldId) !! worldId
    = Some (fst (getOrCreateWorld gameWorlds worldId)).
Proof.
  unfold Index.getOrCreateWorld.
  destruct (gameWorlds !! worldId) as [w|] eqn:Hl; cbn [fst snd];
    [exact Hl | apply lookup_insert_eq].
Qed.

Lemma getOrCreateWorld_other gameWorlds worldId other :
  other <> worldId ->
  snd (getOrCreateWorld gameWorlds worldId) !! other = gameWorlds !! other.
Proof.
  intros Hne. unfold Index.getOrCreateWorld.
  destruct (gameWorlds !! worldId) as [w|]; cbn [fst snd]; [reflexivity|].
  apply lookup_insert_ne. congruence.
Qed.

Lemma getOrCreateWorld_insert gameWorlds worldId w :
  <[worldId := w]> (snd (getOrCreateWorld gameWorlds worldId))
    = <[worldId := w]> gameWorlds.
Proof.
  unfold Index.getOrCreateWorld.
  destruct (gameWorlds !! worldId); cbn [fst snd]; [reflexivity|].
  apply insert_insert_eq.
Qed.

Lemma playerJoin_rejected gameWorlds c username worldId playerId spawn now :
  GameWorld.isFull (fst (getOrCreateWorld gameWorlds worldId)) = true ->
  playerJoin gameWorlds c username worldId playerId spawn now
    = (snd (getOrCreateWorld gameWorlds worldId),
       Index.mkConnection (Index.currentPlayer c) (Some worldId)).
Proof.
  intros Hfull. unfold Index.playerJoin.
  destruct (getOrCreateWorld gameWorlds worldId) as [gameWorld gameWorlds1].
  cbn [fst snd] in *. rewrite Hfull. reflexivity.
Qed.

Lemma playerJoin_accepted gameWorlds c username worldId playerId spawn now :
  GameWorld.isFull (fst (getOrCreateWorld gameWorlds worldId)) = false ->
  let player :=
    Player.mk playerId (Index.usernameOr username playerId) spawn Direction.down false now in
  playerJoin gameWorlds c username worldId playerId spawn now
    = (<[worldId :=
           snd (getChunksNearPosition
                  (addPlayer (fst (getOrCreateWorld gameWorlds worldId)) player) spawn 2)]>
         gameWorlds,
       Index.mkConnection (Some player) (Some worldId)).
Proof.
  intros Hfull player. rewrite <- getOrCreateWorld_insert. unfold Index.playerJoin.
  destruct (getOrCreateWorld gameWorlds worldId) as [gameWorld gameWorlds1].
  cbn [fst snd] in *. rewrite Hfull. fold player.
  change (Player.position player) with spawn.
  destruct (getChunksNearPosition (addPlayer gameWorld player) spawn 2)
    as [chunks gameWorld2].
  reflexivity.
Qed.

Lemma joined_connection player worldId :
  worldId <> EmptyString ->
  Index.joined (Index.mkConnection (Some player) (Some worldId)) = Some (player, worldId).
Proof.
  intros Hne. unfold Index.joined. cbn [Index.currentPlayer Index.currentWorldId].
  destruct (String.eqb worldId EmptyString) eqn:He; [|reflexivity].
  apply String.eqb_eq in He. contradiction.
Qed.

(** X24: a join that is accepted and the disconnection that follows, on
    any connection and any registry, with a player id that the world does
    not hold yet: the world is left with the players it had, without a
    visibility set for the id and with all that it had cached, and no other
    world is touched.  As the join replaces the player of the connection,
    the disconnection removes the new player only: a player that the
    connection had joined before stays registered in its world. *)
Theorem join_then_disconnect (gameWorlds : gmap string GameWorld.t)
    (c : Index.Connection) (username worldId playerId : string)
    (spawn : Position.t) (now : Z) :
  let gameWorld := fst (getOrCreateWorld gameWorlds worldId) in
  let state := playerJoin gameWorlds c username worldId playerId spawn now in
  let after := Index.disconnect (fst state) (snd state) in
  worldId <> EmptyString ->
  GameWorld.isFull gameWorld = false ->
  GameWorld.players gameWorld !! playerId = None ->
  (exists left,
     after = <[worldId := left]> gameWorlds /\
     GameWorld.players left = GameWorld.players gameWorld /\
     GameWorld.playerChunks left = delete playerId (GameWorld.playerChunks gameWorld) /\
     (forall k chunk, GameWorld.loadedChunks gameWorld !! k = Some chunk ->
                      GameWorld.loadedChunks left !! k = Some chunk)) /\
  (forall earlier world w,
     Index.currentPlayer c = Some earlier -> gameWorlds !! world = Some w ->
     GameWorld.players w !! Player.id earlier = Some earlier ->
     exists w', after !! world = Some w' /\
                GameWorld.players w' !! Player.id earlier = Some earlier).
Proof.
  intros gameWorld state after Hne Hfull Hfresh.
  pose proof (playerJoin_accepted gameWorlds c username worldId playerId spawn now Hfull)
    as Hjoin. cbv zeta in Hjoin. fold gameWorld in Hjoin.
  set (player := Player.mk playerId (Index.usernameOr username playerId) spawn
                   Direction.down false now) in *.
  set (w1 := addPlayer gameWorld player) in *.
  set (w2 := snd (getChunksNearPosition w1 spawn 2)) in *.
  assert (after = <[worldId := GameWorld.removePlayer w2 playerId]> gameWorlds) as Hafter.
  { unfold after, state. rewrite Hjoin. cbn [fst snd]. unfold Index.disconnect.
    rewrite (joined_connection player worldId Hne), lookup_insert_eq.
    apply insert_insert_eq. }
  destruct (addPlayer_fresh Math_sin Math_cos gameWorld player Hfresh) as (Hp & Hc & _).
  fold w1 in Hp, Hc. change (Player.id player) with playerId in Hp, Hc.
  destruct (step_frame Math_sin Math_cos _ _ (step_addPlayer Math_sin Math_cos gameWorld player))
    as (Hkeep1 & _).
  fold w1 in Hkeep1.
  destruct (step_frame Math_sin Math_cos _ _
              (step_getChunksNearPosition Math_sin Math_cos w1 spawn 2)) as (Hkeep2 & _).
  fold w2 in Hkeep2.
  destruct (getOrGenerateChunks_frame Math_sin Math_cos
              (GameWorld.getChunksForPosition w1 spawn 2) w1) as (_ & Hp2 & _ & Hc2 & _).
  change (snd (GameWorld.getOrGenerateChunks Math_sin Math_cos w1
                 (GameWorld.getChunksForPosition w1 spawn 2))) with w2 in Hp2, Hc2.
  assert (GameWorld.players (GameWorld.removePlayer w2 playerId)
          = GameWorld.players gameWorld) as Hplayers.
  { cbn [GameWorld.removePlayer GameWorld.players]. rewrite Hp2, Hp.
    apply delete_insert_id, Hfresh. }
  split.
  - exists (GameWorld.removePlayer w2 playerId).
    split; [exact Hafter|]. split; [exact Hplayers|]. split.
    + cbn [GameWorld.removePlayer GameWorld.playerChunks]. rewrite Hc2, Hc.
      apply delete_insert_eq.
    + intros k chunk Hk. cbn [GameWorld.removePlayer GameWorld.loadedChunks]. auto.
  - intros earlier world w _ Hl Hin. rewrite Hafter.
    destruct (decide (world = worldId)) as [->|Hother].
    + rewrite lookup_insert_eq. eexists. split; [reflexivity|].
      rewrite Hplayers. unfold gameWorld, Index.getOrCreateWorld. rewrite Hl. exact Hin.
    + rewrite lookup_insert_ne by congruence. eauto.
Qed.

(** X25: a join that is refused because the world is full still makes
    that world the world of the connection, and leaves it its player.  For
    a connection that has a player in another world: the refused join adds
    no player anywhere, the connection keeps its player and gets the new
    world id, and the disconnection that follows leaves the world of the
    player as it is, so the player is never removed from it. *)
Theorem rejected_join_detaches (gameWorlds : gmap string GameWorld.t)
    (c : Index.Connection) (username worldId playerId : string)
    (spawn : Position.t) (now : Z) (player : Player.t) (world : string) :
  let state := playerJoin gameWorlds c username worldId playerId spawn now in
  Index.joined c = Some (player, world) -> world <> worldId ->
  GameWorld.isFull (fst (getOrCreateWorld gameWorlds worldId)) = true ->
  fst state = snd (getOrCreateWorld gameWorlds worldId) /\
  snd state = Index.mkConnection (Some player) (Some worldId) /\
  fst state !! world = gameWorlds !! world /\
  Index.disconnect (fst state) (snd state) !! world = gameWorlds !! world.
Proof.
  intros state Hc Hne Hfull. unfold state.
  rewrite (playerJoin_rejected gameWorlds c username worldId playerId spawn now Hfull).
  cbn [fst snd].
  assert (Index.currentPlayer c = Some player) as ->.
  { unfold Index.joined in Hc. destruct (Index.currentPlayer c); [|discriminate].
    destruct (Index.currentWorldId c); [|discriminate].
    destruct (String.eqb _ _); [discriminate|]. congruence. }
  pose proof (getOrCreateWorld_other gameWorlds worldId world Hne) as Hother.
  split; [reflexivity|]. split; [reflexivity|]. split; [exact Hother|].
  unfold Index.disconnect.
  clear Hc.
  destruct (Index.joined _) as [[p id]|] eqn:Hj; [|exact Hother].
  assert (id = worldId) as ->.
  { unfold Index.joined in Hj. cbn [Index.currentPlayer Index.currentWorldId] in Hj.
    destruct (String.eqb _ _); [discriminate|]. congruence. }
  rewrite getOrCreateWorld_lookup, lookup_insert_ne by congruence. exact Hother.
Qed.

End Handlers.

Lemma first_world_not_full (worldId : string) :
  GameWorld.isFull (fst (Index.getOrCreateWorld 100 ∅ worldId)) = false.
Proof.
  unfold Index.getOrCreateWorld. rewrite lookup_empty. cbn [fst].
  unfold GameWorld.isFull, GameWorld.new. cbn [GameWorld.players GameWorld.maxPlayers].
  rewrite map_size_empty. reflexivity.
Qed.

Lemma first_world_empty (worldId playerId : string) :
  GameWorld.players (fst (Index.getOrCreateWorld 100 ∅ worldId)) !! playerId = None.
Proof.
  unfold Index.getOrCreateWorld. rewrite lookup_empty. cbn [fst].
  apply lookup_empty.
Qed.

Lemma served_capacity_witness :
  let state :=
    Index.playerJoin sineTable cosineTable 100 ∅ (Index.mkConnection None None)
      "alice" "default" "a" (Position.mk 2500 2500) 0 in
  let player :=
    Player.mk "a" (Index.usernameOr "alice" "a") (Position.mk 2500 2500)
      Direction.down false 0 in
  let gameWorld :=
    snd (GameWorld.getChunksNearPosition sineTable cosineTable
           (GameWorld.addPlayer sineTable cosineTable
              (fst (Index.getOrCreateWorld 100 ∅ "default")) player)
           (Position.mk 2500 2500) 2) in
  0 <= 100 /\
  Index.served sineTable cosineTable 100 (fst state) /\
  fst state !! "default"%string = Some gameWorld /\
  GameWorld.id gameWorld = "default"%string /\
  0 <= GameWorld.getPlayerCount gameWorld <= 100.
Proof.
  intros state player gameWorld.
  assert (0 <= 100) as Hmax by lia.
  assert (Index.served sineTable cosineTable 100 (fst state)) as Hserved
    by apply Index.served_playerJoin, Index.served_start.
  assert (fst state !! "default"%string = Some gameWorld) as Hlookup.
  { unfold state.
    rewrite (playerJoin_accepted sineTable cosineTable 100 ∅ (Index.mkConnection None None)
               "alice" "default" "a" (Position.mk 2500 2500) 0
               (first_world_not_full "default")).
    apply lookup_insert_eq. }
  pose proof (served_capacity sineTable cosineTable 100 (fst state) "default" gameWorld
                Hmax Hserved Hlookup) as (Hid & _ & Hcount & _).
  auto.
Defined.

Lemma join_then_disconnect_witness :
  let gameWorld := fst (Index.getOrCreateWorld 100 ∅ "default") in
  let state :=
    Index.playerJoin sineTable cosineTable 100 ∅ (Index.mkConnection None None)
      "alice" "default" "a" (Position.mk 2500 2500) 0 in
  let after := Index.disconnect (fst state) (snd state) in
  "default"%string <> EmptyString /\
  GameWorld.isFull gameWorld = false /\
  GameWorld.players gameWorld !! "a"%string = None /\
  exists left,
    after = <["default"%string := left]> ∅ /\
    GameWorld.players left = GameWorld.players gameWorld.
Proof.
  intros gameWorld state after.
  assert ("default"%string <> EmptyString) as Hne by discriminate.
  assert (GameWorld.isFull gameWorld = false) as Hfull
    by exact (first_world_not_full "default").
  assert (GameWorld.players gameWorld !! "a"%string = None) as Hfresh
    by exact (first_world_empty "default" "a").
  destruct (join_then_disconnect sineTable cosineTable 100 ∅ (Index.mkConnection None None)
              "alice" "default" "a" (Position.mk 2500 2500) 0 Hne Hfull Hfresh)
    as [(left & Hafter & Hplayers & _) _].
  split; [exact Hne|]. split; [exact Hfull|]. split; [exact Hfresh|].
  exists left. split; [exact Hafter | exact Hplayers].
Defined.

Lemma bob_fills_arena :
  GameWorld.isFull
    (GameWorld.addPlayer sineTable cosineTable (GameWorld.new "arena" 1) bob) = true.
Proof.
  unfold GameWorld.isFull.
  destruct (addPlayer_fresh sineTable cosineTable (GameWorld.new "arena" 1) bob
              (lookup_empty _)) as (Hp & _ & Hm & _).
  rewrite Hp, Hm. reflexivity.
Qed.

Lemma rejected_join_detaches_witness :
  let arena := GameWorld.addPlayer sineTable cosineTable (GameWorld.new "arena" 1) bob in
  let gameWorlds : gmap string GameWorld.t := {["arena"%string := arena]} in
  let c := Index.mkConnection (Some alice) (Some "default"%string) in
  let state :=
    Index.playerJoin sineTable cosineTable 1 gameWorlds c "alice" "arena" "c"
      (Position.mk 2500 2500) 0 in
  Index.joined c = Some (alice, "default"%string) /\
  "default"%string <> "arena"%string /\
  GameWorld.isFull (fst (Index.getOrCreateWorld 1 gameWorlds "arena")) = true /\
  snd state = Index.mkConnection (Some alice) (Some "arena"%string) /\
  Index.disconnect (fst state) (snd state) !! "default"%string
    = gameWorlds !! "default"%string.
Proof.
  intros arena gameWorlds c state.
  assert (Index.joined c = Some (alice, "default"%string)) as Hc by reflexivity.
  assert ("default"%string <> "arena"%string) as Hne by discriminate.
  assert (GameWorld.isFull (fst (Index.getOrCreateWorld 1 gameWorlds "arena")) = true)
    as Hfull.
  { unfold Index.getOrCreateWorld, gameWorlds. rewrite lookup_singleton_eq.
    cbn [fst]. exact bob_fills_arena. }
  destruct (rejected_join_detaches sineTable cosineTable 1 gameWorlds c "alice" "arena" "c"
              (Position.mk 2500 2500) 0 alice "default" Hc Hne Hfull)
    as (_ & Hconn & _ & Hleft).
  auto.
Defined.
